(** * BIP32 path templates: a shallow embedding of [bip32template/__init__.py]

    The development follows the Python module top to bottom: the constants,
    the exception classes, the [BIP32Template] value with its constructor,
    the streaming parser [parse] with its nested closures, and the
    operations [match], [to_path], [__eq__] and [__str__].

    Modelling conventions.
    - Python integers are [Z].
    - A Python one-character string is its code point ([char := N], so
      [ord] is [Z.of_N]); a string is the list of its characters.
      [str.isdigit] depends on the Unicode tables of the interpreter, so it
      is a parameter of the parser, known only on the ASCII range.
    - A raised exception is a value of [exn]; code that can raise returns a
      [result].  [assert] raises [AssertionError], indexing out of range
      raises [IndexError].
    - The closures of [parse] share the local variables of [parse]; they are
      the fields of the record [locals], passed explicitly.
    - The [set] of accepted hardened markers is a [gset]. *)

From Stdlib Require Import ZArith NArith Ascii String Lia ZifyBool.
From stdpp Require Import base numbers option list gmap.

Local Open Scope Z_scope.

(** ** Characters and strings *)

Abbreviation char := N.
Abbreviation str := (list char).

Definition ch (a : ascii) : char := N_of_ascii a.
Arguments ch a%_char : simpl never.

Definition text (s : string) : str := map ch (list_ascii_of_string s).
Arguments text s%_string : simpl never.

Definition ord (c : char) : Z := Z.of_N c.

(** The character ['\t'] *)
Definition tab : char := 9%N.

(** [sep.join(parts)] *)
Fixpoint join (sep : str) (parts : list str) : str :=
  match parts with
  | [] => []
  | [p] => p
  | p :: ps => p ++ sep ++ join sep ps
  end.

(** [str(n)] for an integer: decimal digits, most significant first. The
    fuel is the number of binary digits of [n], which bounds the number of
    decimal ones. *)
Definition digit_char (d : Z) : char := Z.to_N (ord (ch "0") + d).

Fixpoint str_digits (fuel : nat) (n : Z) (acc : str) : str :=
  match fuel with
  | O => acc
  | S fuel' =>
      let acc' := digit_char (n mod 10) :: acc in
      if n <? 10 then acc' else str_digits fuel' (n / 10) acc'
  end.

Definition str_int (n : Z) : str :=
  if n <? 0
  then ch "-" :: str_digits (S (Z.to_nat (Z.log2 (- n)))) (- n) []
  else str_digits (S (Z.to_nat (Z.log2 n))) n [].

(** ** Module constants *)

Definition HARDENED_INDEX_START : Z := 0x80000000.
Definition MAX_INDEX_VALUE : Z := HARDENED_INDEX_START - 1.
Definition HARDENED_INDEX_MASK : Z := MAX_INDEX_VALUE.
Definition INVALID_INDEX : Z := HARDENED_INDEX_START.
Definition HARDENED_MARKERS : str * str := (text "h", text "'").

(** ** Exceptions *)

(** The subclasses of [BIP32TemplateException]. *)
Inductive template_error :=
  | UnexpectedHardenedMarker
  | UnexpectedSpace
  | UnexpectedCharacter
  | UnexpectedFinish
  | UnexpectedSlash
  | InvalidCharacter
  | IndexTooBig
  | IndexHasLeadingZero
  | PathEmpty
  | PathTooLong
  | PathSectionTooLong
  | RangesIntersect
  | RangeOrderBad
  | RangeEqualsWildcard
  | SingleIndexAsRange
  | RangeStartEqualsEnd
  | RangeStartNextToPrevious
  | GotHardenedAfterUnhardened
  | DigitExpected
  | InconsistentRange.

(** What a call can raise: a template exception with its [position]
    attribute ([None] when raised as a bare class), or one of the builtin
    exceptions the module raises or can provoke. *)
Inductive exn :=
  | BIP32TemplateException (e : template_error) (position : option Z)
  | AssertionError
  | ValueError
  | IndexError.

Inductive result (A : Type) :=
  | Ok (a : A)
  | Raise (e : exn).
Arguments Ok {A} a.
Arguments Raise {A} e.

Definition bind {A B} (r : result A) (k : A → result B) : result B :=
  match r with
  | Ok a => k a
  | Raise e => Raise e
  end.

Notation "'let*' p ':=' r 'in' k" := (bind r (fun p => k))
  (at level 10, p pattern, r at level 200, k at level 200, only parsing).
Notation "r ;;; k" := (bind r (fun _ => k))
  (at level 100, right associativity, only parsing).

Definition assert (b : bool) : result unit :=
  if b then Ok tt else Raise AssertionError.

Definition raise_class {A} (e : template_error) : result A :=
  Raise (BIP32TemplateException e None).

(** ** The template value *)

Abbreviation range := (Z * Z)%type.
Abbreviation section := (list range).

Record BIP32Template := mkTemplate {
  sections : list section;
  is_partial : bool;
  hardened_marker : str;
}.

(** *** [BIP32Template.__init__]

    The flags [got_hardened] and [got_unhardened] live across the whole
    double loop; [prev_r] is reset for each section. The test on [len(r)]
    and [isinstance] cannot fail on pairs of integers and is left out. *)

Record init_flags := mkFlags {
  got_hardened : bool;
  got_unhardened : bool;
}.

Fixpoint init_ranges (s : list range) (prev_r : option range)
    (f : init_flags) (new_ranges : list range)
    : result (list range * init_flags) :=
  match s with
  | [] => Ok (new_ranges, f)
  | r :: s' =>
      let '(start, end_) := r in
      if start >? end_ then raise_class RangeOrderBad else
      if match prev_r with
         | Some prev => prev.2 >=? start
         | None => false
         end
      then raise_class RangesIntersect else
      let* f' := (if start >=? HARDENED_INDEX_START then
               if got_unhardened f
               then raise_class GotHardenedAfterUnhardened
               else if end_ <? HARDENED_INDEX_START
               then raise_class InconsistentRange
               else Ok (mkFlags true (got_unhardened f))
             else
               if end_ >=? HARDENED_INDEX_START
               then raise_class InconsistentRange
               else Ok (mkFlags (got_hardened f) true)) in
      init_ranges s' (Some r) f' (new_ranges ++ [(r.1, r.2)])
  end.

Fixpoint init_sections (ss : list section) (f : init_flags)
    (acc : list section) : result (list section * init_flags) :=
  match ss with
  | [] => Ok (acc, f)
  | s :: ss' =>
      let* (new_ranges, f') := init_ranges s None f [] in
      init_sections ss' f' (acc ++ [new_ranges])
  end.

Definition in_HARDENED_MARKERS (m : str) : bool :=
  bool_decide (m = HARDENED_MARKERS.1) || bool_decide (m = HARDENED_MARKERS.2).

Definition __init__ (_sections : list section) (is_partial : bool)
    (hardened_marker : str) (_accept_params_as_is : bool)
    : result BIP32Template :=
  if bool_decide (_sections = []) then raise_class PathEmpty else
  let* (sections, hardened_marker) :=
    (if _accept_params_as_is then Ok (_sections, hardened_marker)
     else
       let* (sections, f) :=
         init_sections _sections (mkFlags false false) [] in
       assert (got_hardened f || got_unhardened f) ;;;
       Ok (sections,
           if negb (got_hardened f) then [] else hardened_marker)) in
  if negb (bool_decide (hardened_marker = []))
     && negb (in_HARDENED_MARKERS hardened_marker)
  then raise_class UnexpectedHardenedMarker
  else Ok (mkTemplate sections is_partial hardened_marker).

(** *** [BIP32Template.match]

    [path[i]] is written with the list lookup; outside the list Python
    raises [IndexError]. The inner [for ... else] is [match_section]. *)

Definition getitem {A} (l : list A) (i : nat) : result A :=
  match l !! i with
  | Some x => Ok x
  | None => Raise IndexError
  end.

(** The inner loop: [true] when it left by [break]. *)
Fixpoint match_section (s : section) (i : nat) (path : list Z)
    : result bool :=
  match s with
  | [] => Ok false
  | (range_start, range_end) :: s' =>
      let* v := getitem path i in
      if (v <? range_start) || (v >? range_end)
      then match_section s' i path
      else Ok true
  end.

Fixpoint match_sections (ss : list section) (i : nat) (path : list Z)
    : result bool :=
  match ss with
  | [] => Ok true
  | s :: ss' =>
      let* broke := match_section s i path in
      if broke then match_sections ss' (S i) path
      else Ok false                      (* no breaks: no matching range *)
  end.

Definition match_ (self : BIP32Template) (path : list Z) : result bool :=
  if negb (bool_decide (length (sections self) = length path))
  then Ok false
  else match_sections (sections self) 0 path.

(** *** [BIP32Template.to_path] *)

Fixpoint to_path_loop (ss : list section) (path : list Z)
    : result (option (list Z)) :=
  match ss with
  | [] => Ok (Some path)
  | s :: ss' =>
      if (1 <? length s)%nat then Ok None else
      let* s0 := getitem s 0 in
      if negb (s0.1 =? s0.2) then Ok None
      else to_path_loop ss' (path ++ [s0.1])
  end.

Definition to_path (self : BIP32Template) : result (option (list Z)) :=
  to_path_loop (sections self) [].

(** *** [BIP32Template.__eq__]

    [other] is any Python object; only what [isinstance] can tell apart
    matters here. *)

Inductive pyobject :=
  | PyNone
  | PyBool (b : bool)
  | PyInt (n : Z)
  | PyStr (s : str)
  | PyListOfInt (xs : list Z)
  | PyBIP32Template (t : BIP32Template).

Definition __eq__ (self : BIP32Template) (other : pyobject) : result bool :=
  match other with
  | PyBIP32Template other =>
      if negb (eqb (is_partial self) (is_partial other)) then Ok false
      else Ok (bool_decide (sections self = sections other))
  | _ => Raise ValueError
  end.

(** *** [BIP32Template.__str__] *)

Definition is_hardened_bit (v : Z) : bool :=
  negb (Z.land v HARDENED_INDEX_START =? 0).

Record str_section_state := mkStrState {
  r_parts : list str;
  is_hardened : option bool;
  got_many : bool;
}.

Fixpoint str_ranges (s : list range) (st : str_section_state)
    : result str_section_state :=
  match s with
  | [] => Ok st
  | (start_unmasked, end_unmasked) :: s' =>
      let is_start_hardened := is_hardened_bit start_unmasked in
      assert (eqb is_start_hardened (is_hardened_bit end_unmasked)) ;;;
      assert (match is_hardened st with
              | None => true
              | Some h => eqb h is_start_hardened
              end) ;;;
      let start := Z.land start_unmasked HARDENED_INDEX_MASK in
      let end_ := Z.land end_unmasked HARDENED_INDEX_MASK in
      let st' :=
        if start =? end_ then
          mkStrState (r_parts st ++ [str_int start])
                     (Some is_start_hardened) (got_many st)
        else if (start =? 0) && (end_ =? MAX_INDEX_VALUE) then
          mkStrState (r_parts st ++ [text "*"])
                     (Some is_start_hardened) (got_many st)
        else
          mkStrState (r_parts st ++ [str_int start ++ text "-" ++ str_int end_])
                     (Some is_start_hardened) true in
      str_ranges s' st'
  end.

Definition str_section (self : BIP32Template) (s : section) : result str :=
  let* st := str_ranges s (mkStrState [] None (1 <? length s)%nat) in
  match is_hardened st with
  | None => Raise AssertionError
  | Some h =>
      let* hm := (if h then
               assert (negb (bool_decide (hardened_marker self = []))) ;;;
               Ok (hardened_marker self)
             else Ok []) in
      let pre := if got_many st then text "[" else [] in
      let post := if got_many st then text "]" else [] in
      Ok (pre ++ join (text ",") (r_parts st) ++ post ++ hm)
  end.

Fixpoint str_sections (self : BIP32Template) (ss : list section)
    (s_parts : list str) : result (list str) :=
  match ss with
  | [] => Ok s_parts
  | s :: ss' =>
      let* p := str_section self s in
      str_sections self ss' (s_parts ++ [p])
  end.

Definition __str__ (self : BIP32Template) : result str :=
  let* s_parts := str_sections self (sections self)
                    (if is_partial self then [] else [text "m"]) in
  Ok (join (text "/") s_parts).

(** ** [BIP32Template.parse] *)

Inductive State :=
  | SECTION_START
  | NEXT_SECTION
  | RANGE_WITHIN_SECTION
  | SECTION_END
  | VALUE.

(** What [do_fsm] returns first: [Union[State, Success]]. *)
Inductive next_state :=
  | Next (s : State)
  | SUCCESS.

#[global] Instance State_eq_dec : EqDecision State.
Proof. solve_decision. Defined.

(** The keyword arguments of [parse]. *)
Record options := mkOptions {
  max_sections : Z;
  max_ranges_per_section : Z;
  is_format_onlypath : bool;
  is_format_unambiguous : bool;
  hardened_markers : str * str;
}.

Definition default_options : options :=
  mkOptions 16 8 false false HARDENED_MARKERS.

(** The local variables of [parse] that its closures read and assign. *)
Module L.
Record locals := mk {
  is_partial : bool;
  state : State;
  ret_state : option State;
  section_started : bool;
  index_value : Z;
  range_start : Z;
  range_end : Z;
  accepted_hardened_markers : gset str;
  sections : list section;
  position : Z;
}.

Definition set_is_partial (v : bool) (l : locals) : locals :=
  mk v (state l) (ret_state l) (section_started l) (index_value l)
     (range_start l) (range_end l) (accepted_hardened_markers l)
     (sections l) (position l).
Definition set_state (v : State) (l : locals) : locals :=
  mk (is_partial l) v (ret_state l) (section_started l) (index_value l)
     (range_start l) (range_end l) (accepted_hardened_markers l)
     (sections l) (position l).
Definition set_ret_state (v : option State) (l : locals) : locals :=
  mk (is_partial l) (state l) v (section_started l) (index_value l)
     (range_start l) (range_end l) (accepted_hardened_markers l)
     (sections l) (position l).
Definition set_section_started (v : bool) (l : locals) : locals :=
  mk (is_partial l) (state l) (ret_state l) v (index_value l)
     (range_start l) (range_end l) (accepted_hardened_markers l)
     (sections l) (position l).
Definition set_index_value (v : Z) (l : locals) : locals :=
  mk (is_partial l) (state l) (ret_state l) (section_started l) v
     (range_start l) (range_end l) (accepted_hardened_markers l)
     (sections l) (position l).
Definition set_range_start (v : Z) (l : locals) : locals :=
  mk (is_partial l) (state l) (ret_state l) (section_started l)
     (index_value l) v (range_end l) (accepted_hardened_markers l)
     (sections l) (position l).
Definition set_range_end (v : Z) (l : locals) : locals :=
  mk (is_partial l) (state l) (ret_state l) (section_started l)
     (index_value l) (range_start l) v (accepted_hardened_markers l)
     (sections l) (position l).
Definition set_accepted_hardened_markers (v : gset str) (l : locals)
    : locals :=
  mk (is_partial l) (state l) (ret_state l) (section_started l)
     (index_value l) (range_start l) (range_end l) v
     (sections l) (position l).
Definition set_sections (v : list section) (l : locals) : locals :=
  mk (is_partial l) (state l) (ret_state l) (section_started l)
     (index_value l) (range_start l) (range_end l)
     (accepted_hardened_markers l) v (position l).
Definition set_position (v : Z) (l : locals) : locals :=
  mk (is_partial l) (state l) (ret_state l) (section_started l)
     (index_value l) (range_start l) (range_end l)
     (accepted_hardened_markers l) (sections l) v.
End L.

Abbreviation locals := L.locals.

(** [xs[-1]], [xs[-2]] and [xs[-1] = x] *)
Definition getitem_last {A} (xs : list A) : result A :=
  match last xs with
  | Some x => Ok x
  | None => Raise IndexError
  end.

Definition getitem_last2 {A} (xs : list A) : result A :=
  if (length xs <? 2)%nat then Raise IndexError
  else getitem xs (length xs - 2).

Definition setitem_last {A} (xs : list A) (x : A) : result (list A) :=
  match xs with
  | [] => Raise IndexError
  | _ => Ok (<[(length xs - 1)%nat := x]> xs)
  end.

Definition len {A} (xs : list A) : Z := Z.of_nat (length xs).

Definition c_is (c : option char) (a : char) : bool :=
  bool_decide (c = Some a).

Definition c_in (c : char) (s : str) : bool := bool_decide (c ∈ s).

Section parse.

(** [str.isdigit] on one character *)
Variable isdigit : char → bool.

Variable opts : options.

Definition err {A} (l : locals) (exc : template_error) : result A :=
  Raise (BIP32TemplateException exc (Some (L.position l))).

Definition get_num_ranges_in_last_section (l : locals) : result Z :=
  if L.section_started l then Ok 0
  else
    let* last_section := getitem_last (L.sections l) in
    Ok (len last_section).

Definition raise_unexpected_char_error {A} (l : locals) (c : option char)
    : result A :=
  match c with
  | None => err l UnexpectedFinish
  | Some c =>
      if c_in c [ch " "; tab] then err l UnexpectedSpace
      else if c_in c (text "m/[]-,*h'") || isdigit c
      then err l UnexpectedCharacter
      else err l InvalidCharacter
  end.

Definition process_digit (l : locals) (c : char) : result Z :=
  assert (isdigit c) ;;;
  if L.index_value l =? 0 then err l IndexHasLeadingZero else
  let v := ord c - ord (ch "0") in
  let v := if negb (L.index_value l =? INVALID_INDEX)
           then L.index_value l * 10 + v else v in
  if v >? MAX_INDEX_VALUE then err l IndexTooBig else
  Ok v.

Definition finalize_range (l : locals) : result (bool * locals) :=
  if negb (L.range_start l =? INVALID_INDEX) then
    if negb (L.range_end l =? INVALID_INDEX) then
      assert (L.range_end l =? L.index_value l) ;;;
      Ok (false, l)
    else
      Ok (true, L.set_range_end (L.index_value l) l)
  else
    assert (L.range_start l =? INVALID_INDEX) ;;;
    assert (L.range_end l =? INVALID_INDEX) ;;;
    Ok (false,
        L.set_range_end (L.index_value l)
          (L.set_range_start (L.index_value l) l)).

Definition apply_new_range (l : locals) : result locals :=
  assert (L.range_start l <=? MAX_INDEX_VALUE) ;;;
  assert (L.range_end l <=? MAX_INDEX_VALUE) ;;;
  let* l :=
    (if L.section_started l then
       Ok (L.set_section_started false
             (L.set_sections
                (L.sections l ++ [[(L.range_start l, L.range_end l)]]) l))
     else
       let* last_section := getitem_last (L.sections l) in
       let* (prev_range_start, prev_range_end) :=
         getitem_last last_section in
       assert (prev_range_start <=? MAX_INDEX_VALUE) ;;;
       assert (prev_range_end <=? MAX_INDEX_VALUE) ;;;
       let* last_section :=
         (if prev_range_end + 1 =? L.range_start l
          then setitem_last last_section
                 (prev_range_start, L.range_end l)
          else Ok (last_section ++ [(L.range_start l, L.range_end l)])) in
       let* sections := setitem_last (L.sections l) last_section in
       Ok (L.set_sections sections l)) in
  Ok (L.set_range_end INVALID_INDEX (L.set_range_start INVALID_INDEX l)).

Definition check_range_correctness (l : locals) (was_open : bool)
    (is_last : bool) : result unit :=
  assert (L.range_start l <=? MAX_INDEX_VALUE) ;;;
  assert (L.range_end l <=? MAX_INDEX_VALUE) ;;;
  (if (L.range_start l =? 0) && (L.range_end l =? MAX_INDEX_VALUE)
   then err l RangeEqualsWildcard else Ok tt) ;;;
  let* num_ranges := get_num_ranges_in_last_section l in
  (if L.range_start l =? L.range_end l then
     (if is_last && (num_ranges =? 0)
      then err l SingleIndexAsRange else Ok tt) ;;;
     (if was_open then err l RangeStartEqualsEnd else Ok tt)
   else Ok tt) ;;;
  (if L.range_start l >? L.range_end l
   then err l RangeOrderBad else Ok tt) ;;;
  if num_ranges >? 0 then
    let* last_section := getitem_last (L.sections l) in
    let* (prev_range_start, prev_range_end) := getitem_last last_section in
    assert (prev_range_start <=? MAX_INDEX_VALUE) ;;;
    assert (prev_range_end <=? MAX_INDEX_VALUE) ;;;
    (if is_format_unambiguous opts
        && (prev_range_end + 1 =? L.range_start l)
     then err l RangeStartNextToPrevious else Ok tt) ;;;
    (if prev_range_start >? L.range_start l
     then err l RangeOrderBad else Ok tt) ;;;
    (if (prev_range_start <=? L.range_start l)
        && (prev_range_end >=? L.range_start l)
     then err l RangesIntersect else Ok tt)
  else Ok tt.

Fixpoint is_section_hardened_loop (s : section) (is_hardened : bool)
    : result unit :=
  match s with
  | [] => Ok tt
  | (r_start, r_end) :: s' =>
      (if r_start >=? HARDENED_INDEX_START then
         assert (r_end >=? HARDENED_INDEX_START) ;;;
         assert is_hardened
       else
         assert (r_end <? HARDENED_INDEX_START) ;;;
         assert (negb is_hardened)) ;;;
      is_section_hardened_loop s' is_hardened
  end.

Definition is_section_hardened (s : section) : result bool :=
  assert (negb (bool_decide (s = []))) ;;;
  let* s0 := getitem s 0 in
  let is_hardened := s0.1 >=? HARDENED_INDEX_START in
  is_section_hardened_loop s is_hardened ;;;
  Ok is_hardened.

Fixpoint harden_ranges (s : section) : result section :=
  match s with
  | [] => Ok []
  | (r_start, r_end) :: s' =>
      assert (r_start <=? MAX_INDEX_VALUE) ;;;
      assert (r_end <=? MAX_INDEX_VALUE) ;;;
      let* s'' := harden_ranges s' in
      Ok ((r_start + HARDENED_INDEX_START, r_end + HARDENED_INDEX_START)
            :: s'')
  end.

Definition harden_last_section (l : locals) : result locals :=
  let* last_section := getitem_last (L.sections l) in
  let* last_section := harden_ranges last_section in
  let* sections := setitem_last (L.sections l) last_section in
  Ok (L.set_sections sections l).

(** [do_fsm] returns the pair [(new_state, ret_state)]; the assigned
    locals come back with it. *)
Definition do_fsm (l : locals) (c : option char)
    : result (next_state * option State * locals) :=
  match L.state l with
  | SECTION_START =>
      let l := L.set_section_started true l in
      match c with
      | None =>
          if bool_decide (L.sections l = []) then err l PathEmpty
          else err l UnexpectedSlash
      | Some c' =>
          let digit_or_error :=
            if c_is c (ch "/") then err l UnexpectedSlash else
            if isdigit c' then
              let* v := process_digit l c' in
              let l := L.set_index_value v l in
              if len (L.sections l) =? max_sections opts
              then err l PathTooLong
              else Ok (Next VALUE, Some SECTION_END, l)
            else raise_unexpected_char_error l c in
          if negb (is_format_onlypath opts) then
            if c_in c' (text "[*")
               && (len (L.sections l) =? max_sections opts)
            then err l PathTooLong else
            if c_is c (ch "[") then
              Ok (Next VALUE, Some RANGE_WITHIN_SECTION,
                  L.set_index_value INVALID_INDEX l)
            else if c_is c (ch "*") then
              Ok (Next SECTION_END, None,
                  L.set_index_value MAX_INDEX_VALUE
                    (L.set_range_start 0 l))
            else digit_or_error
          else digit_or_error
      end

  | NEXT_SECTION =>
      assert (bool_decide (L.ret_state l = None)) ;;;
      assert (L.index_value l =? INVALID_INDEX) ;;;
      match c with
      | None =>
          if len (L.sections l) >? max_sections opts
          then err l PathTooLong
          else Ok (SUCCESS, None, l)
      | Some _ =>
          if c_is c (ch "/") then Ok (Next SECTION_START, None, l)
          else raise_unexpected_char_error l c
      end

  | RANGE_WITHIN_SECTION =>
      assert (negb (is_format_onlypath opts)) ;;;
      match c with
      | None => err l UnexpectedFinish
      | Some _ =>
          if L.index_value l =? INVALID_INDEX then
            if c_is c (ch " ") then err l UnexpectedSpace
            else err l DigitExpected
          else if c_is c (ch "-") then
            if negb (L.range_start l =? INVALID_INDEX)
            then raise_unexpected_char_error l c
            else
              Ok (Next VALUE, Some RANGE_WITHIN_SECTION,
                  L.set_index_value INVALID_INDEX
                    (L.set_range_start (L.index_value l) l))
          else if c_is c (ch ",") then
            let* n := get_num_ranges_in_last_section l in
            if n =? max_ranges_per_section opts - 1
            then err l PathSectionTooLong else
            let* (was_open, l) := finalize_range l in
            check_range_correctness l was_open false ;;;
            let* l := apply_new_range l in
            Ok (Next VALUE, Some RANGE_WITHIN_SECTION,
                L.set_index_value INVALID_INDEX l)
          else if c_is c (ch "]") then
            let* (was_open, l) := finalize_range l in
            check_range_correctness l was_open true ;;;
            Ok (Next SECTION_END, None, l)
          else raise_unexpected_char_error l c
      end

  | SECTION_END =>
      assert (negb (L.index_value l =? INVALID_INDEX)) ;;;
      if bool_decide (c = None) && (len (L.sections l) =? max_sections opts)
      then err l PathTooLong else
      if c_is c (ch "/") || bool_decide (c = None) then
        let* (_, l) := finalize_range l in
        let* l := apply_new_range l in
        Ok (if bool_decide (c = None) then SUCCESS else Next SECTION_START,
            None, L.set_index_value INVALID_INDEX l)
      else
        match c with
        | None => raise_unexpected_char_error l c
        | Some c' =>
            if bool_decide ([c'] ∈ L.accepted_hardened_markers l) then
              let l := L.set_accepted_hardened_markers {[ [c'] ]} l in
              let* (_, l) := finalize_range l in
              let* l := apply_new_range l in
              let* unhardened_before :=
                (if len (L.sections l) >? 1 then
                   let* prev := getitem_last2 (L.sections l) in
                   let* h := is_section_hardened prev in
                   Ok (negb h)
                 else Ok false) in
              if unhardened_before
              then err l GotHardenedAfterUnhardened else
              let* l := harden_last_section l in
              Ok (Next NEXT_SECTION, None,
                  L.set_index_value INVALID_INDEX l)
            else if bool_decide ([c'] = (hardened_markers opts).1)
                    || bool_decide ([c'] = (hardened_markers opts).2)
            then err l UnexpectedHardenedMarker
            else raise_unexpected_char_error l c
        end

  | VALUE =>
      match c with
      | None => Raise AssertionError
      | Some c' =>
          let* v := process_digit l c' in
          Ok (Next (L.state l), L.ret_state l, L.set_index_value v l)
      end
  end.

(** One turn of the [while True] loop on the character [c] just read
    ([None] at the end of the input). *)
Inductive control :=
  | Continue
  | Break.

Definition loop_body (l : locals) (c : option char)
    : result (control * locals) :=
  let l := L.set_position (L.position l + 1) l in
  (* PrefixParserFSM logic *)
  if c_is c (ch "m") && (L.position l =? 1) then
    Ok (Continue, L.set_is_partial false l)
  else if negb (L.is_partial l) && (L.position l =? 2) then
    if c_is c (ch "/") then Ok (Continue, l)
    else raise_unexpected_char_error l c
  else
    let* l :=
      (if bool_decide (L.state l = VALUE)
          && match c with
             | None => true
             | Some c' => negb (isdigit c')
             end
       then
         match L.ret_state l with
         | None => Raise AssertionError
         | Some s => Ok (L.set_ret_state None (L.set_state s l))
         end
       else Ok l) in
    let* (new_state, ret_state, l) := do_fsm l c in
    let l := L.set_ret_state ret_state l in
    assert (negb (bool_decide (ret_state = Some VALUE))) ;;;
    match c with
    | None =>
        match new_state with
        | SUCCESS => Ok (Break, l)
        | Next _ => Raise AssertionError
        end
    | Some _ =>
        match new_state with
        | SUCCESS => Ok (Break, l)
        | Next s => Ok (Continue, L.set_state s l)
        end
    end.

(** The loop over [tpl_iter]: the end of the input is read as [None],
    and that turn always leaves the loop or raises. *)
Fixpoint loop (l : locals) (tpl : str) : result locals :=
  match tpl with
  | [] =>
      let* (_, l) := loop_body l None in
      Ok l
  | c :: tpl' =>
      let* (ctl, l) := loop_body l (Some c) in
      match ctl with
      | Break => Ok l
      | Continue => loop l tpl'
      end
  end.

Definition set_of_pair (p : str * str) : gset str := {[ p.1; p.2 ]}.

Definition initial_locals : locals :=
  L.mk true SECTION_START None true INVALID_INDEX INVALID_INDEX
       INVALID_INDEX (set_of_pair (hardened_markers opts)) [] 0.

(** [tpl] is a sequence of one-character strings, so the two
    [ValueError]s of the loop cannot be raised. *)
Definition parse (tpl : str) : result BIP32Template :=
  let* l := loop initial_locals tpl in
  let hardened_marker :=
    if bool_decide (size (L.accepted_hardened_markers l) = 1%nat)
    then default [] (head (elements (L.accepted_hardened_markers l)))
    else [] in
  __init__ (L.sections l) (L.is_partial l) hardened_marker true.

End parse.

(** * Properties *)

(** ** Tactics shared by the proofs *)

Lemma bind_Ok {A B} (r : result A) (k : A → result B) (b : B) :
  bind r k = Ok b ↔ ∃ a, r = Ok a ∧ k a = Ok b.
Proof.
  destruct r as [a|e]; simpl; split.
  - eauto.
  - by intros (? & [= <-] & ?).
  - done.
  - by intros (? & ? & ?).
Qed.

Lemma assert_Ok (b : bool) (u : unit) : assert b = Ok u ↔ b = true.
Proof. destruct b, u; simpl; naive_solver. Qed.

Lemma getitem_Ok {A} (l : list A) (i : nat) (x : A) :
  getitem l i = Ok x ↔ l !! i = Some x.
Proof. unfold getitem. destruct (l !! i); naive_solver. Qed.

(** ** [match] *)

Section match_properties.

Implicit Types (s : section) (ss : list section) (path : list Z).

(** [v] lies in one of the ranges of [s], bounds included. *)
Definition in_section (s : section) (v : Z) : Prop :=
  ∃ r, r ∈ s ∧ r.1 ≤ v ≤ r.2.

Lemma match_section_spec s i path v :
  path !! i = Some v →
  ∃ b, match_section s i path = Ok b ∧ (b = true ↔ in_section s v).
Proof.
  intros Hv. induction s as [|[lo hi] s (b & IH & Hb)]; simpl.
  - exists false. split; [done|]. split; [done|].
    by intros (r & ?%elem_of_nil & _).
  - unfold getitem. rewrite Hv. simpl.
    destruct ((v <? lo) || (v >? hi)) eqn:Hout.
    + exists b. split; [done|]. rewrite Hb. unfold in_section.
      setoid_rewrite elem_of_cons. split.
      * intros (r & ? & ?). eauto.
      * intros (r & [-> | ?] & ?); [simpl in *; lia | eauto].
    + exists true. split; [done|]. split; [|done]. intros _.
      exists (lo, hi). split; [left|simpl; lia].
Qed.

Lemma match_sections_spec ss i path :
  (i + length ss)%nat = length path →
  ∃ b, match_sections ss i path = Ok b ∧
    (b = true ↔
     ∀ j s v, ss !! j = Some s → path !! (i + j)%nat = Some v →
              in_section s v).
Proof.
  revert i. induction ss as [|s ss IH]; intros i Hlen; simpl in *.
  - exists true. split; [done|]. split; [|done]. by intros _ j ? ? ?.
  - destruct (lookup_lt_is_Some_2 path i) as [v Hv]; [lia|].
    destruct (match_section_spec s i path v Hv) as (b & -> & Hb). simpl.
    destruct b.
    + destruct (IH (S i)) as (b' & -> & Hb'); [lia|].
      exists b'. split; [done|]. rewrite Hb'. split.
      * intros Hall [|j] s' v' Hs' Hv'; simpl in *.
        -- simplify_eq. rewrite Nat.add_0_r in Hv'. simplify_eq.
           by apply Hb.
        -- apply (Hall j); [done|]. rewrite <- Hv'. f_equal. lia.
      * intros Hall j s' v' Hs' Hv'. apply (Hall (S j)); [done|].
        rewrite <- Hv'. f_equal. lia.
    + exists false. split; [done|]. split; [done|]. intros Hall.
      apply Hb, (Hall 0%nat); [done|]. by rewrite Nat.add_0_r.
Qed.

End match_properties.

(** C3. [match] never raises: it returns a boolean, and that boolean is
    [True] exactly when the path has as many items as the template has
    sections and each item lies, bounds included, in one of the ranges of
    the section at its position. *)
Theorem match_correct (t : BIP32Template) (path : list Z) :
  ∃ b, match_ t path = Ok b ∧
    (b = true ↔
       length path = length (sections t) ∧
       ∀ i s v, sections t !! i = Some s → path !! i = Some v →
                in_section s v).
Proof.
  unfold match_. case_bool_decide as Hlen; simpl.
  - destruct (match_sections_spec (sections t) 0 path) as (b & -> & Hb);
      [done|].
    exists b. split; [done|]. rewrite Hb. naive_solver.
  - exists false. split; [done|]. naive_solver.
Qed.

(** ** [__eq__] *)

Definition isinstance_BIP32Template (x : pyobject) : bool :=
  match x with
  | PyBIP32Template _ => true
  | _ => false
  end.

(** C10. Comparing a template with an object that is not a template raises
    [ValueError]; comparing two templates looks at [is_partial] and at the
    sections only, so the hardened marker never changes the answer. *)
Theorem eq_correct (t : BIP32Template) :
  (∀ x, isinstance_BIP32Template x = false → __eq__ t x = Raise ValueError) ∧
  (∀ u, __eq__ t (PyBIP32Template u) =
          Ok (bool_decide (is_partial t = is_partial u
                           ∧ sections t = sections u))) ∧
  (∀ u hm hm',
     __eq__ (mkTemplate (sections t) (is_partial t) hm)
            (PyBIP32Template (mkTemplate (sections u) (is_partial u) hm')) =
     __eq__ t (PyBIP32Template u)).
Proof.
  split_and!.
  - by intros [].
  - intros u. unfold __eq__.
    destruct (is_partial t), (is_partial u); simpl; f_equal;
      first [ apply bool_decide_ext; naive_solver
            | symmetry; apply bool_decide_eq_false; naive_solver ].
  - done.
Qed.

(** ** [to_path] *)

Section to_path_properties.

(** A section that is one range holding one index. *)
Definition single_index (s : section) : Prop :=
  ∃ v, s = [(v, v)].

(** [s[0][0]] of a section that is not empty *)
Definition first_index (s : section) : Z :=
  (default (0, 0) (head s)).1.

Lemma to_path_loop_spec (ss : list section) (path : list Z) :
  Forall (λ s, s ≠ []) ss →
  (Forall single_index ss ∧
     to_path_loop ss path = Ok (Some (path ++ (first_index <$> ss))))
  ∨ (¬ Forall single_index ss ∧ to_path_loop ss path = Ok None).
Proof.
  intros Hne. revert path.
  induction Hne as [|s ss Hs _ IH]; intros path; simpl.
  - left. by rewrite app_nil_r.
  - destruct s as [|[a b] [|r s]]; [done| |]; simpl.
    + destruct (a =? b) eqn:Hab; simpl.
      * apply Z.eqb_eq in Hab as ->.
        destruct (IH (path ++ [b])) as [[Hall ->] | [Hnot ->]].
        -- left. split; [constructor; [by exists b|done]|].
           by rewrite <- app_assoc.
        -- right. split; [|done]. by intros [_ ?]%Forall_cons.
      * right. split; [|done]. intros [[v [=]] _]%Forall_cons. lia.
    + right. split; [|done]. by intros [[v [=]] _]%Forall_cons.
Qed.

End to_path_properties.

(** [to_path] on a template whose sections all hold a range: it does not
    raise, and it returns the path exactly when every section is one range
    holding one index. *)
Lemma to_path_nonempty_sections (t : BIP32Template) :
  Forall (λ s, s ≠ []) (sections t) →
  ∃ r, to_path t = Ok r ∧
    (is_Some r ↔ Forall single_index (sections t)) ∧
    (∀ path, r = Some path →
             path = first_index <$> sections t).
Proof.
  intros Hne. unfold to_path.
  destruct (to_path_loop_spec (sections t) [] Hne) as [[Hall ->] | [Hnot ->]].
  - eexists. split; [done|]. split; [by split; eauto|]. by intros ? [= <-].
  - exists None. split; [done|]. split; [|done].
    split; [by intros [? ?]|done].
Qed.

(** C7, at the failing input. The constructor accepts a template with an
    empty section after a non-empty one, and [to_path] raises [IndexError]
    on it instead of returning. *)
Theorem to_path_empty_section_raises :
  ∃ t, __init__ [[(0, 0)]; []] false [] false = Ok t ∧
       to_path t = Raise IndexError.
Proof. eexists. split; reflexivity. Qed.

(** ** [__str__] after direct construction *)

(** C9. The constructor accepts a template whose only section is hardened
    together with an empty hardened marker, and [__str__] fails its
    assertion on that template instead of returning a string. *)
Theorem str_assertion_not_guaranteed :
  ∃ t, __init__ [[(2147483648, 2147483648)]] false [] false = Ok t ∧
       __str__ t = Raise AssertionError.
Proof. eexists. split; reflexivity. Qed.

(** ** [__init__]: intersecting ranges *)

Section init_properties.

Implicit Types (s : section) (ss : list section) (f : init_flags).

(** Two consecutive ranges of [s], the second starting at or before the
    end of the first. *)
Definition overlapping (s : section) : Prop :=
  ∃ i r1 r2, s !! i = Some r1 ∧ s !! S i = Some r2 ∧ r1.2 >= r2.1.

Lemma init_ranges_app s1 s2 prev f acc :
  init_ranges (s1 ++ s2) prev f acc =
  let* (acc', f') := init_ranges s1 prev f acc in
  init_ranges s2 (from_option Some prev (last s1)) f' acc'.
Proof.
  revert prev f acc. induction s1 as [|[a b] s1 IH]; intros; simpl; [done|].
  repeat (case_match; try done); simpl; rewrite IH;
    destruct (init_ranges s1 _ _ _) as [[? ?]|]; simpl; try done;
    by rewrite ?last_cons; destruct (last s1).
Qed.

Lemma init_sections_app ss1 ss2 f acc :
  init_sections (ss1 ++ ss2) f acc =
  let* (acc', f') := init_sections ss1 f acc in
  init_sections ss2 f' acc'.
Proof.
  revert f acc. induction ss1 as [|s ss1 IH]; intros; simpl; [done|].
  destruct (init_ranges s None f []) as [[? ?]|]; simpl; [|done].
  by rewrite IH.
Qed.

(** The loops raise nothing but template exceptions without position. *)
Lemma init_ranges_raises s prev f acc e :
  init_ranges s prev f acc = Raise e → ∃ k, e = BIP32TemplateException k None.
Proof.
  revert prev f acc. induction s as [|[a b] s IH]; intros; simpl in *;
    [done|].
  unfold raise_class in *.
  repeat (case_match; simpl in *; simplify_eq; eauto).
Qed.

Lemma init_sections_raises ss f acc e :
  init_sections ss f acc = Raise e → ∃ k, e = BIP32TemplateException k None.
Proof.
  revert f acc. induction ss as [|s ss IH]; intros f acc; simpl; [done|].
  destruct (init_ranges s None f []) as [[? ?]|e'] eqn:Hs; simpl.
  - apply IH.
  - intros [= <-]. by eapply init_ranges_raises.
Qed.

(** A range that starts at or before the end of its predecessor stops
    the inner loop. *)
Lemma init_ranges_overlap s prev f acc :
  (∃ p r, prev = Some p ∧ head s = Some r ∧ p.2 >= r.1) ∨ overlapping s →
  ∃ k, init_ranges s prev f acc = raise_class k.
Proof.
  revert prev f acc. induction s as [|[a b] s IH]; intros prev f acc Hov.
  { destruct Hov as [(? & ? & _ & [=] & _) | (? & ? & ? & [=] & _)]. }
  simpl.
  destruct (a >? b) eqn:Hab; [by eexists|].
  destruct Hov as [(p & r & -> & [= <-] & Hpr) | (i & r1 & r2 & H1 & H2 & Hr)].
  { simpl in *. destruct (p.2 >=? a) eqn:?; [by eexists|lia]. }
  case_match; [by eexists|].
  assert (∃ k, init_ranges s (Some (a, b)) f
                 (acc ++ [((a, b).1, (a, b).2)]) = raise_class k
          ∧ ∀ f', ∃ k, init_ranges s (Some (a, b)) f'
                 (acc ++ [((a, b).1, (a, b).2)]) = raise_class k)
    as (k & _ & Hk).
  { assert (∀ f', ∃ k, init_ranges s (Some (a, b)) f'
                 (acc ++ [((a, b).1, (a, b).2)]) = raise_class k) as Hall.
    { intros f'. apply IH. destruct i as [|i]; simpl in *.
      - left. simplify_eq. exists (a, b), r2.
        split; [done|]. split; [by destruct s; simplify_eq|done].
      - right. by exists i, r1, r2. }
    destruct (Hall f) as [k Hk]. eauto. }
  repeat (case_match; simpl; try (by eexists)); apply Hk.
Qed.

Lemma init_sections_overlap ss f acc :
  Exists overlapping ss → ∃ k, init_sections ss f acc = raise_class k.
Proof.
  intros Hex. revert f acc.
  induction Hex as [s ss Hs | s ss _ IH]; intros f acc; simpl.
  - destruct (init_ranges_overlap s None f [] (or_intror Hs)) as [k ->].
    by eexists.
  - destruct (init_ranges s None f []) as [[? ?]|e] eqn:Hs; simpl; [done|].
    destruct (init_ranges_raises _ _ _ _ _ Hs) as [k ->]. by eexists.
Qed.

End init_properties.

(** C4, as the constructor has it. A template with two consecutive ranges
    [(s1,e1)], [(s2,e2)] such that [e1 >= s2] is never constructed: a
    template exception is raised. It is [RangesIntersect] when the
    intersection is the first defect met, that is when the sections and
    ranges up to [(s1,e1)] are accepted and [s2 <= e2]. *)
Theorem init_ranges_intersect (pre post : list section)
    (before after : section) (r1 r2 : range) (p : bool) (hm : str) :
  r1.2 >= r2.1 →
  let ss := pre ++ (before ++ r1 :: r2 :: after) :: post in
  (∃ k, __init__ ss p hm false = raise_class k) ∧
  (r2.1 ≤ r2.2 →
   is_Some (match __init__ (pre ++ [before ++ [r1]]) p hm false with
            | Ok t => Some t
            | Raise _ => None
            end) →
   __init__ ss p hm false = raise_class RangesIntersect).
Proof.
  intros H12 ss. split.
  - unfold __init__. rewrite bool_decide_eq_false_2 by by destruct pre.
    destruct (init_sections_overlap ss (mkFlags false false) []) as [k ->];
      [|by exists k].
    apply Exists_app. right. left.
    exists (length before), r1, r2.
    rewrite !lookup_app_r by lia.
    rewrite Nat.sub_diag.
    replace (S (length before) - length before)%nat with 1%nat by lia.
    done.
  - intros H2 [t Ht]. unfold __init__ in *.
    rewrite bool_decide_eq_false_2 in Ht by by destruct pre.
    rewrite bool_decide_eq_false_2 by by destruct pre.
    subst ss. rewrite init_sections_app in *.
    destruct (init_sections pre _ _) as [[acc f]|]; simpl in *; [|done].
    replace (before ++ r1 :: r2 :: after)
      with ((before ++ [r1]) ++ r2 :: after) by by rewrite <- app_assoc.
    rewrite init_ranges_app.
    destruct (init_ranges (before ++ [r1]) None f []) as [[acc' f']|];
      simpl in *; [|done].
    rewrite last_snoc. simpl. destruct r2 as [s2 e2]. simpl in *.
    destruct (s2 >? e2) eqn:?; [lia|].
    destruct (r1.2 >=? s2) eqn:?; [done|lia].
Qed.

(** ** [parse]: what it needs of [str.isdigit] *)

(** The ASCII digits, which is all of [str.isdigit] in MicroPython. *)
Definition isdigit_ascii (c : char) : bool :=
  bool_decide (48 ≤ c ≤ 57)%N.

(** What every interpreter agrees on: below 128, the digits are ['0'] to
    ['9']. *)
Definition isdigit_spec (isdigit : char → bool) : Prop :=
  ∀ c, (c < 128)%N → isdigit c = isdigit_ascii c.

Lemma isdigit_ascii_spec : isdigit_spec isdigit_ascii.
Proof. by intros c _. Qed.

Section parse_ext.

Variables (f g : char → bool) (opts : options).

Lemma loop_body_ext (l : locals) (c : option char) :
  (∀ a, c = Some a → f a = g a) →
  loop_body f opts l c = loop_body g opts l c.
Proof.
  intros Hfg. destruct c as [a|]; [|done].
  unfold loop_body, do_fsm, process_digit, raise_unexpected_char_error.
  by rewrite (Hfg a).
Qed.

Lemma loop_ext (l : locals) (tpl : str) :
  Forall (λ a, f a = g a) tpl → loop f opts l tpl = loop g opts l tpl.
Proof.
  intros Hfg. revert l. induction Hfg as [|a tpl Ha _ IH]; intros l; simpl.
  - by rewrite (loop_body_ext l None).
  - rewrite (loop_body_ext l (Some a)) by naive_solver.
    destruct (loop_body g opts l (Some a)) as [[[] l']|]; simpl; auto.
Qed.

Lemma parse_ext (tpl : str) :
  Forall (λ a, f a = g a) tpl → parse f opts tpl = parse g opts tpl.
Proof. intros Hfg. unfold parse. by rewrite loop_ext. Qed.

End parse_ext.

(** On a text of ASCII characters the parser can be run with
    [isdigit_ascii]. *)
Lemma parse_ascii (isdigit : char → bool) (opts : options) (tpl : str) :
  isdigit_spec isdigit →
  Forall (λ c, (c < 128)%N) tpl →
  parse isdigit opts tpl = parse isdigit_ascii opts tpl.
Proof.
  intros Hd Hascii. apply parse_ext. eapply Forall_impl; [done|]. apply Hd.
Qed.

Ltac parse_ascii_compute :=
  rewrite parse_ascii by (try done; by apply (bool_decide_unpack _); vm_compute);
  by vm_compute.

(** ** [parse] on the texts of the specification *)

Definition unambiguous_options : options :=
  mkOptions 16 8 false true HARDENED_MARKERS.

(** C5. With the default options ["[0-2,3-5]"] parses to the one section
    holding the one range [(0, 5)], as ["[0-5]"] does; with
    [is_format_unambiguous] it is refused with [RangeStartNextToPrevious]
    (when the bracket closes, at position 9). *)
Theorem adjacent_ranges_merged (isdigit : char → bool) :
  isdigit_spec isdigit →
  parse isdigit default_options (text "[0-2,3-5]")
    = Ok (mkTemplate [[(0, 5)]] true []) ∧
  parse isdigit default_options (text "[0-5]")
    = Ok (mkTemplate [[(0, 5)]] true []) ∧
  parse isdigit unambiguous_options (text "[0-2,3-5]")
    = Raise (BIP32TemplateException RangeStartNextToPrevious (Some 9)).
Proof. intros Hd. split_and!; parse_ascii_compute. Qed.

Lemma adjacent_ranges_merged_witness :
  isdigit_spec isdigit_ascii ∧
  parse isdigit_ascii default_options (text "[0-2,3-5]")
    = parse isdigit_ascii default_options (text "[0-5]").
Proof.
  split; [exact isdigit_ascii_spec|].
  destruct (adjacent_ranges_merged isdigit_ascii isdigit_ascii_spec)
    as (-> & -> & _).
  reflexivity.
Defined.

(** C6. The token ["*"] parses to the range [(0, 2147483647)]; the same
    range spelled out as ["[0-2147483647]"] is refused with
    [RangeEqualsWildcard]. *)
Theorem wildcard_token_only (isdigit : char → bool) :
  isdigit_spec isdigit →
  parse isdigit default_options (text "*")
    = Ok (mkTemplate [[(0, 2147483647)]] true []) ∧
  parse isdigit default_options (text "[0-2147483647]")
    = Raise (BIP32TemplateException RangeEqualsWildcard (Some 14)).
Proof. intros Hd. split_and!; parse_ascii_compute. Qed.

Lemma wildcard_token_only_witness :
  isdigit_spec isdigit_ascii ∧
  parse isdigit_ascii default_options (text "*")
    = Ok (mkTemplate [[(0, MAX_INDEX_VALUE)]] true []).
Proof.
  split; [exact isdigit_ascii_spec|].
  exact (proj1 (wildcard_token_only isdigit_ascii isdigit_ascii_spec)).
Defined.

(** C8, as the parser has it. ["m/2147483648"] is refused with
    [IndexTooBig], and the position of the error is 12: that of the digit
    which takes the value over [MAX_INDEX_VALUE], here the last character
    of the text. *)
Theorem index_too_big_position (isdigit : char → bool) :
  isdigit_spec isdigit →
  parse isdigit default_options (text "m/2147483648")
    = Raise (BIP32TemplateException IndexTooBig
               (Some (len (text "m/2147483648")))) ∧
  len (text "m/2147483648") = 12.
Proof. intros Hd. split; [parse_ascii_compute|done]. Qed.

Lemma index_too_big_position_witness :
  isdigit_spec isdigit_ascii ∧
  parse isdigit_ascii default_options (text "m/2147483648")
    = Raise (BIP32TemplateException IndexTooBig (Some 12)).
Proof.
  split; [exact isdigit_ascii_spec|].
  exact (proj1 (index_too_big_position isdigit_ascii isdigit_ascii_spec)).
Defined.

(** C8 as stated fails: the position is not the one after the digits. *)
Lemma index_too_big_not_after_digits :
  parse isdigit_ascii default_options (text "m/2147483648")
    ≠ Raise (BIP32TemplateException IndexTooBig
               (Some (len (text "m/2147483648") + 1))).
Proof. by vm_compute. Qed.

(** C4 as stated fails: two touching ranges are accepted by the
    constructor as separate entries. *)
Lemma init_accepts_adjacent_ranges :
  (2 >= 3 - 1) ∧
  __init__ [[(0, 2); (3, 5)]] false [] false
    = Ok (mkTemplate [[(0, 2); (3, 5)]] false []).
Proof. split; [lia|reflexivity]. Qed.

(** C2 as stated fails: a hardened section followed by an unhardened one
    is accepted. *)
Lemma hardened_then_unhardened_accepted :
  parse isdigit_ascii default_options (text "0'/1")
    = Ok (mkTemplate [[(2147483648, 2147483648)]; [(1, 1)]] true (text "'")).
Proof. by vm_compute. Qed.

Lemma init_ranges_intersect_witness :
  __init__ ([] ++ ([] ++ [(0, 3); (3, 5)]) :: []) false [] false
    = raise_class RangesIntersect.
Proof.
  apply (init_ranges_intersect [] [] [] [] (0, 3) (3, 5) false []);
    [simpl; lia | simpl; lia | by eexists].
Defined.

(** ** The loop of [parse], one turn at a time *)

Ltac unfold_consts :=
  unfold INVALID_INDEX, HARDENED_INDEX_MASK, MAX_INDEX_VALUE,
    HARDENED_INDEX_START in *.

(** Assignments to locals followed by reads. *)
Ltac locals_simpl :=
  cbv beta iota delta
    [L.set_is_partial L.set_state L.set_ret_state L.set_section_started
     L.set_index_value L.set_range_start L.set_range_end
     L.set_accepted_hardened_markers L.set_sections L.set_position
     L.is_partial L.state L.ret_state L.section_started L.index_value
     L.range_start L.range_end L.accepted_hardened_markers L.sections
     L.position] in *.

(** Case analysis on the integer tests of a goal, [lia] closing the cases
    that cannot be. *)
Ltac ztest :=
  repeat match goal with
  | |- context [ ?a =? ?b ] => destruct (Z.eqb_spec a b); try lia
  | |- context [ ?a <? ?b ] => destruct (Z.ltb_spec a b); try lia
  | |- context [ ?a <=? ?b ] => destruct (Z.leb_spec a b); try lia
  | |- context [ ?a >? ?b ] =>
      rewrite (Z.gtb_ltb a b); destruct (Z.ltb_spec b a); try lia
  | |- context [ ?a >=? ?b ] =>
      rewrite (Z.geb_leb a b); destruct (Z.leb_spec b a); try lia
  end.

(** Inversion of a successful run in the [result] monad; [dec H b] is what
    to do with a test [b] on which the run [H] depends. *)
Ltac inv_ok_gen dec :=
  repeat match goal with
  | H : Ok _ = Ok _ |- _ => apply (inj Ok) in H || injection H as H
  | H : Raise _ = Ok _ |- _ => discriminate H
  | u : unit |- _ => destruct u
  | H : ?x = ?x |- _ => clear H
  | H : true = false |- _ => discriminate H
  | H : false = true |- _ => discriminate H
  | H : err _ _ = Ok _ |- _ => discriminate H
  | H : raise_unexpected_char_error _ _ _ = Ok _ |- _ =>
      exfalso; revert H; unfold raise_unexpected_char_error, err;
      repeat case_match; discriminate
  | H : bind _ _ = Ok _ |- _ =>
      let a := fresh "a" in
      let Ha := fresh "Ha" in
      apply bind_Ok in H as (a & Ha & H)
  | H : assert _ = Ok _ |- _ => apply assert_Ok in H
  | H : (_, _) = (_, _) |- _ => injection H; clear H; intros
  | H : (let (_, _) := ?p in _) = Ok _ |- _ => destruct p
  | H : (if true then _ else _) = Ok _ |- _ => cbv iota in H
  | H : (if false then _ else _) = Ok _ |- _ => cbv iota in H
  | H : (if ?b then _ else _) = Ok _ |- _ => dec H b
  end.

(** The tests are decided by [lia] where it can. *)
Ltac inv_ok :=
  inv_ok_gen ltac:(fun H b =>
    let E := fresh "E" in
    first
      [ assert (b = true) as E by lia; rewrite E in H; clear E
      | assert (b = false) as E by lia; rewrite E in H; clear E
      | destruct b eqn:E ]).

(** The tests are split in two. *)
Ltac inv_split :=
  inv_ok_gen ltac:(fun H b => let E := fresh "E" in destruct b eqn:E).

#[global] Instance Ok_inj {A} : Inj (=) (=) (@Ok A).
Proof. by intros ? ? [=]. Qed.

Section loop_properties.

Variable isdigit : char → bool.
Variable opts : options.

(** The loop over the characters alone, the end of the input left out. *)
Fixpoint run (l : locals) (tpl : str) : result locals :=
  match tpl with
  | [] => Ok l
  | c :: tpl' =>
      let* (_, l) := loop_body isdigit opts l (Some c) in
      run l tpl'
  end.

(** The last turn, on the end of the input. *)
Definition finish (l : locals) : result locals :=
  let* (_, l) := loop_body isdigit opts l None in
  Ok l.

(** [do_fsm] reports success on the end of the input only. *)
Lemma do_fsm_Some (l l' : locals) (c : char) (ns : next_state)
    (r : option State) :
  do_fsm isdigit opts l (Some c) = Ok (ns, r, l') → ∃ s, ns = Next s.
Proof.
  unfold do_fsm. destruct (L.state l); intros H; inv_split; subst; eauto.
Qed.

(** The loop is left on the end of the input only. *)
Lemma loop_body_Some_Continue (l l' : locals) (c : char) (ctl : control) :
  loop_body isdigit opts l (Some c) = Ok (ctl, l') → ctl = Continue.
Proof.
  unfold loop_body. intros H. inv_split; try done.
  all: match goal with
       | H : do_fsm _ _ _ _ = _ |- _ => apply do_fsm_Some in H as [s ->]
       end.
  all: by inv_split.
Qed.

Lemma loop_run (l : locals) (tpl : str) :
  loop isdigit opts l tpl = let* l := run l tpl in finish l.
Proof.
  revert l. induction tpl as [|c tpl IH]; intros l; simpl; [done|].
  destruct (loop_body isdigit opts l (Some c)) as [[ctl l']|] eqn:Hc;
    simpl; [|done].
  apply loop_body_Some_Continue in Hc as ->. apply IH.
Qed.

Lemma run_app (l : locals) (s1 s2 : str) :
  run l (s1 ++ s2) = let* l := run l s1 in run l s2.
Proof.
  revert l. induction s1 as [|c s1 IH]; intros l; simpl; [done|].
  destruct (loop_body isdigit opts l (Some c)) as [[ctl l']|]; simpl; auto.
Qed.

End loop_properties.

(** ** Lists changed at their end *)

Lemma getitem_last_Ok {A} (xs : list A) (x : A) :
  getitem_last xs = Ok x ↔ ∃ xs', xs = xs' ++ [x].
Proof.
  unfold getitem_last. split.
  - destruct (last xs) eqn:Hl; intros [=]; subst.
    by apply last_Some in Hl.
  - intros [xs' ->]. by rewrite last_snoc.
Qed.

Lemma getitem_last_snoc {A} (xs : list A) (x : A) :
  getitem_last (xs ++ [x]) = Ok x.
Proof. apply getitem_last_Ok. eauto. Qed.

Lemma setitem_last_snoc {A} (xs : list A) (x y : A) :
  setitem_last (xs ++ [x]) y = Ok (xs ++ [y]).
Proof.
  unfold setitem_last. destruct (xs ++ [x]) eqn:E.
  - by destruct xs.
  - rewrite <- E. f_equal. rewrite length_app. simpl.
    replace (length xs + 1 - 1)%nat with (length xs + 0)%nat by lia.
    by rewrite insert_app_r.
Qed.

Lemma getitem_last2_snoc {A} (xs : list A) (x y : A) :
  getitem_last2 (xs ++ [x; y]) = Ok x.
Proof.
  unfold getitem_last2, getitem. rewrite length_app. simpl.
  destruct (length xs + 2 <? 2)%nat eqn:E; [apply Nat.ltb_lt in E; lia|].
  replace (length xs + 2 - 2)%nat with (length xs + 0)%nat by lia.
  by rewrite lookup_app_r, Nat.add_0_r, Nat.sub_diag by lia.
Qed.

Lemma len_app {A} (xs ys : list A) : len (xs ++ ys) = len xs + len ys.
Proof. unfold len. rewrite length_app. lia. Qed.

Lemma len_nonneg {A} (xs : list A) : 0 ≤ len xs.
Proof. unfold len. lia. Qed.

Lemma len_cons {A} (x : A) (xs : list A) : len (x :: xs) = 1 + len xs.
Proof. unfold len. simpl. lia. Qed.

Lemma len_nil {A} : len (@nil A) = 0.
Proof. done. Qed.

(** [inv_ok], with the lists known to end in an item. *)
Ltac inv_last :=
  repeat first
    [ progress inv_ok
    | progress subst
    | progress locals_simpl
    | match goal with
      | H : getitem_last (?xs ++ [?x]) = _ |- _ =>
          rewrite (getitem_last_snoc xs x) in H
      | H : setitem_last (?xs ++ [?x]) ?y = _ |- _ =>
          rewrite (setitem_last_snoc xs x y) in H
      | H : getitem_last2 (?xs ++ [?x; ?y]) = _ |- _ =>
          rewrite (getitem_last2_snoc xs x y) in H
      end ].

(** ** Canonical sections *)

Definition shift (r : range) : range :=
  (r.1 + HARDENED_INDEX_START, r.2 + HARDENED_INDEX_START).

(** A range inside the half of the index space that starts at [lo]. *)
Definition range_in (lo : Z) (r : range) : Prop :=
  lo ≤ r.1 ∧ r.1 ≤ r.2 ∧ r.2 ≤ lo + MAX_INDEX_VALUE.

(** Consecutive ranges neither intersect nor touch. *)
Fixpoint gaps (s : section) : Prop :=
  match s with
  | [] => True
  | r1 :: s' =>
      match s' with
      | [] => True
      | r2 :: _ => r1.2 + 1 < r2.1
      end ∧ gaps s'
  end.

Definition canonical (lo : Z) (s : section) : Prop :=
  s ≠ [] ∧ Forall (range_in lo) s ∧ gaps s.

Lemma gaps_snoc (s : section) (r : range) :
  gaps (s ++ [r]) ↔ gaps s ∧ ∀ p, last s = Some p → p.2 + 1 < r.1.
Proof.
  induction s as [|r1 [|r2 s] IH]; simpl in *.
  - naive_solver.
  - naive_solver.
  - rewrite IH. naive_solver.
Qed.

Lemma canonical_singleton (lo : Z) (r : range) :
  canonical lo [r] ↔ range_in lo r.
Proof.
  unfold canonical. rewrite Forall_singleton. simpl. naive_solver.
Qed.

Lemma canonical_snoc (lo : Z) (s : section) (r : range) :
  s ≠ [] →
  canonical lo (s ++ [r]) ↔
  canonical lo s ∧ range_in lo r ∧ ∀ p, last s = Some p → p.2 + 1 < r.1.
Proof.
  intros Hs. unfold canonical.
  rewrite Forall_app, Forall_singleton, gaps_snoc.
  split; [naive_solver|]. intros ((_ & ? & ?) & ? & ?).
  split_and!; try done. by destruct s.
Qed.

(** The last range of a canonical section can be extended upwards. *)
Lemma canonical_extend_last (lo : Z) (s : section) (a b b' : Z) :
  canonical lo (s ++ [(a, b)]) → b ≤ b' → b' ≤ lo + MAX_INDEX_VALUE →
  canonical lo (s ++ [(a, b')]).
Proof.
  unfold canonical. rewrite !Forall_app, !Forall_singleton, !gaps_snoc.
  unfold range_in. simpl. intros (_ & (? & ?) & ? & ?) ? ?.
  split_and!; try done; [by destruct s|lia..].
Qed.

Lemma canonical_shift (s : section) :
  canonical 0 s → canonical HARDENED_INDEX_START (shift <$> s).
Proof.
  unfold canonical. intros (Hne & Hall & Hg). split_and!.
  - by destruct s.
  - apply Forall_fmap. eapply Forall_impl; [done|].
    unfold range_in, shift. simpl. lia.
  - clear Hne Hall. induction s as [|r1 [|r2 s] IH]; simpl in *; try done.
    split; [|naive_solver]. lia.
Qed.

Lemma is_section_hardened_loop_canonical (lo : Z) (s : section) :
  lo = 0 ∨ lo = HARDENED_INDEX_START →
  Forall (range_in lo) s →
  is_section_hardened_loop s (lo >=? HARDENED_INDEX_START) = Ok tt.
Proof.
  intros Hlo. induction 1 as [|[a b] s Hr _ IH]; simpl; [done|].
  unfold range_in in Hr. simpl in Hr. revert Hr IH. unfold_consts.
  intros Hr ->.
  destruct Hlo as [-> | ->]; simpl; ztest; simpl; ztest; done.
Qed.

Lemma is_section_hardened_canonical (lo : Z) (s : section) :
  lo = 0 ∨ lo = HARDENED_INDEX_START →
  canonical lo s →
  is_section_hardened s = Ok (lo >=? HARDENED_INDEX_START).
Proof.
  intros Hlo (Hne & Hall & _). unfold is_section_hardened.
  destruct s as [|[a b] s]; [done|]. simpl.
  assert ((a >=? HARDENED_INDEX_START) = (lo >=? HARDENED_INDEX_START))
    as Heq.
  { apply Forall_cons in Hall as [Hr _]. unfold range_in in Hr.
    simpl in Hr. revert Hr. unfold_consts.
    destruct Hlo as [-> | ->]; lia. }
  pose proof (is_section_hardened_loop_canonical lo ((a, b) :: s) Hlo Hall)
    as Hloop.
  simpl in Hloop. rewrite Heq in Hloop |- *. by rewrite Hloop.
Qed.

Lemma harden_ranges_unhardened (s : section) :
  Forall (range_in 0) s → harden_ranges s = Ok (shift <$> s).
Proof.
  induction 1 as [|[a b] s Hr _ IH]; simpl; [done|].
  unfold range_in in Hr. simpl in Hr. rewrite IH.
  destruct (a <=? MAX_INDEX_VALUE) eqn:?; [|lia].
  destruct (b <=? MAX_INDEX_VALUE) eqn:?; [|lia]. done.
Qed.

(** ** What holds of the locals between two turns of the loop *)

Section invariant.

Variable isdigit : char → bool.
Hypothesis isdigit_ok : isdigit_spec isdigit.
Variable opts : options.

(** A section of [k] ranges passed the test on [max_ranges_per_section]
    at each of its commas. *)
Definition ranges_limit (k : Z) : Prop :=
  ∀ j, 0 ≤ j < k - 1 → j ≠ max_ranges_per_section opts - 1.

(** The test on [max_sections] passed at the start of each of [n]
    sections. *)
Definition sections_limit (n : Z) : Prop :=
  ∀ j, 0 ≤ j < n → j ≠ max_sections opts.

Definition onlypath_ok (s : section) : Prop :=
  is_format_onlypath opts = true → ∃ v, s = [(v, v)].

Definition section_ok (lo : Z) (s : section) : Prop :=
  canonical lo s ∧ ranges_limit (len s) ∧ onlypath_ok s.

(** The accepted markers are those of the options until a section is
    hardened, and the one marker met from then on. *)
Definition markers_ok (accepted : gset str) (hs : list section) : Prop :=
  (accepted = set_of_pair (hardened_markers opts) ∧ hs = []) ∨
  (∃ g, accepted = {[ [g] ]} ∧ [g] ∈ set_of_pair (hardened_markers opts)
        ∧ hs ≠ []).

Definition valid_index (v : Z) : Prop := 0 ≤ v ≤ MAX_INDEX_VALUE.

Definition clean (l : locals) : Prop :=
  L.index_value l = INVALID_INDEX ∧ L.range_start l = INVALID_INDEX
  ∧ L.range_end l = INVALID_INDEX.

(** The section being read after the finished sections [done]: either no
    range of it is stored yet, or its first ranges are the last item of
    [sections]. [fits] is what is known of the range being read against
    the last stored one. *)
Definition in_section_ctx (l : locals) (done : list section)
    (fits : option range → Prop) : Prop :=
  if L.section_started l then
    L.sections l = done ∧ sections_limit (len done + 1) ∧ fits None
  else
    ∃ open, L.sections l = done ++ [open] ∧ canonical 0 open
            ∧ ranges_limit (len open + 1)
            ∧ sections_limit (len done + 1) ∧ fits (last open).

Definition plain (l : locals) (done : list section) : Prop :=
  L.section_started l = true ∧ valid_index (L.index_value l)
  ∧ L.range_start l = INVALID_INDEX ∧ L.range_end l = INVALID_INDEX
  ∧ L.sections l = done ∧ sections_limit (len done + 1).

Definition wildcard (l : locals) (done : list section) : Prop :=
  is_format_onlypath opts = false
  ∧ L.section_started l = true ∧ L.index_value l = MAX_INDEX_VALUE
  ∧ L.range_start l = 0 ∧ L.range_end l = INVALID_INDEX
  ∧ L.sections l = done ∧ sections_limit (len done + 1).

Definition in_brackets (l : locals) (done : list section) : Prop :=
  is_format_onlypath opts = false
  ∧ (L.index_value l = INVALID_INDEX ∨ valid_index (L.index_value l))
  ∧ (L.range_start l = INVALID_INDEX ∨ valid_index (L.range_start l))
  ∧ L.range_end l = INVALID_INDEX
  ∧ in_section_ctx l done (λ _, True).

Definition closed (l : locals) (done : list section) : Prop :=
  is_format_onlypath opts = false
  ∧ valid_index (L.range_start l) ∧ valid_index (L.range_end l)
  ∧ L.range_start l ≤ L.range_end l
  ∧ L.range_end l = L.index_value l
  ∧ ¬ (L.range_start l = 0 ∧ L.range_end l = MAX_INDEX_VALUE)
  ∧ in_section_ctx l done
      (λ prev, match prev with
               | None => L.range_start l < L.range_end l
               | Some p => p.2 < L.range_start l
               end).

Definition phase (l : locals) (hs us : list section) : Prop :=
  match L.state l, L.ret_state l with
  | SECTION_START, None =>
      L.sections l = hs ++ us ∧ clean l ∧ sections_limit (len (hs ++ us))
  | NEXT_SECTION, None =>
      L.sections l = hs ++ us ∧ clean l ∧ sections_limit (len (hs ++ us))
      ∧ us = [] ∧ hs ≠ []
  | VALUE, Some SECTION_END => plain l (hs ++ us)
  | VALUE, Some RANGE_WITHIN_SECTION
  | RANGE_WITHIN_SECTION, None => in_brackets l (hs ++ us)
  | SECTION_END, None =>
      plain l (hs ++ us) ∨ wildcard l (hs ++ us) ∨ closed l (hs ++ us)
  | _, _ => False
  end.

Definition Inv (l : locals) : Prop :=
  ∃ hs us,
    Forall (section_ok HARDENED_INDEX_START) hs ∧ Forall (section_ok 0) us
    ∧ markers_ok (L.accepted_hardened_markers l) hs
    ∧ phase l hs us.

(** What holds when the loop is left. *)
Definition Final (l : locals) : Prop :=
  ∃ hs us,
    L.sections l = hs ++ us ∧ hs ++ us ≠ []
    ∧ Forall (section_ok HARDENED_INDEX_START) hs
    ∧ Forall (section_ok 0) us
    ∧ markers_ok (L.accepted_hardened_markers l) hs
    ∧ sections_limit (len (hs ++ us))
    ∧ (us = [] → len hs ≤ max_sections opts)
    ∧ (∀ s, last us = Some s → 2 ≤ len s →
            len (hs ++ us) ≠ max_sections opts).

Lemma Inv_initial : Inv (initial_locals opts).
Proof.
  exists [], []. split_and!; try done; [by left|].
  simpl. split_and!; try done. intros j. unfold len. simpl. lia.
Qed.

(** *** The closures, on locals that satisfy the invariant *)

Lemma isdigit_ord (c : char) : isdigit c = true → 48 ≤ ord c.
Proof.
  intros Hc. unfold ord. destruct (decide (c < 48)%N) as [Hlt|]; [|lia].
  rewrite isdigit_ok in Hc by lia. unfold isdigit_ascii in Hc.
  apply bool_decide_eq_true in Hc. lia.
Qed.

Lemma process_digit_valid (l : locals) (c : char) (v : Z) :
  process_digit isdigit l c = Ok v →
  L.index_value l = INVALID_INDEX ∨ valid_index (L.index_value l) →
  valid_index v.
Proof.
  unfold process_digit, valid_index. intros H Hiv. inv_ok.
  apply isdigit_ord in Ha. subst v. revert Hiv E0. unfold_consts.
  change (ord (ch "0")) with 48.
  destruct (negb _) eqn:?; lia.
Qed.

(** The range that [apply_new_range] stores fits after the stored ones. *)
Definition fits_after (l : locals) (prev : option range) : Prop :=
  match prev with
  | None => True
  | Some p => p.2 < L.range_start l
  end.

Lemma apply_new_range_spec (l l' : locals) (done : list section) :
  apply_new_range l = Ok l' →
  valid_index (L.range_start l) → valid_index (L.range_end l) →
  L.range_start l ≤ L.range_end l →
  in_section_ctx l done (fits_after l) →
  ∃ s n,
    l' = L.set_range_end INVALID_INDEX
           (L.set_range_start INVALID_INDEX
              (L.set_section_started false
                 (L.set_sections (done ++ [s]) l)))
    ∧ canonical 0 s
    ∧ get_num_ranges_in_last_section l = Ok n
    ∧ ranges_limit (n + 1)
    ∧ len s ≤ n + 1
    ∧ (L.section_started l = true → s = [(L.range_start l, L.range_end l)])
    ∧ (L.section_started l = false → len (L.sections l) = len done + 1).
Proof.
  destruct l as [ip st rst ss iv rs re acc secs pos].
  unfold apply_new_range, in_section_ctx, get_num_ranges_in_last_section,
    valid_index, fits_after. simpl.
  intros H Hrs Hre Hle Hctx.
  destruct ss.
  - destruct Hctx as (-> & Hlim & _). inv_ok. subst.
    exists [(rs, re)], 0. split_and!; try done.
    + apply canonical_singleton. unfold range_in. simpl. lia.
    + intros j. lia.
  - destruct Hctx as (open & -> & Hopen & Hrl & Hlim & Hfits).
    assert (open ≠ []) as Hne by by destruct Hopen.
    destruct open as [|[ps pe] open' _] using rev_ind; [done|].
    rewrite last_snoc in Hfits. simpl in Hfits.
    assert (range_in 0 (ps, pe)) as Hp.
    { destruct Hopen as (_ & Hall & _).
      rewrite Forall_app, Forall_singleton in Hall. apply Hall. }
    unfold range_in in Hp. simpl in Hp.
    inv_last.
    + eexists _, _.
      split_and!;
        [locals_simpl; reflexivity| |by rewrite (getitem_last_snoc done)
        |done| | |];
        try done.
      * eapply canonical_extend_last; [done|lia..].
      * rewrite !len_app. unfold len. simpl. lia.
      * intros _. rewrite len_app. unfold len. simpl. lia.
    + eexists _, _.
      split_and!;
        [locals_simpl; reflexivity| |by rewrite (getitem_last_snoc done)
        |done| | |];
        try done.
      * apply canonical_snoc; [done|].
        split_and!; [done|unfold range_in; simpl; lia|].
        rewrite last_snoc. intros ? [= <-]. simpl. lia.
      * rewrite !len_app. unfold len. simpl. lia.
      * intros _. rewrite len_app. unfold len. simpl. lia.
Qed.

End invariant.

(** ** Each state of the machine keeps the invariant *)

Section invariant_steps.

Variable isdigit : char → bool.
Hypothesis isdigit_ok : isdigit_spec isdigit.
Variable opts : options.

(** What is known of a range once [finalize_range] and
    [check_range_correctness] have passed. *)
Definition fits_checked (is_last : bool) (l : locals) (prev : option range)
    : Prop :=
  match prev with
  | None => is_last = true → L.range_start l < L.range_end l
  | Some p => p.2 < L.range_start l
  end.

Lemma finalize_check_spec (l l1 : locals) (done : list section)
    (was_open is_last : bool) :
  in_brackets opts l done →
  valid_index (L.index_value l) →
  finalize_range l = Ok (was_open, l1) →
  check_range_correctness opts l1 was_open is_last = Ok tt →
  ∃ rs,
    l1 = L.set_range_end (L.index_value l) (L.set_range_start rs l)
    ∧ valid_index rs ∧ rs ≤ L.index_value l
    ∧ ¬ (rs = 0 ∧ L.index_value l = MAX_INDEX_VALUE)
    ∧ in_section_ctx opts l1 done (fits_checked is_last l1).
Proof.
  destruct l as [ip st rst ss iv rs re acc secs pos].
  unfold in_brackets, in_section_ctx, valid_index, finalize_range,
    check_range_correctness, get_num_ranges_in_last_section, fits_checked.
  simpl. intros (Hop & Hiv & Hrs & -> & Hctx) Hv Hf Hc.
  unfold_consts.
  destruct ss.
  - destruct Hctx as (-> & Hlim & _). inv_last; locals_simpl.
    all: eexists; split_and!; [reflexivity|..]; try done; try lia.
  - destruct Hctx as (open & -> & Hopen & Hrl & Hlim & _).
    assert (open ≠ []) as Hne by by destruct Hopen.
    destruct open as [|[ps pe] open' _] using rev_ind; [done|].
    inv_last.
    all: eexists; split_and!; [reflexivity|..]; try lia.
    all: eexists; split_and!; [reflexivity|done..|].
    all: rewrite last_snoc; simpl; try lia.
    all: rewrite len_app in *; unfold len in *; simpl in *; lia.
Qed.

(** *** One call of [do_fsm] *)

Definition after_fsm (c : option char) (ns : next_state)
    (r : option State) (l' : locals) : Prop :=
  match ns with
  | Next s => Inv opts (L.set_state s (L.set_ret_state r l'))
  | SUCCESS => c = None ∧ Final opts l'
  end.

Lemma do_fsm_VALUE (l l' : locals) (c : option char) (ns : next_state)
    (r : option State) :
  Inv opts l → L.state l = VALUE →
  do_fsm isdigit opts l c = Ok (ns, r, l') → after_fsm c ns r l'.
Proof.
  intros (hs & us & Hhs & Hus & Hm & Hph) Hst.
  destruct l as [ip st rst ss iv rs re acc secs pos]. simpl in Hst. subst st.
  unfold do_fsm, phase in *. simpl in *. intros H.
  destruct c as [c|]; [|done].
  apply bind_Ok in H as (v & Hv & H).
  assert (valid_index v).
  { eapply process_digit_valid; [done..|]. simpl.
    destruct rst as [[]|]; try done.
    - by destruct Hph as (_ & ? & _).
    - destruct Hph as (_ & ? & _). by right. }
  inv_last.
  exists hs, us. split_and!; try done. unfold phase. simpl.
  destruct r as [[]|]; try done.
  - unfold in_brackets, in_section_ctx in *. simpl in *.
    destruct Hph as (? & ? & ? & ? & ?). split_and!; try done. by right.
  - unfold plain in *. simpl in *. naive_solver.
Qed.

Lemma c_is_true (c : option char) (a : char) :
  c_is c a = true → c = Some a.
Proof. unfold c_is. by intros ?%bool_decide_eq_true. Qed.

Lemma sections_limit_S (n : Z) :
  sections_limit opts n → n ≠ max_sections opts →
  sections_limit opts (n + 1).
Proof.
  unfold sections_limit. intros Hn Hne j Hj.
  destruct (decide (j = n)); [lia|]. apply Hn. lia.
Qed.

Lemma do_fsm_SECTION_START (l l' : locals) (c : option char)
    (ns : next_state) (r : option State) :
  Inv opts l → L.state l = SECTION_START →
  do_fsm isdigit opts l c = Ok (ns, r, l') → after_fsm c ns r l'.
Proof.
  intros (hs & us & Hhs & Hus & Hm & Hph) Hst.
  destruct l as [ip st rst ss iv rs re acc secs pos]. simpl in Hst. subst st.
  unfold do_fsm, phase, clean in *. simpl in *.
  destruct rst; [done|]. destruct Hph as (-> & (-> & -> & ->) & Hlim).
  intros H. destruct c as [c|]; [|by inv_ok].
  inv_last.
  - apply c_is_true in E1 as [= ->].
    exists hs, us. split_and!; try done.
    unfold phase, in_brackets, in_section_ctx. simpl.
    split_and!; try done; [by destruct (is_format_onlypath opts)|by left..|].
    apply sections_limit_S; [done|].
    change (c_in (ch "[") (text "[*")) with true in E0. simpl in E0. lia.
  - apply c_is_true in E2 as [= ->].
    exists hs, us. split_and!; try done. unfold phase, wildcard. simpl.
    right; left.
    split_and!; try done; [by destruct (is_format_onlypath opts)|].
    apply sections_limit_S; [done|].
    change (c_in (ch "*") (text "[*")) with true in E0. simpl in E0. lia.
  - apply process_digit_valid in Ha; [|done|by left].
    exists hs, us. split_and!; try done. unfold phase, plain. simpl.
    split_and!; try done. apply sections_limit_S; [done|lia].
  - apply process_digit_valid in Ha; [|done|by left].
    exists hs, us. split_and!; try done. unfold phase, plain. simpl.
    split_and!; try done. apply sections_limit_S; [done|lia].
Qed.

Lemma do_fsm_NEXT_SECTION (l l' : locals) (c : option char)
    (ns : next_state) (r : option State) :
  Inv opts l → L.state l = NEXT_SECTION →
  do_fsm isdigit opts l c = Ok (ns, r, l') → after_fsm c ns r l'.
Proof.
  intros (hs & us & Hhs & Hus & Hm & Hph) Hst.
  destruct l as [ip st rst ss iv rs re acc secs pos]. simpl in Hst. subst st.
  unfold do_fsm, phase, clean in *. simpl in *.
  destruct rst; [done|].
  destruct Hph as (-> & (-> & -> & ->) & Hlim & -> & Hne).
  intros H. destruct c as [c|]; inv_last.
  - exists hs, []. split_and!; try done.
  - split; [done|]. exists hs, []. simpl.
    rewrite app_nil_r in *. split_and!; try done. lia.
Qed.

Lemma in_section_ctx_impl (l : locals) (done : list section)
    (f g : option range → Prop) :
  (∀ prev, f prev → g prev) →
  in_section_ctx opts l done f → in_section_ctx opts l done g.
Proof.
  unfold in_section_ctx. destruct (L.section_started l); naive_solver.
Qed.

Lemma in_section_ctx_limit (l : locals) (done : list section)
    (f : option range → Prop) :
  in_section_ctx opts l done f → sections_limit opts (len done + 1).
Proof.
  unfold in_section_ctx. destruct (L.section_started l); naive_solver.
Qed.

Lemma ranges_limit_S (n k : Z) :
  ranges_limit opts (n + 1) → n ≠ max_ranges_per_section opts - 1 →
  k ≤ n + 1 → ranges_limit opts (k + 1).
Proof.
  unfold ranges_limit. intros Hn Hne Hk j Hj.
  destruct (decide (j = n)); [lia|]. apply Hn. lia.
Qed.

Lemma ranges_limit_le (n k : Z) :
  ranges_limit opts n → k ≤ n → ranges_limit opts k.
Proof. unfold ranges_limit. intros Hn Hk j Hj. apply Hn. lia. Qed.

Lemma do_fsm_RANGE_WITHIN_SECTION (l l' : locals) (c : option char)
    (ns : next_state) (r : option State) :
  Inv opts l → L.state l = RANGE_WITHIN_SECTION →
  do_fsm isdigit opts l c = Ok (ns, r, l') → after_fsm c ns r l'.
Proof.
  intros (hs & us & Hhs & Hus & Hm & Hph) Hst.
  destruct l as [ip st rst ss iv rs re acc secs pos]. simpl in Hst. subst st.
  unfold do_fsm, phase in *. simpl in *.
  destruct rst; [done|].
  intros H. destruct c as [c|]; [|by inv_ok].
  assert (Hbr := Hph). destruct Hph as (Hop & Hiv & Hrs & Hre & Hctx).
  simpl in *. inv_ok.
  all: assert (valid_index iv) as Hviv
    by (revert E; unfold_consts; intros; destruct Hiv; [lia|done]).
  - subst. exists hs, us. split_and!; try done.
    unfold phase, in_brackets. locals_simpl.
    split_and!; try done; try (by left); by right.
  - destruct (finalize_check_spec _ _ _ _ _ Hbr Hviv Ha1 Ha2)
      as (rs' & -> & Hrs' & Hle & Hnw & Hctx').
    locals_simpl.
    match type of Hctx' with
    | in_section_ctx _ ?l1 _ _ =>
        assert (in_section_ctx opts l1 (hs ++ us) (fits_after l1)) as Hfit
          by (revert Hctx'; apply in_section_ctx_impl; by intros [p|])
    end.
    destruct (apply_new_range_spec opts _ _ _ Ha3 Hrs' Hviv Hle Hfit)
      as (s & n & -> & Hcan & Hn & Hrl & Hlen & _ & _).
    unfold get_num_ranges_in_last_section in Ha0, Hn. locals_simpl.
    rewrite Ha0 in Hn; inv_ok; subst;
      (exists hs, us; split_and!; try done;
       unfold phase, in_brackets, in_section_ctx; locals_simpl;
       split_and!; try done; try (by left);
       exists s; split_and!; try done;
       [eapply ranges_limit_S; [done|lia|done]
       |by eapply in_section_ctx_limit]).
  - destruct (finalize_check_spec _ _ _ _ _ Hbr Hviv Ha0 Ha1)
      as (rs' & -> & Hrs' & Hle & Hnw & Hctx').
    subst. exists hs, us. split_and!; try done.
    unfold phase, closed. locals_simpl. right; right.
    split_and!; try done.
    revert Hctx'. unfold in_section_ctx, fits_checked. locals_simpl.
    destruct ss; [naive_solver|]. intros (open & ?). exists open.
    destruct (last open); naive_solver.
Qed.

(** The range that [finalize_range] leaves when a section ends. *)
Lemma finalize_end_spec (l l1 : locals) (done : list section)
    (was_open : bool) :
  plain opts l done ∨ wildcard opts l done ∨ closed opts l done →
  finalize_range l = Ok (was_open, l1) →
  ∃ rs re,
    l1 = L.set_range_end re (L.set_range_start rs l)
    ∧ valid_index rs ∧ valid_index re ∧ rs ≤ re
    ∧ in_section_ctx opts l1 done (fits_after l1)
    ∧ (is_format_onlypath opts = true →
       L.section_started l = true ∧ rs = re).
Proof.
  destruct l as [ip st rst ss iv rs re acc secs pos].
  unfold plain, wildcard, closed, finalize_range, in_section_ctx,
    valid_index, fits_after.
  locals_simpl. unfold_consts.
  intros [Hp | [Hw | Hc]] H.
  - destruct Hp as (-> & Hiv & -> & -> & -> & Hlim). inv_ok. subst.
    exists iv, iv. locals_simpl. split_and!; try done; try lia.
  - destruct Hw as (Hop & -> & -> & -> & -> & -> & Hlim). inv_ok. subst.
    eexists 0, _. locals_simpl. split_and!; try done; try lia;
      try congruence.
  - destruct Hc as (Hop & Hrs & Hre & Hle & <- & Hnw & Hctx).
    inv_ok; subst; try lia.
    exists rs, re. locals_simpl.
    split_and!; try done; try congruence; try lia.
    destruct ss; [naive_solver|]. destruct Hctx as (open & ?).
    exists open. destruct (last open); naive_solver.
Qed.

Lemma do_fsm_SECTION_END (l l' : locals) (c : option char)
    (ns : next_state) (r : option State) :
  Inv opts l → L.state l = SECTION_END →
  do_fsm isdigit opts l c = Ok (ns, r, l') → after_fsm c ns r l'.
Proof.
  intros (hs & us & Hhs & Hus & Hm & Hph) Hst.
  destruct l as [ip st rst ss iv rs re acc secs pos]. simpl in Hst. subst st.
  unfold do_fsm, phase in *. simpl in *.
  destruct rst; [done|].
  intros H. apply bind_Ok in H as ([] & _ & H).
  destruct (bool_decide (c = None) && _) eqn:Hmax; [done|].
  destruct (c_is c (ch "/") || bool_decide (c = None)) eqn:Hend.
  - apply bind_Ok in H as ([wo l1] & Hfin & H).
    apply bind_Ok in H as (l2 & Happ & H).
    destruct (finalize_end_spec _ _ _ _ Hph Hfin)
      as (rs1 & re1 & -> & Hrs1 & Hre1 & Hle & Hctx & Hop).
    destruct (apply_new_range_spec opts _ _ _ Happ Hrs1 Hre1 Hle Hctx)
      as (s & n & -> & Hcan & Hn & Hrl & Hlen & Hs & Hsecs).
    locals_simpl.
    assert (section_ok opts 0 s) as Hsok.
    { split_and!; [done|by eapply ranges_limit_le|].
      intros Ho. destruct (Hop Ho) as [-> ->]. rewrite Hs by done. eauto. }
    assert (sections_limit opts (len (hs ++ us ++ [s]))) as Hlim.
    { rewrite app_assoc, len_app. by eapply in_section_ctx_limit. }
    inv_ok. subst.
    case_bool_decide; subst.
    + split; [done|]. exists hs, (us ++ [s]). locals_simpl.
      split_and!; try done.
      * by rewrite app_assoc.
      * by destruct hs, us.
      * apply Forall_app. by rewrite Forall_singleton.
      * by destruct us.
      * rewrite last_snoc. intros ? [= <-] Hlen2.
        destruct ss.
        { rewrite Hs in Hlen2 by done. unfold len in Hlen2. simpl in *. lia. }
        rewrite app_assoc, len_app. specialize (Hsecs eq_refl).
        unfold len at 2. simpl in *. lia.
    + exists hs, (us ++ [s]). split_and!; try done.
      * apply Forall_app. by rewrite Forall_singleton.
      * unfold phase, clean. locals_simpl. split_and!; try done.
        by rewrite app_assoc.
  - destruct c as [c|]; [|done].
    destruct (bool_decide ([c] ∈ acc)) eqn:Hacc; [|inv_ok].
    apply bool_decide_eq_true in Hacc.
    remember ({[ [c] ]} : gset str) as acc' eqn:Hacc'. locals_simpl.
    apply bind_Ok in H as ([wo l1] & Hfin & H).
    apply bind_Ok in H as (l2 & Happ & H).
    match type of Hfin with
    | finalize_range ?l0 = _ =>
        assert (plain opts l0 (hs ++ us) ∨ wildcard opts l0 (hs ++ us)
                ∨ closed opts l0 (hs ++ us)) as Hph' by exact Hph
    end.
    destruct (finalize_end_spec _ _ (hs ++ us) _ Hph' Hfin)
      as (rs1 & re1 & -> & Hrs1 & Hre1 & Hle & Hctx & Hop).
    destruct (apply_new_range_spec opts _ _ _ Happ Hrs1 Hre1 Hle Hctx)
      as (s & n & -> & Hcan & Hn & Hrl & Hlen & Hs & Hsecs).
    locals_simpl.
    assert (sections_limit opts (len ((hs ++ us) ++ [s]))) as Hlim.
    { rewrite len_app. by eapply in_section_ctx_limit. }
    apply bind_Ok in H as (unh & Hunh & H).
    assert (us = []) as ->.
    { destruct us as [|u us _] using rev_ind; [done|]. exfalso.
      rewrite Forall_app, Forall_singleton in Hus. destruct Hus as [_ (Hu & _)].
      rewrite app_assoc, <- (app_assoc _ [u]) in Hunh. cbn [app] in Hunh.
      rewrite getitem_last2_snoc in Hunh. cbn [bind] in Hunh.
      rewrite (is_section_hardened_canonical 0) in Hunh by auto.
      cbn [bind] in Hunh.
      assert (len ((hs ++ us) ++ [u; s]) >? 1 = true) as Hgt.
      { rewrite len_app. pose proof (len_nonneg (hs ++ us)).
        unfold len at 2. simpl. lia. }
      rewrite Hgt in Hunh. unfold_consts. inv_ok. }
    rewrite app_nil_r in *.
    destruct unh; [inv_ok|]. clear Hunh.
    apply bind_Ok in H as (l3 & Hhard & H).
    unfold harden_last_section in Hhard. locals_simpl.
    rewrite getitem_last_snoc in Hhard. cbn [bind] in Hhard.
    rewrite harden_ranges_unhardened in Hhard by apply Hcan.
    cbn [bind] in Hhard. rewrite setitem_last_snoc in Hhard.
    inv_ok. subst. locals_simpl.
    exists (hs ++ [shift <$> s]), []. split_and!; try done.
    + apply Forall_app. rewrite Forall_singleton. split; [done|].
      split_and!.
      * by apply canonical_shift.
      * eapply ranges_limit_le; [done|]. unfold len.
        rewrite length_fmap. done.
      * intros Ho. destruct (Hop Ho) as [-> ->]. rewrite Hs by done.
        simpl. eauto.
    + right. exists c. split_and!; try done; [|by destruct hs].
      destruct Hm as [[-> _] | (g & -> & ? & _)]; [done|].
      by apply elem_of_singleton in Hacc as ->.
    + unfold phase, clean. locals_simpl. split_and!; try done.
      * by rewrite app_nil_r.
      * rewrite app_nil_r, len_app. unfold len at 2. simpl.
        by rewrite len_app in Hlim.
      * by destruct hs.
Qed.

End invariant_steps.

(** ** The loop keeps the invariant *)

Section invariant_loop.

Variable isdigit : char → bool.
Hypothesis isdigit_ok : isdigit_spec isdigit.
Variable opts : options.

Lemma do_fsm_Inv (l l' : locals) (c : option char) (ns : next_state)
    (r : option State) :
  Inv opts l →
  do_fsm isdigit opts l c = Ok (ns, r, l') → after_fsm opts c ns r l'.
Proof.
  intros HI. destruct (L.state l) eqn:Hst.
  - by apply do_fsm_SECTION_START.
  - by apply do_fsm_NEXT_SECTION.
  - by apply do_fsm_RANGE_WITHIN_SECTION.
  - by apply do_fsm_SECTION_END.
  - by apply do_fsm_VALUE.
Qed.

(** The invariant reads neither [position] nor [is_partial]. *)
Lemma Inv_set_position (l : locals) (p : Z) :
  Inv opts l → Inv opts (L.set_position p l).
Proof. by destruct l. Qed.

Lemma Inv_set_is_partial (l : locals) (b : bool) :
  Inv opts l → Inv opts (L.set_is_partial b l).
Proof. by destruct l. Qed.

Lemma Final_set_ret_state (l : locals) (r : option State) :
  Final opts l → Final opts (L.set_ret_state r l).
Proof. by destruct l. Qed.

(** Leaving the state [VALUE] for the state to return to. *)
Lemma Inv_leave_VALUE (l : locals) (s : State) :
  Inv opts l → L.state l = VALUE → L.ret_state l = Some s →
  Inv opts (L.set_ret_state None (L.set_state s l)).
Proof.
  destruct l as [ip st rst ss iv rs re acc secs pos]. simpl.
  intros (hs & us & Hhs & Hus & Hm & Hph) -> ->.
  exists hs, us. split_and!; try done.
  unfold phase in *. simpl in *. destruct s; try done. by left.
Qed.

Lemma loop_body_Inv (l l' : locals) (c : option char) (ctl : control) :
  Inv opts l →
  loop_body isdigit opts l c = Ok (ctl, l') →
  match ctl with
  | Continue => Inv opts l'
  | Break => c = None ∧ Final opts l'
  end.
Proof.
  intros HI H. unfold loop_body in H.
  apply (Inv_set_position _ (L.position l + 1)) in HI.
  revert HI H. generalize (L.set_position (L.position l + 1) l).
  clear l. intros l HI H.
  destruct (c_is c (ch "m") && _).
  { inv_ok. subst. by apply Inv_set_is_partial. }
  destruct (negb (L.is_partial l) && _).
  { destruct (c_is c (ch "/")); inv_split. by subst. }
  apply bind_Ok in H as (l1 & Hl1 & H).
  assert (Inv opts l1) as HI1.
  { clear H.
    destruct (bool_decide (L.state l = VALUE) && _) eqn:Hv; inv_split;
      [|by subst].
    destruct (L.ret_state l) eqn:Hr; inv_split. subst.
    apply andb_prop in Hv as [Hv%bool_decide_eq_true _].
    by apply Inv_leave_VALUE. }
  apply bind_Ok in H as ([[ns r] l2] & Hfsm & H).
  apply (do_fsm_Inv _ _ _ _ _ HI1) in Hfsm.
  apply bind_Ok in H as ([] & _ & H).
  destruct c, ns; inv_split; subst; simpl in Hfsm; try done.
Qed.

Lemma run_Inv (l l' : locals) (tpl : str) :
  Inv opts l → run isdigit opts l tpl = Ok l' → Inv opts l'.
Proof.
  revert l. induction tpl as [|c tpl IH]; intros l HI H; simpl in H.
  { inv_split. by subst. }
  apply bind_Ok in H as ([ctl l1] & Hc & H).
  pose proof (loop_body_Some_Continue _ _ _ _ _ _ Hc). subst.
  apply (loop_body_Inv _ _ _ _ HI) in Hc. by apply (IH l1).
Qed.

Lemma loop_body_None_Break (l l' : locals) (ctl : control) :
  loop_body isdigit opts l None = Ok (ctl, l') → ctl = Break.
Proof.
  unfold loop_body. intros H. inv_split; try done.
  all: match goal with
       | H : match ?n with Next _ => _ | SUCCESS => _ end = _ |- _ =>
           destruct n; by inv_split
       end.
Qed.

Lemma finish_Final (l l' : locals) :
  Inv opts l → finish isdigit opts l = Ok l' → Final opts l'.
Proof.
  unfold finish. intros HI H.
  apply bind_Ok in H as ([ctl l1] & Hc & H). inv_split. subst.
  pose proof (loop_body_None_Break _ _ _ Hc). subst.
  by apply (loop_body_Inv _ _ _ _ HI) in Hc as [_ ?].
Qed.

(** The locals when the loop of [parse] is left. *)
Lemma loop_Final (l' : locals) (tpl : str) :
  loop isdigit opts (initial_locals opts) tpl = Ok l' → Final opts l'.
Proof.
  rewrite loop_run. intros H. apply bind_Ok in H as (l & Hrun & Hfin).
  eapply finish_Final; [|done].
  eapply run_Inv; [|done]. apply Inv_initial.
Qed.

End invariant_loop.

(** ** The templates that [parse] returns *)

(** [list(accepted_hardened_markers)[0]] when the set has one element, the
    empty string otherwise. *)
Definition marker_of (accepted : gset str) : str :=
  if bool_decide (size accepted = 1%nat)
  then default [] (head (elements accepted))
  else [].

Lemma marker_of_singleton (m : str) : marker_of {[ m ]} = m.
Proof.
  unfold marker_of. rewrite size_singleton, bool_decide_eq_true_2 by done.
  by rewrite elements_singleton.
Qed.

Lemma in_HARDENED_MARKERS_spec (m : str) :
  in_HARDENED_MARKERS m = true ↔ m = text "h" ∨ m = text "'".
Proof.
  unfold in_HARDENED_MARKERS, HARDENED_MARKERS. simpl.
  rewrite orb_true_iff, !bool_decide_eq_true. done.
Qed.

(** A section all of whose ranges are hardened, resp. unhardened. *)
Definition hardened_section (s : section) : Prop :=
  canonical HARDENED_INDEX_START s.

Definition unhardened_section (s : section) : Prop :=
  canonical 0 s.

(** Sections as the parser stores them: at least one, the hardened ones
    first, each one a non-empty list of ranges that lie in one half of the
    index space, in increasing order and more than one index apart. *)
Definition well_formed (ss : list section) : Prop :=
  ss ≠ [] ∧
  ∃ hs us, ss = hs ++ us
           ∧ Forall hardened_section hs ∧ Forall unhardened_section us.

Section parsed_templates.

Variable isdigit : char → bool.
Hypothesis isdigit_ok : isdigit_spec isdigit.
Variable opts : options.

(** What [parse] returns, in terms of the locals when its loop is left. *)
Lemma parse_Ok (tpl : str) (t : BIP32Template) :
  parse isdigit opts tpl = Ok t →
  ∃ l, loop isdigit opts (initial_locals opts) tpl = Ok l
       ∧ Final opts l
       ∧ t = mkTemplate (L.sections l) (L.is_partial l)
               (marker_of (L.accepted_hardened_markers l))
       ∧ (hardened_marker t = []
          ∨ hardened_marker t = text "h" ∨ hardened_marker t = text "'").
Proof.
  unfold parse. intros H. apply bind_Ok in H as (l & Hl & H).
  exists l. split; [done|]. split; [by eapply loop_Final|].
  unfold __init__ in H. fold (marker_of (L.accepted_hardened_markers l)) in H.
  destruct (bool_decide (L.sections l = [])); [done|]. simpl in H.
  destruct (negb (bool_decide (marker_of _ = [])) && _) eqn:Hm; [done|].
  inv_split. subst. split; [done|]. simpl.
  apply andb_false_iff in Hm as [Hm|Hm].
  - left. by apply negb_false_iff, bool_decide_eq_true in Hm.
  - right. by apply negb_false_iff, in_HARDENED_MARKERS_spec in Hm.
Qed.

Lemma Final_well_formed (l : locals) :
  Final opts l → well_formed (L.sections l).
Proof.
  intros (hs & us & -> & Hne & Hhs & Hus & _). split; [done|].
  exists hs, us. split_and!; [done|..].
  - eapply Forall_impl; [done|]. by intros s [? _].
  - eapply Forall_impl; [done|]. by intros s [? _].
Qed.

Lemma parse_Final (tpl : str) (t : BIP32Template) :
  parse isdigit opts tpl = Ok t →
  ∃ hs us,
    sections t = hs ++ us ∧ hs ++ us ≠ []
    ∧ Forall (section_ok opts HARDENED_INDEX_START) hs
    ∧ Forall (section_ok opts 0) us
    ∧ sections_limit opts (len (hs ++ us)).
Proof.
  intros (l & _ & (hs & us & Hl & Hne & Hhs & Hus & _ & Hlim & _) & -> & _)
    %parse_Ok.
  exists hs, us. by split_and!.
Qed.

End parsed_templates.

(** X1. Every template that [parse] returns, whatever the options, has at
    least one section; its hardened sections come first; each section is a
    non-empty list of ranges [(start, end)] with [start <= end], all in the
    same half of the index space, and each range starts more than one
    index after the end of the one before. *)
Theorem parse_well_formed (isdigit : char → bool) (opts : options)
    (tpl : str) (t : BIP32Template) :
  isdigit_spec isdigit →
  parse isdigit opts tpl = Ok t →
  well_formed (sections t).
Proof.
  intros Hd (l & _ & HF & -> & _)%parse_Ok; [|done].
  by eapply Final_well_formed.
Qed.

(** X2. The limits of the options hold of the result: a non-negative
    [max_sections] bounds the number of sections of a parsed template, and
    a positive [max_ranges_per_section] bounds the number of ranges of
    each of its sections. *)
Theorem parse_within_limits (isdigit : char → bool) (opts : options)
    (tpl : str) (t : BIP32Template) :
  isdigit_spec isdigit →
  parse isdigit opts tpl = Ok t →
  (0 ≤ max_sections opts → len (sections t) ≤ max_sections opts) ∧
  (1 ≤ max_ranges_per_section opts →
   ∀ s, s ∈ sections t → len s ≤ max_ranges_per_section opts).
Proof.
  intros Hd (hs & us & -> & _ & Hhs & Hus & Hlim)%parse_Final; [|done].
  split.
  - intros Hmax.
    destruct (decide (len (hs ++ us) ≤ max_sections opts)); [done|].
    by destruct (Hlim (max_sections opts)); [lia|].
  - intros Hmax s Hs.
    assert (ranges_limit opts (len s)) as Hrl.
    { apply elem_of_app in Hs as [Hs|Hs].
      - by eapply Forall_forall in Hhs as (_ & ? & _).
      - by eapply Forall_forall in Hus as (_ & ? & _). }
    destruct (decide (len s ≤ max_ranges_per_section opts)); [done|].
    by destruct (Hrl (max_ranges_per_section opts - 1)); [lia|].
Qed.

(** X3. [to_path] does not raise on a parsed template; and when the
    template was parsed with [is_format_onlypath], it returns a path. *)
Theorem parse_to_path (isdigit : char → bool) (opts : options)
    (tpl : str) (t : BIP32Template) :
  isdigit_spec isdigit →
  parse isdigit opts tpl = Ok t →
  ∃ r, to_path t = Ok r ∧
       (is_Some r ↔ Forall single_index (sections t)) ∧
       (is_format_onlypath opts = true → is_Some r).
Proof.
  intros Hd (hs & us & Hsec & _ & Hhs & Hus & _)%parse_Final; [|done].
  destruct (to_path_nonempty_sections t) as (r & Hr & Hiff & _).
  { rewrite Hsec. apply Forall_app.
    split; (eapply Forall_impl; [done|]); by intros s ((? & _) & _). }
  exists r. split_and!; try done.
  intros Ho. apply Hiff. rewrite Hsec. apply Forall_app.
  split; (eapply Forall_impl; [done|]); intros s (_ & _ & Hs); by apply Hs.
Qed.

(** The template of the project's documentation, used to instantiate the
    theorems about parsed templates. *)
Definition example_text : str := text "m/44'/0'/[0-5]'/0/*".

Definition example_template : BIP32Template :=
  mkTemplate
    [[(2147483692, 2147483692)]; [(2147483648, 2147483648)];
     [(2147483648, 2147483653)]; [(0, 0)]; [(0, 2147483647)]]
    false (text "'").

Lemma parse_example :
  parse isdigit_ascii default_options example_text = Ok example_template.
Proof. by vm_compute. Qed.

Lemma parse_well_formed_witness :
  isdigit_spec isdigit_ascii
  ∧ parse isdigit_ascii default_options example_text = Ok example_template
  ∧ well_formed (sections example_template).
Proof.
  split_and!; [exact isdigit_ascii_spec|exact parse_example|].
  exact (parse_well_formed isdigit_ascii default_options example_text
           example_template isdigit_ascii_spec parse_example).
Defined.

Lemma parse_within_limits_witness :
  isdigit_spec isdigit_ascii
  ∧ parse isdigit_ascii default_options example_text = Ok example_template
  ∧ len (sections example_template) ≤ 16.
Proof.
  split_and!; [exact isdigit_ascii_spec|exact parse_example|].
  apply (parse_within_limits isdigit_ascii default_options example_text
           example_template isdigit_ascii_spec parse_example).
  simpl. lia.
Defined.

Lemma parse_to_path_witness :
  isdigit_spec isdigit_ascii
  ∧ parse isdigit_ascii default_options example_text = Ok example_template
  ∧ ∃ r, to_path example_template = Ok r.
Proof.
  split_and!; [exact isdigit_ascii_spec|exact parse_example|].
  destruct (parse_to_path isdigit_ascii default_options example_text
              example_template isdigit_ascii_spec parse_example)
    as (r & Hr & _).
  by exists r.
Defined.

(** ** [__init__] on well-formed sections *)

Section init_well_formed.

Implicit Types (s : section) (ss : list section) (f : init_flags).

(** The flags once the ranges of a section of the half [lo] are seen. *)
Definition flags_after (lo : Z) (s : section) (f : init_flags) : init_flags :=
  match s with
  | [] => f
  | _ :: _ =>
      if bool_decide (lo = 0) then mkFlags (got_hardened f) true
      else mkFlags true (got_unhardened f)
  end.

Lemma init_ranges_canonical (lo : Z) s (prev : option range) f
    (acc : list range) :
  lo = 0 ∨ lo = HARDENED_INDEX_START →
  Forall (range_in lo) s → gaps s →
  (∀ p r, prev = Some p → head s = Some r → p.2 < r.1) →
  (lo = HARDENED_INDEX_START → got_unhardened f = false) →
  init_ranges s prev f acc = Ok (acc ++ s, flags_after lo s f).
Proof.
  intros Hlo Hall. revert prev f acc.
  induction Hall as [|[a b] s Hr _ IH]; intros prev f acc Hg Hprev Hgu.
  { simpl. by rewrite app_nil_r. }
  simpl init_ranges. unfold range_in in Hr. simpl in Hr.
  destruct (a >? b) eqn:?; [lia|].
  assert (match prev with Some p => p.2 >=? a | None => false end = false)
    as ->.
  { destruct prev as [p|]; [|done]. specialize (Hprev p (a, b) eq_refl eq_refl).
    simpl in Hprev. lia. }
  assert (gaps s ∧ ∀ r, head s = Some r → b < r.1) as [Hg' Hhd].
  { destruct s as [|r s]; simpl in Hg |- *; [done|]. destruct Hg.
    split; [done|]. intros ? [= <-]. lia. }
  destruct Hlo as [-> | ->].
  - revert Hr. unfold_consts. intros Hr.
    destruct (a >=? 2147483648) eqn:?; [lia|].
    destruct (b >=? 2147483648) eqn:?; [lia|]. simpl.
    rewrite (IH (Some (a, b))); [|done| |intros; lia].
    + rewrite <- app_assoc. simpl. f_equal. f_equal. by destruct s.
    + intros ? ? [= <-] ?. simpl. by apply Hhd.
  - revert Hr. unfold_consts. intros Hr.
    destruct (a >=? 2147483648) eqn:?; [|lia].
    rewrite Hgu by done.
    destruct (b <? 2147483648) eqn:?; [lia|]. simpl.
    rewrite (IH (Some (a, b))); [|done| |done].
    + rewrite <- app_assoc. simpl. rewrite Hgu by done.
      f_equal. f_equal. by destruct s.
    + intros ? ? [= <-] ?. simpl. by apply Hhd.
Qed.

Lemma init_sections_canonical (lo : Z) ss f (acc : list section) :
  lo = 0 ∨ lo = HARDENED_INDEX_START →
  Forall (canonical lo) ss →
  (lo = HARDENED_INDEX_START → got_unhardened f = false) →
  init_sections ss f acc =
    Ok (acc ++ ss, match ss with
                   | [] => f
                   | s :: _ => flags_after lo s f
                   end).
Proof.
  intros Hlo Hall. revert f acc.
  induction Hall as [|s ss (Hne & Hs & Hg) _ IH]; intros f acc Hgu.
  { simpl. by rewrite app_nil_r. }
  simpl. rewrite (init_ranges_canonical lo) by done. simpl.
  rewrite IH.
  - rewrite <- app_assoc. simpl. f_equal. f_equal.
    destruct s as [|r s]; [done|]. destruct ss as [|[|r' s'] ss]; try done.
    unfold flags_after. by case_bool_decide.
  - intros ->. destruct s; [done|]. unfold flags_after.
    rewrite bool_decide_eq_false_2 by done. simpl. by apply Hgu.
Qed.

(** The first range of the first section is hardened. *)
Definition starts_hardened (ss : list section) : bool :=
  match ss with
  | [] => false
  | s :: _ => first_index s >=? HARDENED_INDEX_START
  end.

(** X4. The constructor accepts sections that are well formed in the
    parser's sense and keeps them as they are; the marker it is given stays
    when the first section is hardened and is dropped otherwise. *)
Theorem init_well_formed_sections ss (p : bool) (hm : str) :
  well_formed ss →
  hm = [] ∨ hm = text "h" ∨ hm = text "'" →
  __init__ ss p hm false =
    Ok (mkTemplate ss p (if starts_hardened ss then hm else [])).
Proof.
  intros (Hne & hs & us & -> & Hhs & Hus) Hhm. unfold __init__.
  rewrite bool_decide_eq_false_2 by done.
  rewrite init_sections_app.
  unfold hardened_section, unhardened_section in *.
  rewrite (init_sections_canonical HARDENED_INDEX_START hs) by auto.
  simpl. rewrite (init_sections_canonical 0 us); [|auto|done|done].
  assert (∀ h, canonical HARDENED_INDEX_START h →
    (∀ f, flags_after HARDENED_INDEX_START h f
          = mkFlags true (got_unhardened f))
    ∧ (first_index h >=? HARDENED_INDEX_START) = true) as Hh.
  { intros [|[a b] h] (? & Hr & _); [done|].
    apply Forall_cons in Hr as [Hr _].
    unfold range_in in Hr. simpl in Hr. split; [done|].
    unfold first_index. simpl. lia. }
  assert (∀ u, canonical 0 u →
    (∀ f, flags_after 0 u f = mkFlags (got_hardened f) true)
    ∧ (first_index u >=? HARDENED_INDEX_START) = false) as Hu.
  { intros [|[a b] u] (? & Hr & _); [done|].
    apply Forall_cons in Hr as [Hr _].
    unfold range_in in Hr. simpl in Hr. split; [done|].
    unfold first_index. simpl. revert Hr. unfold_consts. lia. }
  destruct hs as [|h hs], us as [|u us]; try done.
  - apply Forall_cons in Hus as [[Hf Hi]%Hu _].
    simpl. rewrite Hf, Hi. simpl. done.
  - apply Forall_cons in Hhs as [[Hf Hi]%Hh _].
    simpl. rewrite Hf, Hi. simpl.
    by destruct Hhm as [-> | [-> | ->]].
  - apply Forall_cons in Hhs as [[Hf Hi]%Hh _].
    apply Forall_cons in Hus as [[Hf' _]%Hu _].
    simpl. rewrite Hf', Hf, Hi. simpl.
    by destruct Hhm as [-> | [-> | ->]].
Qed.

End init_well_formed.

Lemma init_well_formed_sections_witness :
  well_formed [[(2147483648, 2147483650)]; [(0, 0); (5, 7)]]
  ∧ __init__ [[(2147483648, 2147483650)]; [(0, 0); (5, 7)]] true
      (text "h") false
    = Ok (mkTemplate [[(2147483648, 2147483650)]; [(0, 0); (5, 7)]] true
            (text "h")).
Proof.
  assert (well_formed [[(2147483648, 2147483650)]; [(0, 0); (5, 7)]]) as Hwf.
  { split; [done|].
    exists [[(2147483648, 2147483650)]], [[(0, 0); (5, 7)]].
    split_and!; [done|..]; repeat constructor;
      unfold range_in; unfold_consts; simpl; try lia; done. }
  split; [exact Hwf|].
  apply (init_well_formed_sections _ true (text "h") Hwf). auto.
Defined.

(** X5. What the project's test checks after each successful parse:
    building a template from the sections and the [is_partial] flag of a
    parsed template succeeds, and the result compares equal to the parsed
    template. *)
Theorem parse_then_init (isdigit : char → bool) (opts : options)
    (tpl : str) (t : BIP32Template) :
  isdigit_spec isdigit →
  parse isdigit opts tpl = Ok t →
  ∃ t', __init__ (sections t) (is_partial t) [] false = Ok t'
        ∧ __eq__ t' (PyBIP32Template t) = Ok true.
Proof.
  intros Hd Hp. pose proof (parse_well_formed _ _ _ _ Hd Hp) as Hwf.
  eexists. split; [by apply init_well_formed_sections; auto|].
  unfold __eq__. simpl. rewrite eqb_reflx. simpl.
  by rewrite bool_decide_eq_true_2.
Qed.

Lemma parse_then_init_witness :
  isdigit_spec isdigit_ascii
  ∧ parse isdigit_ascii default_options example_text = Ok example_template
  ∧ ∃ t', __init__ (sections example_template)
            (is_partial example_template) [] false = Ok t'
          ∧ __eq__ t' (PyBIP32Template example_template) = Ok true.
Proof.
  split_and!; [exact isdigit_ascii_spec|exact parse_example|].
  exact (parse_then_init isdigit_ascii default_options example_text
           example_template isdigit_ascii_spec parse_example).
Defined.

(** ** [to_path] and [match] *)

Lemma to_path_loop_match (ss : list section) (acc path : list Z) :
  to_path_loop ss acc = Ok (Some path) →
  ∃ rest, path = acc ++ rest
          ∧ match_sections ss (length acc) path = Ok true.
Proof.
  revert acc. induction ss as [|s ss IH]; intros acc H; simpl in H.
  { injection H as <-. exists []. by rewrite app_nil_r. }
  destruct (1 <? length s)%nat eqn:Hlen; [done|].
  apply bind_Ok in H as ([a b] & Hs & H). simpl in H.
  destruct (a =? b) eqn:Hab; [|done]. simpl in H.
  apply Z.eqb_eq in Hab as ->.
  destruct (IH _ H) as (rest & -> & Hm).
  exists (b :: rest). split; [by rewrite <- app_assoc|].
  destruct s as [|r [|r' s]]; [done| |done].
  apply getitem_Ok in Hs. simpl in Hs. simplify_eq. simpl.
  unfold getitem. rewrite <- app_assoc. simpl.
  rewrite lookup_app_r, Nat.sub_diag by done. simpl.
  destruct ((b <? b) || (b >? b)) eqn:?; [lia|].
  rewrite length_app in Hm. simpl in Hm.
  by rewrite Nat.add_1_r, <- app_assoc in Hm.
Qed.

Lemma to_path_loop_length (ss : list section) (acc path : list Z) :
  to_path_loop ss acc = Ok (Some path) →
  length path = (length acc + length ss)%nat.
Proof.
  revert acc. induction ss as [|s ss IH]; intros acc H; simpl in H.
  { injection H as <-. simpl. lia. }
  destruct (1 <? length s)%nat; [done|].
  apply bind_Ok in H as ([a b] & _ & H). simpl in H.
  destruct (a =? b); [|done]. simpl in H.
  apply IH in H. rewrite length_app in H. simpl in *. lia.
Qed.

(** X6. The path that [to_path] returns is matched by the template: if
    [to_path] returns a path, [match] returns [True] on it. *)
Theorem to_path_match (t : BIP32Template) (path : list Z) :
  to_path t = Ok (Some path) → match_ t path = Ok true.
Proof.
  unfold to_path, match_. intros H.
  pose proof (to_path_loop_length _ _ _ H) as Hlen.
  destruct (to_path_loop_match _ _ _ H) as (rest & -> & Hm).
  simpl in *. by rewrite bool_decide_eq_true_2.
Qed.

Lemma to_path_match_witness :
  to_path (mkTemplate [[(44, 44)]; [(0, 0)]] true []) = Ok (Some [44; 0])
  ∧ match_ (mkTemplate [[(44, 44)]; [(0, 0)]] true []) [44; 0] = Ok true.
Proof.
  split; [reflexivity|]. by apply to_path_match.
Defined.

(** ** [__str__] on well-formed templates *)

Lemma land_mask (v : Z) :
  0 ≤ v → Z.land v HARDENED_INDEX_MASK = v mod HARDENED_INDEX_START.
Proof.
  intros Hv. change HARDENED_INDEX_MASK with (Z.ones 31).
  by rewrite Z.land_ones.
Qed.

Lemma land_start (v : Z) :
  0 ≤ v →
  Z.land v HARDENED_INDEX_START
  = if Z.testbit v 31 then HARDENED_INDEX_START else 0.
Proof.
  intros Hv. change HARDENED_INDEX_START with (2 ^ 31).
  apply Z.bits_inj'. intros n Hn.
  rewrite Z.land_spec, Z.pow2_bits_eqb by lia.
  destruct (31 =? n) eqn:E.
  - apply Z.eqb_eq in E as <-. rewrite andb_true_r.
    destruct (Z.testbit v 31); [|by rewrite Z.bits_0].
    by rewrite Z.pow2_bits_true.
  - rewrite andb_false_r. destruct (Z.testbit v 31); [|by rewrite Z.bits_0].
    rewrite Z.pow2_bits_false; [done|]. apply Z.eqb_neq in E. lia.
Qed.

Lemma is_hardened_bit_unhardened (v : Z) :
  0 ≤ v ≤ MAX_INDEX_VALUE → is_hardened_bit v = false.
Proof.
  intros Hv. unfold is_hardened_bit. rewrite land_start by lia.
  assert (Z.testbit v 31 = false) as ->; [|done].
  apply Z.testbit_false; [lia|].
  rewrite Z.div_small; [done|]. revert Hv. unfold_consts. lia.
Qed.

Lemma is_hardened_bit_hardened (v : Z) :
  HARDENED_INDEX_START ≤ v ≤ HARDENED_INDEX_START + MAX_INDEX_VALUE →
  is_hardened_bit v = true.
Proof.
  intros Hv. unfold is_hardened_bit. rewrite land_start.
  2:{ revert Hv. unfold_consts. lia. }
  assert (Z.testbit v 31 = true) as ->; [|done].
  apply Z.testbit_true; [lia|].
  assert (v / 2 ^ 31 = 1) as ->; [|done].
  symmetry. apply (Z.div_unique v (2 ^ 31) 1 (v - 2 ^ 31)).
  - left. revert Hv. unfold_consts. lia.
  - lia.
Qed.

(** The index pair of a range within its half of the index space, and how
    [__str__] writes it. *)
Definition unharden (lo : Z) (r : range) : range := (r.1 - lo, r.2 - lo).

Definition is_open_range (r : range) : bool :=
  negb (r.1 =? r.2) && negb ((r.1 =? 0) && (r.2 =? MAX_INDEX_VALUE)).

Definition render_range (r : range) : str :=
  if r.1 =? r.2 then str_int r.1
  else if (r.1 =? 0) && (r.2 =? MAX_INDEX_VALUE) then text "*"
  else str_int r.1 ++ text "-" ++ str_int r.2.

Definition render_section (hm : str) (rs : list range) : str :=
  let many := (1 <? length rs)%nat || existsb is_open_range rs in
  (if many then text "[" else []) ++
  join (text ",") (render_range <$> rs) ++
  (if many then text "]" else []) ++ hm.

Lemma land_mask_range_in (lo v : Z) :
  lo = 0 ∨ lo = HARDENED_INDEX_START →
  lo ≤ v ≤ lo + MAX_INDEX_VALUE →
  Z.land v HARDENED_INDEX_MASK = v - lo.
Proof.
  intros Hlo Hv. rewrite land_mask.
  2:{ revert Hv. destruct Hlo as [-> | ->]; unfold_consts; lia. }
  symmetry.
  apply (Z.mod_unique_pos v _ (if bool_decide (lo = 0) then 0 else 1)).
  - revert Hv. unfold_consts. lia.
  - revert Hv.
    destruct Hlo as [-> | ->]; case_bool_decide; unfold_consts; lia.
Qed.

Lemma is_hardened_bit_range_in (lo v : Z) :
  lo = 0 ∨ lo = HARDENED_INDEX_START →
  lo ≤ v ≤ lo + MAX_INDEX_VALUE →
  is_hardened_bit v = negb (bool_decide (lo = 0)).
Proof.
  intros [-> | ->] Hv.
  - by rewrite is_hardened_bit_unhardened.
  - by rewrite is_hardened_bit_hardened.
Qed.

Lemma str_ranges_range_in (lo : Z) (s : section) (st : str_section_state) :
  lo = 0 ∨ lo = HARDENED_INDEX_START →
  Forall (range_in lo) s →
  is_hardened st = None
  ∨ is_hardened st = Some (negb (bool_decide (lo = 0))) →
  str_ranges s st =
    Ok (mkStrState
          (r_parts st ++ (render_range ∘ unharden lo <$> s))
          (match s with
           | [] => is_hardened st
           | _ => Some (negb (bool_decide (lo = 0)))
           end)
          (got_many st || existsb (is_open_range ∘ unharden lo) s)).
Proof.
  intros Hlo Hs. revert st.
  induction Hs as [|[a b] s (Ha & Hab & Hb) Hs IH]; intros st Hst.
  { simpl. rewrite app_nil_r, orb_false_r. by destruct st. }
  simpl in Ha, Hab, Hb. cbn [str_ranges].
  rewrite !(is_hardened_bit_range_in lo) by (done || lia).
  rewrite eqb_reflx. cbn [assert bind].
  assert ((match is_hardened st with
           | Some h => eqb h (negb (bool_decide (lo = 0)))
           | None => true
           end) = true) as ->.
  { destruct Hst as [-> | ->]; [done|]. by rewrite eqb_reflx. }
  cbn [assert bind].
  rewrite !(land_mask_range_in lo) by (done || lia).
  rewrite IH.
  2:{ right. by repeat case_match. }
  f_equal. unfold render_range, is_open_range, unharden, compose. simpl.
  destruct (a - lo =? b - lo) eqn:E1; simpl.
  { rewrite <- app_assoc. simpl. f_equal. by destruct s. }
  destruct ((a - lo =? 0) && (b - lo =? MAX_INDEX_VALUE)) eqn:E2; simpl.
  { rewrite <- app_assoc. simpl. f_equal. by destruct s. }
  rewrite <- app_assoc. simpl. rewrite orb_true_r. f_equal. by destruct s.
Qed.

(** The marker that [__str__] writes after a section of the half [lo]. *)
Definition marker_for (lo : Z) (hm : str) : str :=
  if bool_decide (lo = 0) then [] else hm.

Lemma str_section_canonical (t : BIP32Template) (lo : Z) (s : section) :
  lo = 0 ∨ lo = HARDENED_INDEX_START →
  canonical lo s →
  (lo = HARDENED_INDEX_START → hardened_marker t ≠ []) →
  str_section t s
  = Ok (render_section (marker_for lo (hardened_marker t))
          (unharden lo <$> s)).
Proof.
  intros Hlo (Hne & Hs & _) Hm. unfold str_section.
  rewrite (str_ranges_range_in lo) by (done || by left).
  destruct s as [|r s]; [done|]. cbn [bind is_hardened got_many r_parts].
  unfold marker_for, render_section.
  rewrite length_fmap, <- list_fmap_compose.
  assert (existsb is_open_range (unharden lo <$> r :: s)
          = existsb (is_open_range ∘ unharden lo) (r :: s)) as ->.
  { generalize (r :: s). intros l. induction l as [|x l IH]; [done|].
    cbn [fmap list_fmap existsb compose]. by rewrite <- IH. }
  case_bool_decide as Hz; cbn [negb bind]; [done|].
  rewrite bool_decide_eq_false_2 by (apply Hm; naive_solver).
  done.
Qed.

Lemma str_sections_canonical (t : BIP32Template) (lo : Z)
    (ss : list section) (s_parts : list str) :
  lo = 0 ∨ lo = HARDENED_INDEX_START →
  Forall (canonical lo) ss →
  (lo = HARDENED_INDEX_START → ss ≠ [] → hardened_marker t ≠ []) →
  str_sections t ss s_parts
  = Ok (s_parts ++
          (render_section (marker_for lo (hardened_marker t))
             ∘ fmap (unharden lo) <$> ss)).
Proof.
  intros Hlo Hss. revert s_parts.
  induction Hss as [|s ss Hs Hss IH]; intros s_parts Hm; simpl.
  { by rewrite app_nil_r. }
  rewrite (str_section_canonical t lo) by naive_solver.
  cbn [bind]. rewrite IH by naive_solver. by rewrite <- app_assoc.
Qed.

Lemma str_sections_app (t : BIP32Template) (ss1 ss2 : list section)
    (s_parts : list str) :
  str_sections t (ss1 ++ ss2) s_parts
  = let* p := str_sections t ss1 s_parts in str_sections t ss2 p.
Proof.
  revert s_parts. induction ss1 as [|s ss1 IH]; intros s_parts; [done|].
  simpl. destruct (str_section t s); [|done]. simpl. apply IH.
Qed.

(** The text of a template whose hardened sections are [hs] and whose
    unhardened sections are [us]. *)
Definition render (p : bool) (hm : str) (hs us : list section) : str :=
  join (text "/")
    ((if p then [] else [text "m"]) ++
     (render_section hm ∘ fmap (unharden HARDENED_INDEX_START) <$> hs) ++
     (render_section [] ∘ fmap (unharden 0) <$> us)).

Lemma str_render (t : BIP32Template) (hs us : list section) :
  sections t = hs ++ us →
  Forall hardened_section hs → Forall unhardened_section us →
  (hs ≠ [] → hardened_marker t ≠ []) →
  __str__ t = Ok (render (is_partial t) (hardened_marker t) hs us).
Proof.
  intros Hsec Hhs Hus Hm. unfold __str__, render.
  rewrite Hsec, str_sections_app.
  rewrite (str_sections_canonical t HARDENED_INDEX_START)
    by (auto || naive_solver).
  cbn [bind].
  rewrite (str_sections_canonical t 0) by (auto || done).
  cbn [bind]. by rewrite <- app_assoc.
Qed.

Lemma starts_hardened_app (hs us : list section) :
  Forall hardened_section hs → Forall unhardened_section us →
  starts_hardened (hs ++ us) = negb (bool_decide (hs = [])).
Proof.
  intros Hhs Hus. destruct Hhs as [|h hs (Hne & Hh & _) _]; simpl.
  - destruct Hus as [|u us (Hne & Hu & _) _]; [done|]. simpl.
    destruct Hu as [|[a b] u (Ha & Hab & Hb) _]; [done|].
    unfold first_index. simpl in *. revert Ha Hab Hb. unfold_consts. lia.
  - destruct Hh as [|[a b] h (Ha & Hab & Hb) _]; [done|].
    unfold first_index. simpl in *. revert Ha Hab Hb. unfold_consts. lia.
Qed.

Lemma str_section_no_marker (t : BIP32Template) (s : section) :
  hardened_section s → hardened_marker t = [] →
  str_section t s = Raise AssertionError.
Proof.
  intros (Hne & Hs & _) Hm. unfold str_section.
  rewrite (str_ranges_range_in HARDENED_INDEX_START) by (auto || by left).
  destruct s as [|r s]; [done|]. cbn [bind is_hardened].
  rewrite bool_decide_eq_false_2 by done. cbn [negb].
  by rewrite Hm.
Qed.

(** X7. On a template whose sections are well formed, [__str__] fails its
    assertion when the first section is hardened and the hardened marker is
    empty, and returns a string in every other case. *)
Theorem str_well_formed (t : BIP32Template) :
  well_formed (sections t) →
  if starts_hardened (sections t) && bool_decide (hardened_marker t = [])
  then __str__ t = Raise AssertionError
  else ∃ s, __str__ t = Ok s.
Proof.
  intros (Hne & hs & us & Hsec & Hhs & Hus).
  rewrite Hsec, starts_hardened_app by done.
  case_bool_decide as Hh; simpl.
  { eexists. apply (str_render t hs us); done. }
  case_bool_decide as Hm; simpl.
  - unfold __str__. rewrite Hsec. destruct Hhs as [|h hs Hh' _]; [done|].
    simpl. by rewrite str_section_no_marker.
  - eexists. apply (str_render t hs us); done.
Qed.

Lemma str_well_formed_witness :
  well_formed [[(2147483648, 2147483650)]; [(0, 0); (5, 7)]]
  ∧ ∃ s, __str__ (mkTemplate [[(2147483648, 2147483650)]; [(0, 0); (5, 7)]]
                    true (text "h")) = Ok s.
Proof.
  assert (well_formed [[(2147483648, 2147483650)]; [(0, 0); (5, 7)]]) as Hwf.
  { split; [done|].
    exists [[(2147483648, 2147483650)]], [[(0, 0); (5, 7)]].
    split_and!; [done|..]; repeat constructor;
      unfold range_in; unfold_consts; simpl; try lia; done. }
  split; [exact Hwf|].
  exact (str_well_formed
           (mkTemplate [[(2147483648, 2147483650)]; [(0, 0); (5, 7)]]
              true (text "h")) Hwf).
Defined.

(** X8. [__str__] raises nothing on a template returned by [parse]. *)
Theorem str_parsed (isdigit : char → bool) (opts : options) (tpl : str)
    (t : BIP32Template) :
  isdigit_spec isdigit →
  parse isdigit opts tpl = Ok t →
  ∃ s, __str__ t = Ok s.
Proof.
  intros Hd (l & _ & (hs & us & Hl & _ & Hhs & Hus & Hm & _) & -> & _)
    %parse_Ok; [|done].
  eexists. apply (str_render _ hs us); simpl; [done|..].
  - eapply Forall_impl; [done|]. by intros s [? _].
  - eapply Forall_impl; [done|]. by intros s [? _].
  - intros Hne. destruct Hm as [[_ ?]|(g & -> & _)]; [done|].
    by rewrite marker_of_singleton.
Qed.

Lemma str_parsed_witness :
  isdigit_spec isdigit_ascii
  ∧ parse isdigit_ascii default_options example_text = Ok example_template
  ∧ ∃ s, __str__ example_template = Ok s.
Proof.
  split_and!; [exact isdigit_ascii_spec|exact parse_example|].
  exact (str_parsed isdigit_ascii default_options example_text
           example_template isdigit_ascii_spec parse_example).
Defined.

(** ** What [parse] can raise *)

(** A run that, if it raises, raises a template exception whose
    [position] is [p]. *)
Definition raises_at {A} (p : Z) (r : result A) : Prop :=
  match r with
  | Ok _ => True
  | Raise (BIP32TemplateException _ (Some q)) => q = p
  | Raise _ => False
  end.

Lemma raises_at_bind {A B} (p : Z) (r : result A) (k : A → result B) :
  raises_at p r → (∀ a, r = Ok a → raises_at p (k a)) →
  raises_at p (bind r k).
Proof. destruct r; simpl; auto. Qed.

Lemma raises_at_total {A} (p : Z) (r : result A) :
  (∃ a, r = Ok a) → raises_at p r.
Proof. by intros [a ->]. Qed.

(** One step of a run whose tests are decided by what is known of the
    locals. *)
Ltac raises_test b :=
  let E := fresh "E" in
  first
    [ assert (b = true) as E by lia; rewrite E; clear E
    | assert (b = false) as E by lia; rewrite E; clear E
    | destruct b eqn:E ].

Ltac raises_step :=
  match goal with
  | |- raises_at _ (Ok _) => exact I
  | |- raises_at _ (err _ _) => reflexivity
  | |- raises_at _ (bind (Ok _) _) => cbn [bind]
  | |- raises_at _ (bind (err _ _) _) => reflexivity
  | |- raises_at _ (bind (bind (Ok _) _) _) => cbn [bind]
  | |- raises_at _ (bind (bind (err _ _) _) _) => reflexivity
  | |- raises_at _ (bind (assert ?b) _) =>
      let E := fresh "E" in
      assert (b = true) as E by (done || lia);
      rewrite E; clear E; cbn [assert bind]
  | |- raises_at _ (bind (bind (if ?b then _ else _) _) _) => raises_test b
  | |- raises_at _ (bind (if ?b then _ else _) _) => raises_test b
  | |- raises_at _ (if ?b then _ else _) => raises_test b
  | |- raises_at _ (bind (getitem_last (?xs ++ [?x])) _) =>
      rewrite (getitem_last_snoc xs x); cbn [bind]
  | |- raises_at _ (bind (setitem_last (?xs ++ [?x]) ?y) _) =>
      rewrite (setitem_last_snoc xs x y); cbn [bind]
  | |- raises_at _ (let (_, _) := ?p in _) => destruct p
  | |- context [getitem_last (?xs ++ [?x])] =>
      rewrite (getitem_last_snoc xs x); cbn [bind]
  end.

Section raised.

Variable isdigit : char → bool.
Hypothesis isdigit_ok : isdigit_spec isdigit.
Variable opts : options.

Lemma raises_at_err {A} (l : locals) (e : template_error) :
  raises_at (L.position l) (@err A l e).
Proof. done. Qed.

Lemma raises_at_unexpected {A} (l : locals) (c : option char) :
  raises_at (L.position l) (@raise_unexpected_char_error isdigit A l c).
Proof. unfold raise_unexpected_char_error. by repeat case_match. Qed.

Lemma raises_at_process_digit (l : locals) (c : char) :
  isdigit c = true →
  raises_at (L.position l) (process_digit isdigit l c).
Proof.
  intros Hc. unfold process_digit. rewrite Hc. simpl.
  by repeat case_match.
Qed.

Lemma do_fsm_raises_SECTION_START (l : locals) (c : option char) :
  L.state l = SECTION_START →
  raises_at (L.position l) (do_fsm isdigit opts l c).
Proof.
  intros Hst. unfold do_fsm. rewrite Hst.
  destruct c as [c|]; [|by case_match].
  repeat match goal with
  | |- raises_at _ (if ?b then _ else _) => destruct b eqn:?
  | |- raises_at _ (Ok _) => done
  | |- raises_at _ (err _ _) => done
  | |- raises_at _ (raise_unexpected_char_error _ _ _) =>
      apply (raises_at_unexpected (L.set_section_started true l))
  | |- raises_at _ (bind (process_digit _ _ _) _) =>
      apply raises_at_bind;
      [by apply (raises_at_process_digit (L.set_section_started true l))
      |intros ? _]
  end.
Qed.

Lemma do_fsm_raises_NEXT_SECTION (l : locals) (c : option char) :
  Inv opts l → L.state l = NEXT_SECTION →
  raises_at (L.position l) (do_fsm isdigit opts l c).
Proof.
  intros (hs & us & _ & _ & _ & Hph) Hst. unfold do_fsm, phase in *.
  rewrite Hst in *. destruct (L.ret_state l); [done|].
  destruct Hph as (_ & (-> & _) & _). simpl.
  destruct c as [c|]; repeat case_match; try done.
  apply raises_at_unexpected.
Qed.

Lemma do_fsm_raises_VALUE (l : locals) (c : char) :
  L.state l = VALUE → isdigit c = true →
  raises_at (L.position l) (do_fsm isdigit opts l (Some c)).
Proof.
  intros Hst Hc. unfold do_fsm. rewrite Hst.
  apply raises_at_bind; [by apply raises_at_process_digit|done].
Qed.

Lemma get_num_ranges_total (l : locals) (done : list section)
    (f : option range → Prop) :
  in_section_ctx opts l done f →
  ∃ n, get_num_ranges_in_last_section l = Ok n.
Proof.
  unfold in_section_ctx, get_num_ranges_in_last_section.
  destruct (L.section_started l); [by eauto|].
  intros (open & -> & _). rewrite getitem_last_snoc. simpl. eauto.
Qed.

Lemma finalize_range_brackets_total (l : locals) (done : list section) :
  in_brackets opts l done → ∃ r, finalize_range l = Ok r.
Proof.
  intros (_ & _ & _ & Hre & _). unfold finalize_range. rewrite Hre.
  change (INVALID_INDEX =? INVALID_INDEX) with true. simpl.
  destruct (L.range_start l =? INVALID_INDEX); simpl; eauto.
Qed.

Lemma check_range_correctness_raises (l l1 : locals) (done : list section)
    (was_open is_last : bool) :
  in_brackets opts l done →
  valid_index (L.index_value l) →
  finalize_range l = Ok (was_open, l1) →
  raises_at (L.position l)
    (check_range_correctness opts l1 was_open is_last).
Proof.
  destruct l as [ip st rst ss iv rs re acc secs pos].
  unfold in_brackets, in_section_ctx, valid_index, finalize_range,
    check_range_correctness, get_num_ranges_in_last_section.
  simpl. intros (Hop & Hiv & Hrs & -> & Hctx) Hv Hf.
  unfold_consts.
  destruct ss.
  - destruct Hctx as (-> & Hlim & _). inv_ok; subst; locals_simpl.
    all: repeat raises_step.
  - destruct Hctx as (open & -> & Hopen & Hrl & Hlim & _).
    destruct Hopen as (Hne & Hall & _).
    destruct open as [|[ps pe] open' _] using rev_ind; [done|].
    rewrite Forall_app, Forall_singleton in Hall.
    destruct Hall as [_ Hp]. unfold range_in in Hp. simpl in Hp.
    revert Hp. unfold_consts. intros Hp.
    inv_ok; subst; locals_simpl.
    all: repeat raises_step.
Qed.

Lemma apply_new_range_total (l : locals) (done : list section)
    (f : option range → Prop) :
  valid_index (L.range_start l) → valid_index (L.range_end l) →
  in_section_ctx opts l done f →
  ∃ l', apply_new_range l = Ok l'.
Proof.
  destruct l as [ip st rst ss iv rs re acc secs pos].
  unfold apply_new_range, in_section_ctx, valid_index. simpl.
  unfold_consts. intros Hrs Hre Hctx.
  assert (rs <=? 2147483648 - 1 = true) as -> by lia.
  assert (re <=? 2147483648 - 1 = true) as -> by lia.
  cbn [assert bind].
  destruct ss; [by eauto|].
  destruct Hctx as (open & -> & (Hne & Hall & _) & _).
  destruct open as [|[ps pe] open' _] using rev_ind; [done|].
  rewrite Forall_app, Forall_singleton in Hall.
  destruct Hall as [_ Hp]. unfold range_in in Hp. simpl in Hp.
  revert Hp. unfold_consts. intros Hp.
  rewrite (getitem_last_snoc done). cbn [bind].
  rewrite (getitem_last_snoc open'). cbn [bind].
  assert (ps <=? 2147483648 - 1 = true) as -> by lia.
  assert (pe <=? 2147483648 - 1 = true) as -> by lia.
  cbn [assert bind].
  destruct (pe + 1 =? rs); rewrite ?setitem_last_snoc; cbn [bind];
    rewrite ?setitem_last_snoc; cbn [bind]; eauto.
Qed.

Lemma do_fsm_raises_RANGE_WITHIN_SECTION (l : locals) (c : option char) :
  Inv opts l → L.state l = RANGE_WITHIN_SECTION →
  raises_at (L.position l) (do_fsm isdigit opts l c).
Proof.
  intros (hs & us & Hhs & Hus & Hm & Hph) Hst.
  unfold do_fsm, phase in *. rewrite Hst in *.
  destruct (L.ret_state l); [done|].
  assert (Hbr := Hph). destruct Hph as (Hop & Hiv & Hrs & Hre & Hctx).
  rewrite Hop. cbn [negb assert bind].
  destruct c as [c|]; [|done].
  destruct (L.index_value l =? INVALID_INDEX) eqn:Eiv.
  { by repeat case_match. }
  assert (valid_index (L.index_value l)) as Hviv.
  { destruct Hiv as [Hiv|]; [|done]. rewrite Hiv in Eiv. done. }
  destruct (c_is (Some c) (ch "-")).
  { case_match; [apply raises_at_unexpected|done]. }
  destruct (c_is (Some c) (ch ",")).
  { destruct (get_num_ranges_total _ _ _ Hctx) as [n ->]. cbn [bind].
    case_match; [done|].
    destruct (finalize_range_brackets_total _ _ Hbr) as [[wo l1] Hfin].
    rewrite Hfin. cbn [bind].
    apply raises_at_bind.
    { by eapply check_range_correctness_raises. }
    intros [] Hchk.
    destruct (finalize_check_spec _ _ _ _ _ _ Hbr Hviv Hfin Hchk)
      as (rs' & -> & Hrs' & Hle & Hnw & Hctx').
    edestruct (apply_new_range_total) as [l2 ->]; [..|exact Hctx'|];
      [done|done|done]. }
  destruct (c_is (Some c) (ch "]")).
  { destruct (finalize_range_brackets_total _ _ Hbr) as [[wo l1] Hfin].
    rewrite Hfin. cbn [bind].
    apply raises_at_bind; [|done].
    by eapply check_range_correctness_raises. }
  apply raises_at_unexpected.
Qed.

Lemma finalize_range_end_total (l : locals) (done : list section) :
  plain opts l done ∨ wildcard opts l done ∨ closed opts l done →
  (L.index_value l =? INVALID_INDEX) = false
  ∧ ∃ r, finalize_range l = Ok r.
Proof.
  destruct l as [ip st rst ss iv rs re acc secs pos].
  unfold plain, wildcard, closed, finalize_range, valid_index.
  locals_simpl. unfold_consts.
  intros [Hp | [Hw | Hc]].
  - destruct Hp as (_ & Hiv & -> & -> & _). split; [lia|]. simpl. eauto.
  - destruct Hw as (_ & _ & -> & -> & -> & _). split; [lia|]. simpl. eauto.
  - destruct Hc as (_ & Hrs & Hre & _ & <- & _). split; [lia|].
    assert (negb (rs =? 2147483648) = true) as -> by lia.
    assert (negb (re =? 2147483648) = true) as -> by lia.
    rewrite Z.eqb_refl. simpl. eauto.
Qed.

(** The two steps shared by the branches of [SECTION_END]. *)
Lemma finalize_apply_end (l : locals) (done : list section) :
  plain opts l done ∨ wildcard opts l done ∨ closed opts l done →
  ∃ wo l1 s,
    finalize_range l = Ok (wo, l1)
    ∧ apply_new_range l1
      = Ok (L.set_range_end INVALID_INDEX
              (L.set_range_start INVALID_INDEX
                 (L.set_section_started false
                    (L.set_sections (done ++ [s]) l1))))
    ∧ L.position l1 = L.position l
    ∧ canonical 0 s.
Proof.
  intros Hph. destruct (finalize_range_end_total _ _ Hph) as [_ [[wo l1] Hf]].
  destruct (finalize_end_spec _ _ _ _ _ Hph Hf)
    as (rs1 & re1 & -> & Hrs1 & Hre1 & Hle & Hctx & _).
  destruct (apply_new_range_total
              (L.set_range_end re1 (L.set_range_start rs1 l)) _ _
              Hrs1 Hre1 Hctx) as [l2 Happ].
  destruct (apply_new_range_spec opts _ _ _ Happ Hrs1 Hre1 Hle Hctx)
    as (s & n & -> & Hcan & _).
  exists wo, (L.set_range_end re1 (L.set_range_start rs1 l)), s.
  by split_and!.
Qed.

Lemma do_fsm_raises_SECTION_END (l : locals) (c : option char) :
  Inv opts l → L.state l = SECTION_END →
  raises_at (L.position l) (do_fsm isdigit opts l c).
Proof.
  intros (hs & us & Hhs & Hus & Hm & Hph) Hst.
  unfold do_fsm, phase in *. rewrite Hst in *.
  destruct (L.ret_state l); [done|].
  destruct (finalize_range_end_total _ _ Hph) as [-> _].
  cbn [negb assert bind].
  destruct (bool_decide (c = None) && _) eqn:Hmax; [done|].
  destruct (c_is c (ch "/") || bool_decide (c = None)) eqn:Hend.
  { destruct (finalize_apply_end _ _ Hph) as (wo & l1 & s & -> & Happ & _).
    cbn [bind]. by rewrite Happ. }
  destruct c as [c|]; [|done].
  destruct (bool_decide ([c] ∈ L.accepted_hardened_markers l)) eqn:Hacc.
  2:{ destruct (bool_decide ([c] = _) || _);
        [done|apply raises_at_unexpected]. }
  remember ({[ [c] ]} : gset str) as acc' eqn:Hacc'.
  match goal with
  | |- context [finalize_range ?l0] =>
      assert (plain opts l0 (hs ++ us) ∨ wildcard opts l0 (hs ++ us)
              ∨ closed opts l0 (hs ++ us)) as Hph' by exact Hph;
      destruct (finalize_apply_end l0 _ Hph')
        as (wo & l1 & s & -> & Happ & Hpos & Hcan)
  end.
  cbn [bind]. rewrite Happ. cbn [bind].
  destruct l1 as [ip1 st1 rst1 ss1 iv1 rs1 re1 acc1 secs1 pos1].
  simpl in Hpos. subst pos1. generalize (L.position l) as p. intros p.
  clear Hph Hph' Hst Hm Hmax Hend Hacc Happ. locals_simpl.
  apply raises_at_bind.
  { destruct (len ((hs ++ us) ++ [s]) >? 1) eqn:Hlen; [|done].
    destruct (hs ++ us) as [|u done _] eqn:Hdone using rev_ind.
    { exfalso. unfold len in *. simpl in *. lia. }
    clear Hlen. rewrite <- app_assoc. cbn [app]. rewrite getitem_last2_snoc.
    cbn [bind].
    assert (canonical HARDENED_INDEX_START u ∨ canonical 0 u) as Hu.
    { assert (u ∈ hs ++ us) as Hin by (rewrite Hdone; set_solver).
      apply elem_of_app in Hin as [Hin|Hin].
      - left. by eapply Forall_forall in Hhs as [? _].
      - right. by eapply Forall_forall in Hus as [? _]. }
    destruct Hu as [Hu|Hu].
    - by rewrite (is_section_hardened_canonical HARDENED_INDEX_START)
        by auto.
    - by rewrite (is_section_hardened_canonical 0) by auto. }
  intros unh _. destruct unh; [done|].
  unfold harden_last_section. locals_simpl.
  rewrite getitem_last_snoc. cbn [bind].
  rewrite harden_ranges_unhardened by apply Hcan. cbn [bind].
  by rewrite setitem_last_snoc.
Qed.

(** [do_fsm] on locals that satisfy the invariant raises only template
    exceptions, with the current position. In the state [VALUE] it is
    called on digits only. *)
Lemma do_fsm_raises (l : locals) (c : option char) :
  Inv opts l →
  (L.state l = VALUE → ∃ c', c = Some c' ∧ isdigit c' = true) →
  raises_at (L.position l) (do_fsm isdigit opts l c).
Proof.
  intros HI Hv. destruct (L.state l) eqn:Hst.
  - by apply do_fsm_raises_SECTION_START.
  - by apply do_fsm_raises_NEXT_SECTION.
  - by apply do_fsm_raises_RANGE_WITHIN_SECTION.
  - by apply do_fsm_raises_SECTION_END.
  - destruct Hv as (c' & -> & Hc); [done|]. by apply do_fsm_raises_VALUE.
Qed.

End raised.

(** *** The position is left alone by [do_fsm] *)

Section position.

Variable isdigit : char → bool.
Variable opts : options.

Lemma finalize_range_position (l l' : locals) (wo : bool) :
  finalize_range l = Ok (wo, l') → L.position l' = L.position l.
Proof. unfold finalize_range. intros H. inv_split; by subst. Qed.

Lemma apply_new_range_position (l l' : locals) :
  apply_new_range l = Ok l' → L.position l' = L.position l.
Proof. unfold apply_new_range. intros H. inv_split; by subst. Qed.

Lemma harden_last_section_position (l l' : locals) :
  harden_last_section l = Ok l' → L.position l' = L.position l.
Proof. unfold harden_last_section. intros H. inv_split; by subst. Qed.

Lemma do_fsm_position (l l' : locals) (c : option char) (ns : next_state)
    (r : option State) :
  do_fsm isdigit opts l c = Ok (ns, r, l') → L.position l' = L.position l.
Proof.
  unfold do_fsm. intros H.
  destruct (L.state l).
  - destruct c; inv_split; by subst.
  - destruct c; inv_split; by subst.
  - destruct c; [|inv_split].
    repeat match goal with
    | H : (if ?b then _ else _) = Ok _ |- _ => destruct b
    | H : bind (assert _) _ = Ok _ |- _ => apply bind_Ok in H as ([] & _ & H)
    | H : err _ _ = Ok _ |- _ => discriminate H
    | H : raise_unexpected_char_error _ _ _ = Ok _ |- _ =>
        exfalso; revert H; unfold raise_unexpected_char_error, err;
        repeat case_match; discriminate
    | H : Ok _ = Ok _ |- _ => injection H as <- <- <-
    | H : bind (finalize_range _) _ = Ok _ |- _ =>
        let Hf := fresh "Hf" in
        apply bind_Ok in H as ([? ?] & Hf & H);
        apply finalize_range_position in Hf
    | H : bind (apply_new_range _) _ = Ok _ |- _ =>
        let Hf := fresh "Hf" in
        apply bind_Ok in H as (? & Hf & H);
        apply apply_new_range_position in Hf
    | H : bind (harden_last_section _) _ = Ok _ |- _ =>
        let Hf := fresh "Hf" in
        apply bind_Ok in H as (? & Hf & H);
        apply harden_last_section_position in Hf
    | H : bind _ _ = Ok _ |- _ => apply bind_Ok in H as (? & _ & H)
    end; simpl; congruence.
  - repeat match goal with
    | H : (if ?b then _ else _) = Ok _ |- _ => destruct b
    | H : match ?c with Some _ => _ | None => _ end = Ok _ |- _ => destruct c
    | H : bind (assert _) _ = Ok _ |- _ => apply bind_Ok in H as ([] & _ & H)
    | H : err _ _ = Ok _ |- _ => discriminate H
    | H : raise_unexpected_char_error _ _ _ = Ok _ |- _ =>
        exfalso; revert H; unfold raise_unexpected_char_error, err;
        repeat case_match; discriminate
    | H : Ok _ = Ok _ |- _ => injection H as <- <- <-
    | H : bind (finalize_range _) _ = Ok _ |- _ =>
        let Hf := fresh "Hf" in
        apply bind_Ok in H as ([? ?] & Hf & H);
        apply finalize_range_position in Hf
    | H : bind (apply_new_range _) _ = Ok _ |- _ =>
        let Hf := fresh "Hf" in
        apply bind_Ok in H as (? & Hf & H);
        apply apply_new_range_position in Hf
    | H : bind (harden_last_section _) _ = Ok _ |- _ =>
        let Hf := fresh "Hf" in
        apply bind_Ok in H as (? & Hf & H);
        apply harden_last_section_position in Hf
    | H : bind _ _ = Ok _ |- _ => apply bind_Ok in H as (? & _ & H)
    end; simpl in *; congruence.
  - destruct c; inv_split; by subst.
Qed.

(** On the end of the input [do_fsm] reports success or raises. *)
Lemma do_fsm_None (l l' : locals) (ns : next_state) (r : option State) :
  do_fsm isdigit opts l None = Ok (ns, r, l') → ns = SUCCESS ∧ r = None.
Proof.
  unfold do_fsm. intros H. destruct (L.state l).
  - inv_split.
  - apply bind_Ok in H as ([] & _ & H). apply bind_Ok in H as ([] & _ & H).
    destruct (_ >? _); [done|]. by injection H as <- <- <-.
  - apply bind_Ok in H as ([] & _ & H). done.
  - apply bind_Ok in H as ([] & _ & H).
    rewrite bool_decide_eq_true_2 in H by done.
    destruct (true && _); [done|]. rewrite orb_true_r in H.
    apply bind_Ok in H as ([? ?] & _ & H).
    apply bind_Ok in H as (? & _ & H). by injection H as <- <- <-.
  - done.
Qed.

End position.

(** *** The loop and [parse] *)

Section raised_loop.

Variable isdigit : char → bool.
Hypothesis isdigit_ok : isdigit_spec isdigit.
Variable opts : options.

Lemma loop_body_position (l l' : locals) (c : option char) (ctl : control) :
  loop_body isdigit opts l c = Ok (ctl, l') →
  L.position l' = L.position l + 1.
Proof.
  unfold loop_body. intros H.
  remember (L.set_position (L.position l + 1) l) as l0 eqn:Hl0.
  assert (L.position l0 = L.position l + 1) as Hpos by by subst.
  clear Hl0.
  destruct (c_is c (ch "m") && _).
  { injection H as <- <-. done. }
  destruct (negb (L.is_partial l0) && _).
  { destruct (c_is c (ch "/")); inv_split. by subst. }
  apply bind_Ok in H as (l1 & Hl1 & H).
  assert (L.position l1 = L.position l0) as Hpos1.
  { destruct (bool_decide (L.state l0 = VALUE) && _); [|by injection Hl1 as <-].
    destruct (L.ret_state l0); [|done]. by injection Hl1 as <-. }
  apply bind_Ok in H as ([[ns r] l2] & Hfsm & H).
  apply do_fsm_position in Hfsm.
  apply bind_Ok in H as ([] & _ & H).
  destruct c, ns; inv_split; subst; simpl; congruence.
Qed.

Lemma loop_body_raises (l : locals) (c : option char) :
  Inv opts l →
  raises_at (L.position l + 1) (loop_body isdigit opts l c).
Proof.
  intros HI. unfold loop_body.
  apply (Inv_set_position _ _ (L.position l + 1)) in HI.
  remember (L.set_position (L.position l + 1) l) as l0 eqn:Hl0.
  assert (L.position l + 1 = L.position l0) as -> by by subst.
  clear Hl0 l.
  destruct (c_is c (ch "m") && _); [done|].
  destruct (negb (L.is_partial l0) && _).
  { destruct (c_is c (ch "/")); [done|apply raises_at_unexpected]. }
  apply raises_at_bind.
  { destruct (bool_decide (L.state l0 = VALUE) && _) eqn:Hv; [|done].
    apply andb_prop in Hv as [Hv%bool_decide_eq_true _].
    destruct HI as (hs & us & _ & _ & _ & Hph). unfold phase in Hph.
    rewrite Hv in Hph. by destruct (L.ret_state l0). }
  intros l1 Hl1.
  assert (Inv opts l1 ∧ L.position l1 = L.position l0
          ∧ (L.state l1 = VALUE → ∃ c', c = Some c' ∧ isdigit c' = true))
    as (HI1 & Hpos & Hval).
  { destruct (bool_decide (L.state l0 = VALUE) && _) eqn:Hv.
    - apply andb_prop in Hv as [Hv%bool_decide_eq_true _].
      destruct (L.ret_state l0) as [s|] eqn:Hr; [|done].
      injection Hl1 as <-. split_and!; [by apply Inv_leave_VALUE|done|].
      simpl. intros ->. destruct HI as (hs & us & _ & _ & _ & Hph).
      unfold phase in Hph. by rewrite Hv, Hr in Hph.
    - injection Hl1 as <-. split_and!; [done..|]. intros Hst.
      rewrite bool_decide_eq_true_2 in Hv by done. simpl in Hv.
      destruct c as [c'|]; [|done]. exists c'. split; [done|].
      by apply negb_false_iff in Hv. }
  rewrite <- Hpos. apply raises_at_bind; [by apply do_fsm_raises|].
  intros [[ns r] l2] Hfsm.
  pose proof (do_fsm_Inv _ isdigit_ok _ _ _ _ _ _ HI1 Hfsm) as Haf.
  assert (r ≠ Some VALUE) as Hr.
  { destruct ns as [s|]; simpl in Haf.
    - destruct Haf as (hs & us & _ & _ & _ & Hph). unfold phase in Hph.
      simpl in Hph. intros ->. by destruct s.
    - destruct Haf as [-> _]. by apply do_fsm_None in Hfsm as [_ ->]. }
  rewrite bool_decide_eq_false_2 by done. cbn [negb assert bind].
  destruct c as [c'|], ns as [s|]; try done.
  by apply do_fsm_None in Hfsm as [? _].
Qed.

(** A run that, if it raises, raises a template exception whose position
    is between [lo] and [hi]. *)
Definition raises_within {A} (lo hi : Z) (r : result A) : Prop :=
  match r with
  | Ok _ => True
  | Raise e => ∃ cls p, e = BIP32TemplateException cls (Some p) ∧ lo ≤ p ≤ hi
  end.

Lemma raises_at_within {A} (p lo hi : Z) (r : result A) :
  raises_at p r → lo ≤ p ≤ hi → raises_within lo hi r.
Proof.
  destruct r as [a|[cls [q|]| | |]]; simpl; try done. intros -> ?. eauto.
Qed.

Lemma loop_raises (l : locals) (tpl : str) :
  Inv opts l →
  raises_within (L.position l + 1) (L.position l + len tpl + 1)
    (loop isdigit opts l tpl).
Proof.
  revert l. induction tpl as [|c tpl IH]; intros l HI; simpl.
  - pose proof (loop_body_raises l None HI) as Hb.
    destruct (loop_body isdigit opts l None) as [[ctl l']|e] eqn:Hc;
      [done|].
    apply (raises_at_within (L.position l + 1)); [done|].
    rewrite len_nil. lia.
  - pose proof (loop_body_raises l (Some c) HI) as Hb.
    destruct (loop_body isdigit opts l (Some c)) as [[ctl l']|e] eqn:Hc.
    2:{ apply (raises_at_within (L.position l + 1)); [done|].
        rewrite len_cons. pose proof (len_nonneg tpl). lia. }
    simpl. pose proof (loop_body_position _ _ _ _ Hc) as Hpos.
    pose proof (loop_body_Some_Continue _ _ _ _ _ _ Hc). subst ctl.
    apply (loop_body_Inv _ isdigit_ok _ _ _ _ _ HI) in Hc.
    specialize (IH l' Hc). rewrite Hpos in IH.
    destruct (loop isdigit opts l' tpl); [done|].
    destruct IH as (cls & p & -> & Hp). exists cls, p. split; [done|].
    rewrite len_cons. lia.
Qed.

End raised_loop.

(** X9. Whatever the input and the options, [parse] raises no
    [AssertionError], [IndexError] or [ValueError]: what it raises is a
    template exception. The exception carries a position between 1 and
    the length of the input plus one; the one exception without a
    position is [UnexpectedHardenedMarker] from the constructor, which
    needs a marker in the options that is not one of [HARDENED_MARKERS]. *)
Theorem parse_raises (isdigit : char → bool) (opts : options) (tpl : str)
    (e : exn) :
  isdigit_spec isdigit →
  parse isdigit opts tpl = Raise e →
  (∃ cls p, e = BIP32TemplateException cls (Some p) ∧ 1 ≤ p ≤ len tpl + 1)
  ∨ (e = BIP32TemplateException UnexpectedHardenedMarker None
     ∧ (in_HARDENED_MARKERS (hardened_markers opts).1 = false
        ∨ in_HARDENED_MARKERS (hardened_markers opts).2 = false)).
Proof.
  intros Hd. unfold parse.
  pose proof (loop_raises isdigit Hd opts _ tpl (Inv_initial opts)) as Hl.
  destruct (loop isdigit opts (initial_locals opts) tpl) as [l|e'] eqn:Hloop.
  2:{ simpl. intros [= <-]. left. by rewrite Z.add_0_l in Hl. }
  clear Hl. cbn [bind]. apply (loop_Final _ Hd) in Hloop.
  destruct Hloop as (hs & us & Hsec & Hne & _ & _ & Hm & _).
  unfold __init__. rewrite Hsec, bool_decide_eq_false_2 by done.
  cbn [bind]. fold (marker_of (L.accepted_hardened_markers l)).
  destruct (negb _ && negb _) eqn:Hmk; [|done].
  intros [= <-]. right. split; [done|].
  apply andb_prop in Hmk as [Hmk1 Hmk2]. apply negb_true_iff in Hmk2.
  apply negb_true_iff, bool_decide_eq_false in Hmk1.
  destruct Hm as [[Hacc _]|(g & Hacc & Hg & _)]; rewrite Hacc in *.
  - unfold marker_of, set_of_pair in *.
    case_bool_decide as Hsz; [|done].
    apply size_1_elem_of in Hsz as [m Hm]. apply leibniz_equiv in Hm.
    assert ((hardened_markers opts).1 = m) as H1 by set_solver.
    rewrite Hm, elements_singleton in Hmk2. simpl in *. left. by rewrite H1.
  - rewrite marker_of_singleton in Hmk2.
    apply elem_of_union in Hg as [Hg|Hg]; apply elem_of_singleton in Hg;
      rewrite Hg in Hmk2; auto.
Qed.

Lemma parse_raises_witness :
  isdigit_spec isdigit_ascii
  ∧ ∃ cls p,
      parse isdigit_ascii default_options (text "m/0/[1-3,2]")
      = Raise (BIP32TemplateException cls (Some p))
      ∧ 1 ≤ p ≤ 12.
Proof.
  split; [exact isdigit_ascii_spec|].
  destruct (parse_raises isdigit_ascii default_options (text "m/0/[1-3,2]")
              (BIP32TemplateException RangesIntersect (Some 11))
              isdigit_ascii_spec eq_refl)
    as [(cls & p & He & Hp)|[He _]].
  - exists cls, p. split; [by rewrite <- He|exact Hp].
  - discriminate He.
Defined.

(** ** Parsing the text that [__str__] writes *)

(** *** Characters *)

Lemma c_is_Some (c a : char) : c_is (Some c) a = bool_decide (c = a).
Proof.
  unfold c_is. case_bool_decide as H1; case_bool_decide as H2; congruence.
Qed.

Section characters.

Variable isdigit : char → bool.
Hypothesis isdigit_ok : isdigit_spec isdigit.

Lemma isdigit_digit_char (d : Z) :
  0 ≤ d ≤ 9 → isdigit (digit_char d) = true.
Proof.
  intros Hd. unfold digit_char. change (ord (ch "0")) with 48.
  rewrite isdigit_ok by lia. unfold isdigit_ascii.
  apply bool_decide_eq_true. lia.
Qed.

Lemma ord_digit_char (d : Z) :
  0 ≤ d ≤ 9 → ord (digit_char d) - ord (ch "0") = d.
Proof.
  intros Hd. unfold digit_char, ord. change (Z.of_N (ch "0")) with 48. lia.
Qed.

Lemma digit_char_neq (d : Z) (a : char) :
  0 ≤ d ≤ 9 → (a < 48 ∨ 57 < a)%N → digit_char d ≠ a.
Proof.
  intros Hd Ha. unfold digit_char. change (ord (ch "0")) with 48. lia.
Qed.

Lemma isdigit_ascii_false (a : char) :
  (a < 48 ∨ 57 < a)%N → (a < 128)%N → isdigit a = false.
Proof.
  intros Ha Hlt. rewrite isdigit_ok by done. unfold isdigit_ascii.
  apply bool_decide_eq_false. lia.
Qed.

End characters.

(** *** Single turns of the loop *)

(** The tests on characters that are known. *)
Ltac char_tests :=
  repeat match goal with
  | |- context [c_is (Some (ch ?a)) (ch ?b)] =>
      let v := eval vm_compute in (c_is (Some (ch a)) (ch b)) in
      change (c_is (Some (ch a)) (ch b)) with v
  | |- context [c_in (ch ?a) (text ?s)] =>
      let v := eval vm_compute in (c_in (ch a) (text s)) in
      change (c_in (ch a) (text s)) with v
  | |- context [bool_decide (Some ?c = @None char)] =>
      rewrite (bool_decide_eq_false_2 (Some c = @None char)) by done
  end.

(** The tests on integers, decided by what is known. *)
Ltac run_tests :=
  repeat first
    [ progress cbn [bind assert negb andb orb]
    | match goal with
      | |- context [getitem_last (?xs ++ [?x])] =>
          rewrite (getitem_last_snoc xs x)
      | |- context [setitem_last (?xs ++ [?x]) ?y] =>
          rewrite (setitem_last_snoc xs x y)
      | |- context [len (?xs ++ ?ys)] => rewrite (len_app xs ys)
      | |- context [len (?x :: ?xs)] => rewrite (len_cons x xs)
      | |- context [len (@nil ?A)] => rewrite (@len_nil A)
      | |- context [if ?b then _ else _] =>
          first [ assert (b = true) as -> by lia
                | assert (b = false) as -> by lia ]
      | |- context [assert ?b] =>
          assert (b = true) as -> by lia
      end ].

Section turns.

Variable isdigit : char → bool.
Hypothesis isdigit_ok : isdigit_spec isdigit.
Variable opts : options.

(** Past the two positions of the prefix [m/]. *)
Definition past_prefix (ip : bool) (pos : Z) : Prop :=
  if ip then 0 ≤ pos else 2 ≤ pos.

Lemma past_prefix_S (ip : bool) (pos : Z) :
  past_prefix ip pos → past_prefix ip (pos + 1).
Proof. unfold past_prefix. destruct ip; lia. Qed.

Lemma past_prefix_add (ip : bool) (pos k : Z) :
  past_prefix ip pos → 0 ≤ k → past_prefix ip (pos + k).
Proof. unfold past_prefix. destruct ip; lia. Qed.

Lemma prefix_tests (ip : bool) (pos : Z) (c : option char) :
  past_prefix ip pos → c ≠ Some (ch "m") →
  c_is c (ch "m") && (pos + 1 =? 1) = false
  ∧ negb ip && (pos + 1 =? 2) = false.
Proof.
  unfold past_prefix, c_is. intros Hpp Hc.
  rewrite bool_decide_eq_false_2 by done. destruct ip; simpl; lia.
Qed.

Lemma prefix_tests_later (ip : bool) (pos : Z) (c : option char) :
  past_prefix ip pos → 1 ≤ pos →
  c_is c (ch "m") && (pos + 1 =? 1) = false
  ∧ negb ip && (pos + 1 =? 2) = false.
Proof.
  unfold past_prefix. intros Hpp Hpos.
  destruct (c_is c (ch "m")), ip; simpl; lia.
Qed.

Lemma turn_VALUE (ip : bool) (r : State) (ss : bool) (iv rs re : Z)
    (acc : gset str) (secs : list section) (pos : Z) (d : Z) :
  past_prefix ip pos → r ≠ VALUE → 0 ≤ d ≤ 9 →
  iv = INVALID_INDEX ∨ 0 < iv →
  (if bool_decide (iv = INVALID_INDEX) then d else iv * 10 + d)
    ≤ MAX_INDEX_VALUE →
  loop_body isdigit opts
    (L.mk ip VALUE (Some r) ss iv rs re acc secs pos)
    (Some (digit_char d))
  = Ok (Continue,
        L.mk ip VALUE (Some r) ss
          (if bool_decide (iv = INVALID_INDEX) then d else iv * 10 + d)
          rs re acc secs (pos + 1)).
Proof.
  intros Hpp Hr Hd Hiv Hmax. unfold loop_body. locals_simpl.
  destruct (prefix_tests ip pos (Some (digit_char d)) Hpp) as [-> ->].
  { intros H. injection H as H. revert H. apply digit_char_neq; [done|].
    by right. }
  rewrite isdigit_digit_char, andb_false_r by done. cbn [bind].
  unfold do_fsm, process_digit. locals_simpl.
  rewrite isdigit_digit_char by done. cbn [assert bind].
  rewrite ord_digit_char by done.
  assert ((iv =? 0) = false) as -> by (revert Hiv; unfold_consts; lia).
  replace (negb (iv =? INVALID_INDEX))
    with (negb (bool_decide (iv = INVALID_INDEX)))
    by (case_bool_decide; lia).
  case_bool_decide; cbn [negb].
  - assert ((d >? MAX_INDEX_VALUE) = false) as -> by lia. cbn [bind].
    rewrite bool_decide_eq_false_2 by congruence. done.
  - assert ((iv * 10 + d >? MAX_INDEX_VALUE) = false) as -> by lia.
    cbn [bind]. rewrite bool_decide_eq_false_2 by congruence. done.
Qed.

(** The digits of an index, read in the state [VALUE]. *)
Definition is_digit_char (c : char) : Prop :=
  ∃ d, 0 ≤ d ≤ 9 ∧ c = digit_char d.

Lemma str_digits_S (fuel : nat) (n : Z) (tl : str) :
  str_digits (S fuel) n tl
  = if n <? 10 then digit_char (n `mod` 10) :: tl
    else str_digits fuel (n / 10) (digit_char (n `mod` 10) :: tl).
Proof. done. Qed.

Lemma run_str_digits (fuel : nat) (n : Z) (tl : str) :
  0 ≤ n ≤ MAX_INDEX_VALUE → n < 2 ^ Z.of_nat (S fuel) →
  ∃ k, str_digits (S fuel) n tl = k ++ tl ∧ k ≠ []
       ∧ Forall is_digit_char k
       ∧ ∀ ip r ss rs re acc secs pos,
           past_prefix ip pos → r ≠ VALUE →
           run isdigit opts
             (L.mk ip VALUE (Some r) ss INVALID_INDEX rs re acc secs pos) k
           = Ok (L.mk ip VALUE (Some r) ss n rs re acc secs (pos + len k)).
Proof.
  revert n tl. induction fuel as [|fuel IH]; intros n tl Hn Hfuel.
  - exists [digit_char n].
    assert (n <? 10 = true) as Hlt by lia.
    assert (n `mod` 10 = n) as Hmod by (apply Z.mod_small; lia).
    simpl. rewrite Hlt, Hmod. split_and!; [done..| |].
    { repeat constructor. exists n. split; [lia|done]. }
    intros. simpl. rewrite turn_VALUE; [|done|done|lia|by left|].
    + by rewrite bool_decide_eq_true_2.
    + rewrite bool_decide_eq_true_2 by done. lia.
  - rewrite str_digits_S. destruct (n <? 10) eqn:Hlt.
    + exists [digit_char (n `mod` 10)].
      assert (n `mod` 10 = n) as Hmod by (apply Z.mod_small; lia).
      rewrite Hmod. split_and!; [done..| |].
      { repeat constructor. exists n. split; [lia|done]. }
      intros. simpl. rewrite turn_VALUE; [|done|done|lia|by left|].
      * by rewrite bool_decide_eq_true_2.
      * rewrite bool_decide_eq_true_2 by done. lia.
    + pose proof (Z.mod_pos_bound n 10 ltac:(lia)) as Hd.
      pose proof (Z.div_mod n 10 ltac:(lia)) as Hdm.
      assert (0 < n / 10) as Hq by (apply Z.div_str_pos; lia).
      destruct (IH (n / 10) (digit_char (n `mod` 10) :: tl))
        as (k & Hk & Hne & Hdig & Hrun).
      { lia. }
      { rewrite Nat2Z.inj_succ, Z.pow_succ_r in Hfuel by lia. lia. }
      exists (k ++ [digit_char (n `mod` 10)]).
      split_and!.
      * rewrite Hk, <- app_assoc. done.
      * by destruct k.
      * apply Forall_app. split; [done|]. repeat constructor.
        exists (n `mod` 10). split; [lia|done].
      * intros. rewrite run_app, Hrun by done. cbn [bind]. simpl.
        rewrite turn_VALUE; [|apply past_prefix_add; [done|apply len_nonneg]|done|lia| |].
        -- rewrite bool_decide_eq_false_2
             by (revert Hn; unfold_consts; lia).
           cbn [bind]. do 2 f_equal; [lia|].
           rewrite len_app, len_cons, len_nil. lia.
        -- right. lia.
        -- rewrite bool_decide_eq_false_2
             by (revert Hn; unfold_consts; lia). lia.
Qed.

Lemma run_str_int (n : Z) :
  0 ≤ n ≤ MAX_INDEX_VALUE →
  str_int n ≠ [] ∧ Forall is_digit_char (str_int n)
  ∧ ∀ ip r ss rs re acc secs pos,
      past_prefix ip pos → r ≠ VALUE →
      run isdigit opts
        (L.mk ip VALUE (Some r) ss INVALID_INDEX rs re acc secs pos)
        (str_int n)
      = Ok (L.mk ip VALUE (Some r) ss n rs re acc secs
              (pos + len (str_int n))).
Proof.
  intros Hn. unfold str_int. assert (n <? 0 = false) as -> by lia.
  destruct (run_str_digits (Z.to_nat (Z.log2 n)) n [])
    as (k & Hk & Hne & Hdig & Hrun); [done| |].
  { rewrite Nat2Z.inj_succ, Z2Nat.id by apply Z.log2_nonneg.
    destruct (decide (n = 0)) as [->|]; [done|].
    apply Z.log2_spec. lia. }
  rewrite app_nil_r in Hk. rewrite Hk. done.
Qed.

(** In the state [VALUE], a character that is no digit is handled in the
    state to return to. *)
Lemma leave_VALUE (ip : bool) (r : State) (ss : bool) (iv rs re : Z)
    (acc : gset str) (secs : list section) (pos : Z) (c : option char) :
  past_prefix ip pos → 1 ≤ pos → r ≠ VALUE →
  match c with Some c' => isdigit c' = false | None => True end →
  loop_body isdigit opts (L.mk ip VALUE (Some r) ss iv rs re acc secs pos) c
  = loop_body isdigit opts (L.mk ip r None ss iv rs re acc secs pos) c.
Proof.
  intros Hpp Hpos Hr Hc. unfold loop_body. locals_simpl.
  destruct (prefix_tests_later ip pos c Hpp Hpos) as [-> ->].
  rewrite bool_decide_eq_true_2 by done.
  rewrite (bool_decide_eq_false_2 (r = VALUE)) by done.
  destruct c as [c|]; [rewrite Hc|]; done.
Qed.

(** A turn outside the prefix and outside the state [VALUE] is the call
    of [do_fsm]. *)
Lemma loop_body_Next (l l' : locals) (c : char) (s : State)
    (r : option State) :
  past_prefix (L.is_partial l) (L.position l) →
  c ≠ ch "m" ∨ 1 ≤ L.position l →
  L.state l ≠ VALUE →
  do_fsm isdigit opts (L.set_position (L.position l + 1) l) (Some c)
    = Ok (Next s, r, l') →
  r ≠ Some VALUE →
  loop_body isdigit opts l (Some c)
  = Ok (Continue, L.set_state s (L.set_ret_state r l')).
Proof.
  intros Hpp Hc Hst Hfsm Hr. unfold loop_body.
  assert (c_is (Some c) (ch "m") && (L.position l + 1 =? 1) = false
          ∧ negb (L.is_partial l) && (L.position l + 1 =? 2) = false)
    as [H1 H2].
  { destruct Hc as [Hc|Hc].
    - apply prefix_tests; [done|congruence].
    - by apply prefix_tests_later. }
  cbn [L.position L.set_position L.is_partial]. rewrite H1, H2.
  cbn [L.state]. rewrite (bool_decide_eq_false_2 (L.state l = VALUE))
    by done.
  cbn [andb bind]. rewrite Hfsm. cbn [bind].
  by rewrite bool_decide_eq_false_2.
Qed.

Lemma loop_body_SUCCESS (l l' : locals) (r : option State) :
  past_prefix (L.is_partial l) (L.position l) →
  1 ≤ L.position l →
  L.state l ≠ VALUE →
  do_fsm isdigit opts (L.set_position (L.position l + 1) l) None
    = Ok (SUCCESS, r, l') →
  loop_body isdigit opts l None = Ok (Break, L.set_ret_state r l').
Proof.
  intros Hpp Hc Hst Hfsm. unfold loop_body.
  destruct (prefix_tests_later _ _ None Hpp Hc) as [H1 H2].
  cbn [L.position L.set_position L.is_partial]. rewrite H1, H2.
  cbn [L.state]. rewrite (bool_decide_eq_false_2 (L.state l = VALUE))
    by done.
  cbn [andb bind]. rewrite Hfsm. cbn [bind].
  apply do_fsm_None in Hfsm as [_ ->]. done.
Qed.

Lemma digit_char_special (d : Z) :
  0 ≤ d ≤ 9 →
  digit_char d ≠ ch "m" ∧ digit_char d ≠ ch "/" ∧ digit_char d ≠ ch "["
  ∧ digit_char d ≠ ch "*".
Proof.
  intros Hd. split_and!; apply digit_char_neq; try done;
    first [by left | by right].
Qed.

Lemma turn_start_digit (ip ss : bool) (acc : gset str)
    (secs : list section) (pos : Z) (d : Z) :
  past_prefix ip pos → 0 ≤ d ≤ 9 → len secs ≠ max_sections opts →
  loop_body isdigit opts
    (L.mk ip SECTION_START None ss INVALID_INDEX INVALID_INDEX
       INVALID_INDEX acc secs pos) (Some (digit_char d))
  = loop_body isdigit opts
      (L.mk ip VALUE (Some SECTION_END) true INVALID_INDEX INVALID_INDEX
         INVALID_INDEX acc secs pos) (Some (digit_char d)).
Proof.
  intros Hpp Hd Hlen.
  destruct (digit_char_special d Hd) as (Hm & Hsl & Hbr & Hstar).
  rewrite turn_VALUE; [|done|done|done|by left|].
  2:{ rewrite bool_decide_eq_true_2 by done. unfold_consts. lia. }
  rewrite bool_decide_eq_true_2 by done.
  etransitivity; [eapply loop_body_Next; [done|by left|done| |]|];
    [|shelve..].
  unfold do_fsm. locals_simpl. rewrite !c_is_Some.
  rewrite (bool_decide_eq_false_2 (digit_char d = ch "/")) by done.
  rewrite (bool_decide_eq_false_2 (digit_char d = ch "[")) by done.
  rewrite (bool_decide_eq_false_2 (digit_char d = ch "*")) by done.
  assert (c_in (digit_char d) (text "[*") = false) as ->.
  { apply bool_decide_eq_false. intros Hin.
    apply elem_of_cons in Hin as [Hin|Hin]; [done|].
    by apply list_elem_of_singleton in Hin. }
  rewrite isdigit_digit_char by done.
  unfold process_digit. locals_simpl.
  rewrite isdigit_digit_char, ord_digit_char by done. cbn [assert bind].
  change (INVALID_INDEX =? 0) with false.
  change (negb (INVALID_INDEX =? INVALID_INDEX)) with false. cbv iota.
  assert ((d >? MAX_INDEX_VALUE) = false) as ->
    by (unfold_consts; lia).
  cbn [bind]. assert ((len secs =? max_sections opts) = false) as -> by lia.
  destruct (negb (is_format_onlypath opts)); reflexivity.
  Unshelve. all: done.
Qed.

Lemma run_start_digits (ip ss : bool) (acc : gset str)
    (secs : list section) (pos : Z) (n : Z) :
  past_prefix ip pos → 0 ≤ n ≤ MAX_INDEX_VALUE →
  len secs ≠ max_sections opts →
  run isdigit opts
    (L.mk ip SECTION_START None ss INVALID_INDEX INVALID_INDEX
       INVALID_INDEX acc secs pos) (str_int n)
  = Ok (L.mk ip VALUE (Some SECTION_END) true n INVALID_INDEX
          INVALID_INDEX acc secs (pos + len (str_int n))).
Proof.
  intros Hpp Hn Hlen. destruct (run_str_int n Hn) as (Hne & Hdig & Hrun).
  rewrite <- (Hrun ip SECTION_END true) by done.
  destruct (str_int n) as [|c k]; [done|].
  apply Forall_cons in Hdig as [(d & Hd & ->) _].
  cbn [run]. by rewrite turn_start_digit.
Qed.

Lemma turn_start_bracket (ip ss : bool) (acc : gset str)
    (secs : list section) (pos : Z) :
  past_prefix ip pos → is_format_onlypath opts = false →
  len secs ≠ max_sections opts →
  loop_body isdigit opts
    (L.mk ip SECTION_START None ss INVALID_INDEX INVALID_INDEX
       INVALID_INDEX acc secs pos) (Some (ch "["))
  = Ok (Continue,
        L.mk ip VALUE (Some RANGE_WITHIN_SECTION) true INVALID_INDEX
          INVALID_INDEX INVALID_INDEX acc secs (pos + 1)).
Proof.
  intros Hpp Hop Hlen.
  etransitivity; [eapply loop_body_Next; [done|by left|done| |]|];
    [|shelve..].
  unfold do_fsm. locals_simpl. rewrite Hop. char_tests.
  assert ((len secs =? max_sections opts) = false) as -> by lia.
  reflexivity.
  Unshelve. all: done.
Qed.

Lemma turn_start_star (ip ss : bool) (acc : gset str)
    (secs : list section) (pos : Z) :
  past_prefix ip pos → is_format_onlypath opts = false →
  len secs ≠ max_sections opts →
  loop_body isdigit opts
    (L.mk ip SECTION_START None ss INVALID_INDEX INVALID_INDEX
       INVALID_INDEX acc secs pos) (Some (ch "*"))
  = Ok (Continue,
        L.mk ip SECTION_END None true MAX_INDEX_VALUE 0 INVALID_INDEX
          acc secs (pos + 1)).
Proof.
  intros Hpp Hop Hlen.
  etransitivity; [eapply loop_body_Next; [done|by left|done| |]|];
    [|shelve..].
  unfold do_fsm. locals_simpl. rewrite Hop. char_tests.
  assert ((len secs =? max_sections opts) = false) as -> by lia.
  reflexivity.
  Unshelve. all: done.
Qed.

Lemma turn_dash (ip ss : bool) (a : Z) (acc : gset str)
    (secs : list section) (pos : Z) :
  past_prefix ip pos → 1 ≤ pos → is_format_onlypath opts = false →
  0 ≤ a ≤ MAX_INDEX_VALUE →
  loop_body isdigit opts
    (L.mk ip VALUE (Some RANGE_WITHIN_SECTION) ss a INVALID_INDEX
       INVALID_INDEX acc secs pos) (Some (ch "-"))
  = Ok (Continue,
        L.mk ip VALUE (Some RANGE_WITHIN_SECTION) ss INVALID_INDEX a
          INVALID_INDEX acc secs (pos + 1)).
Proof.
  intros Hpp Hpos Hop Ha.
  rewrite leave_VALUE; [|done..|by apply isdigit_ascii_false; [|left|]].
  etransitivity; [eapply loop_body_Next; [done|by left|done| |]|];
    [|shelve..].
  unfold do_fsm. locals_simpl. rewrite Hop. cbn [negb assert bind].
  assert ((a =? INVALID_INDEX) = false) as ->
    by (revert Ha; unfold_consts; lia).
  char_tests. change (negb (INVALID_INDEX =? INVALID_INDEX)) with false.
  reflexivity.
  Unshelve. all: done.
Qed.

(** The ranges of the section being read that are stored already, and
    what the locals hold of them. *)
Definition stored (done : list section) (open : section) : list section :=
  match open with
  | [] => done
  | _ => done ++ [open]
  end.

Definition started (open : section) : bool :=
  match open with
  | [] => true
  | _ => false
  end.

(** [range_start] once the text of the range [(a, b)] is read. *)
Definition start_read (a b : Z) : Z :=
  if a =? b then INVALID_INDEX else a.

Lemma turn_comma (ip : bool) (a b : Z) (acc : gset str)
    (done : list section) (open : section) (pos : Z) :
  past_prefix ip pos → 1 ≤ pos → is_format_onlypath opts = false →
  canonical 0 (open ++ [(a, b)]) →
  ¬ (a = 0 ∧ b = MAX_INDEX_VALUE) →
  len open ≠ max_ranges_per_section opts - 1 →
  loop_body isdigit opts
    (L.mk ip VALUE (Some RANGE_WITHIN_SECTION) (started open) b
       (start_read a b) INVALID_INDEX acc (stored done open) pos)
    (Some (ch ","))
  = Ok (Continue,
        L.mk ip VALUE (Some RANGE_WITHIN_SECTION) false INVALID_INDEX
          INVALID_INDEX INVALID_INDEX acc (done ++ [open ++ [(a, b)]])
          (pos + 1)).
Proof.
  intros Hpp Hpos Hop (_ & Hall & Hgaps) Hnw Hlen.
  rewrite leave_VALUE; [|done..|by apply isdigit_ascii_false; [|left|]].
  apply (loop_body_Next _
           (L.mk ip RANGE_WITHIN_SECTION None false INVALID_INDEX
              INVALID_INDEX INVALID_INDEX acc (done ++ [open ++ [(a, b)]])
              (pos + 1))
           _ VALUE (Some RANGE_WITHIN_SECTION));
    [done|by left|done| |done].
  unfold do_fsm. locals_simpl. rewrite Hop. cbn [negb assert bind].
  rewrite Forall_app, Forall_singleton in Hall.
  destruct Hall as [Hopen Hab]. unfold range_in in Hab. simpl in Hab.
  apply gaps_snoc in Hgaps as [_ Hgap].
  revert Hab Hnw. unfold start_read. unfold_consts. intros Hab Hnw.
  assert ((b =? 2147483648) = false) as -> by lia.
  char_tests.
  unfold get_num_ranges_in_last_section, finalize_range,
    check_range_correctness, apply_new_range,
    get_num_ranges_in_last_section.
  unfold_consts.
  destruct open as [|[pa pb] open' _] using rev_ind.
  - cbn [started stored]. locals_simpl. rewrite len_nil in Hlen.
    destruct (Z.eqb_spec a b) as [->|Hne]; run_tests; locals_simpl;
      run_tests; reflexivity.
  - assert (started (open' ++ [(pa, pb)]) = false) as ->
      by by destruct open'.
    assert (stored done (open' ++ [(pa, pb)]) = done ++ [open' ++ [(pa, pb)]])
      as -> by by destruct open'.
    rewrite Forall_app, Forall_singleton in Hopen.
    destruct Hopen as [_ Hp]. unfold range_in in Hp. simpl in Hp.
    revert Hp. unfold_consts. intros Hp.
    specialize (Hgap (pa, pb)). rewrite last_snoc in Hgap.
    specialize (Hgap eq_refl). simpl in Hgap.
    pose proof (len_nonneg open') as Hlen'.
    rewrite len_app, len_cons, len_nil in Hlen.
    locals_simpl. rewrite !(getitem_last_snoc done). cbn [bind].
    rewrite !len_app, !len_cons, !len_nil.
    destruct (is_format_unambiguous opts);
      destruct (Z.eqb_spec a b) as [->|Hne]; run_tests; locals_simpl;
      run_tests; reflexivity.
Qed.

Lemma turn_close (ip : bool) (a b : Z) (acc : gset str)
    (done : list section) (open : section) (pos : Z) :
  past_prefix ip pos → 1 ≤ pos → is_format_onlypath opts = false →
  canonical 0 (open ++ [(a, b)]) →
  ¬ (a = 0 ∧ b = MAX_INDEX_VALUE) →
  ¬ (a = b ∧ open = []) →
  loop_body isdigit opts
    (L.mk ip VALUE (Some RANGE_WITHIN_SECTION) (started open) b
       (start_read a b) INVALID_INDEX acc (stored done open) pos)
    (Some (ch "]"))
  = Ok (Continue,
        L.mk ip SECTION_END None (started open) b a b acc
          (stored done open) (pos + 1)).
Proof.
  intros Hpp Hpos Hop (_ & Hall & Hgaps) Hnw Hns.
  rewrite leave_VALUE; [|done..|by apply isdigit_ascii_false; [|right|]].
  apply (loop_body_Next _
           (L.mk ip RANGE_WITHIN_SECTION None (started open) b a b acc
              (stored done open) (pos + 1))
           _ SECTION_END None);
    [done|by left|done| |done].
  unfold do_fsm. locals_simpl. rewrite Hop. cbn [negb assert bind].
  rewrite Forall_app, Forall_singleton in Hall.
  destruct Hall as [Hopen Hab]. unfold range_in in Hab. simpl in Hab.
  apply gaps_snoc in Hgaps as [_ Hgap].
  revert Hab Hnw. unfold start_read. unfold_consts. intros Hab Hnw.
  assert ((b =? 2147483648) = false) as -> by lia.
  char_tests.
  unfold get_num_ranges_in_last_section, finalize_range,
    check_range_correctness, get_num_ranges_in_last_section.
  unfold_consts.
  destruct open as [|[pa pb] open' _] using rev_ind.
  - cbn [started stored]. locals_simpl.
    destruct (Z.eqb_spec a b) as [->|Hne]; [by destruct Hns|].
    run_tests; locals_simpl; run_tests; reflexivity.
  - assert (started (open' ++ [(pa, pb)]) = false) as ->
      by by destruct open'.
    assert (stored done (open' ++ [(pa, pb)]) = done ++ [open' ++ [(pa, pb)]])
      as -> by by destruct open'.
    rewrite Forall_app, Forall_singleton in Hopen.
    destruct Hopen as [_ Hp]. unfold range_in in Hp. simpl in Hp.
    revert Hp. unfold_consts. intros Hp.
    specialize (Hgap (pa, pb)). rewrite last_snoc in Hgap.
    specialize (Hgap eq_refl). simpl in Hgap.
    pose proof (len_nonneg open') as Hlen'.
    locals_simpl.
    destruct (is_format_unambiguous opts);
      destruct (Z.eqb_spec a b) as [->|Hne]; run_tests; locals_simpl;
      run_tests; reflexivity.
Qed.

(** What the locals hold once the text of the section [s] is read, before
    the character that ends the section: [section_started],
    [index_value], [range_start], [range_end] and [sections]. *)
Inductive section_read (done : list section)
    : section → bool → Z → Z → Z → list section → Prop :=
  | read_plain (v : Z) :
      0 ≤ v ≤ MAX_INDEX_VALUE →
      section_read done [(v, v)] true v INVALID_INDEX INVALID_INDEX done
  | read_wildcard :
      section_read done [(0, MAX_INDEX_VALUE)] true MAX_INDEX_VALUE 0
        INVALID_INDEX done
  | read_closed (open : section) (a b : Z) :
      canonical 0 (open ++ [(a, b)]) →
      section_read done (open ++ [(a, b)]) (started open) b a b
        (stored done open).

Lemma section_read_end (done : list section) (s : section) (ss : bool)
    (iv rs re : Z) (secs : list section) :
  section_read done s ss iv rs re secs →
  (iv =? INVALID_INDEX) = false
  ∧ len secs = len done + (if ss then 0 else 1)
  ∧ Forall (range_in 0) s
  ∧ ∀ ip st rst acc pos,
      ∃ wo l1,
        finalize_range (L.mk ip st rst ss iv rs re acc secs pos)
          = Ok (wo, l1)
        ∧ apply_new_range l1
          = Ok (L.mk ip st rst false iv INVALID_INDEX INVALID_INDEX acc
                  (done ++ [s]) pos).
Proof.
  intros [v Hv| |open a b (_ & Hall & Hgaps)]; unfold_consts.
  - split_and!; [lia|lia| |].
    { apply Forall_singleton. unfold range_in. unfold_consts. simpl. lia. }
    intros. eexists _, _. unfold finalize_range. locals_simpl.
    unfold_consts. run_tests. split; [reflexivity|].
    unfold apply_new_range. locals_simpl. unfold_consts. run_tests.
    reflexivity.
  - split_and!; [lia|lia| |].
    { apply Forall_singleton. unfold range_in. unfold_consts. simpl. lia. }
    intros. eexists _, _. unfold finalize_range. locals_simpl.
    unfold_consts. run_tests. split; [reflexivity|].
    unfold apply_new_range. locals_simpl. unfold_consts. run_tests.
    reflexivity.
  - pose proof Hall as Hall'.
    rewrite Forall_app, Forall_singleton in Hall.
    destruct Hall as [Hopen Hab]. unfold range_in in Hab. simpl in Hab.
    apply gaps_snoc in Hgaps as [_ Hgap].
    revert Hab. unfold_consts. intros Hab.
    split_and!; [lia| |done|].
    { destruct open; cbn [started stored]; [lia|].
      rewrite len_app, len_cons, len_nil. lia. }
    intros. eexists _, _. unfold finalize_range. locals_simpl.
    unfold_consts. run_tests. split; [reflexivity|].
    unfold apply_new_range. locals_simpl. unfold_consts.
    destruct open as [|[pa pb] open' _] using rev_ind.
    + cbn [started stored]. run_tests. reflexivity.
    + assert (started (open' ++ [(pa, pb)]) = false) as ->
        by by destruct open'.
      assert (stored done (open' ++ [(pa, pb)])
              = done ++ [open' ++ [(pa, pb)]]) as -> by by destruct open'.
      rewrite Forall_app, Forall_singleton in Hopen.
      destruct Hopen as [_ Hp]. unfold range_in in Hp. simpl in Hp.
      revert Hp. unfold_consts. intros Hp.
      specialize (Hgap (pa, pb)). rewrite last_snoc in Hgap.
      specialize (Hgap eq_refl). simpl in Hgap.
      run_tests. locals_simpl. run_tests. reflexivity.
Qed.

(** The two states in which the text of a section is left. *)
Definition at_end (st : State) (rst : option State) : Prop :=
  (st = SECTION_END ∧ rst = None) ∨ (st = VALUE ∧ rst = Some SECTION_END).

Lemma at_end_leave (st : State) (rst : option State) (ip ss : bool)
    (iv rs re : Z) (acc : gset str) (secs : list section) (pos : Z)
    (c : option char) :
  at_end st rst → past_prefix ip pos → 1 ≤ pos →
  match c with Some c' => isdigit c' = false | None => True end →
  loop_body isdigit opts (L.mk ip st rst ss iv rs re acc secs pos) c
  = loop_body isdigit opts
      (L.mk ip SECTION_END None ss iv rs re acc secs pos) c.
Proof.
  intros [[-> ->]|[-> ->]] Hpp Hpos Hc; [done|]. by apply leave_VALUE.
Qed.

Lemma turn_slash (st : State) (rst : option State) (ip ss : bool)
    (iv rs re : Z) (acc : gset str) (done secs : list section)
    (s : section) (pos : Z) :
  at_end st rst → past_prefix ip pos → 1 ≤ pos →
  section_read done s ss iv rs re secs →
  loop_body isdigit opts (L.mk ip st rst ss iv rs re acc secs pos)
    (Some (ch "/"))
  = Ok (Continue,
        L.mk ip SECTION_START None false INVALID_INDEX INVALID_INDEX
          INVALID_INDEX acc (done ++ [s]) (pos + 1)).
Proof.
  intros Hend Hpp Hpos Hread.
  rewrite at_end_leave;
    [|done..|by apply isdigit_ascii_false; [|left|]].
  destruct (section_read_end _ _ _ _ _ _ _ Hread)
    as (Hiv & _ & _ & Hfin).
  apply (loop_body_Next _
           (L.mk ip SECTION_END None false INVALID_INDEX INVALID_INDEX
              INVALID_INDEX acc (done ++ [s]) (pos + 1))
           _ SECTION_START None);
    [done|by left|done| |done].
  unfold do_fsm. locals_simpl. rewrite Hiv. char_tests.
  cbn [negb andb orb assert bind].
  destruct (Hfin ip SECTION_END None acc (pos + 1))
    as (wo & l1 & -> & Happ).
  cbn [bind]. rewrite Happ. reflexivity.
Qed.

Lemma turn_end (st : State) (rst : option State) (ip ss : bool)
    (iv rs re : Z) (acc : gset str) (done secs : list section)
    (s : section) (pos : Z) :
  at_end st rst → past_prefix ip pos → 1 ≤ pos →
  section_read done s ss iv rs re secs →
  len secs ≠ max_sections opts →
  loop_body isdigit opts (L.mk ip st rst ss iv rs re acc secs pos) None
  = Ok (Break,
        L.mk ip SECTION_END None false INVALID_INDEX INVALID_INDEX
          INVALID_INDEX acc (done ++ [s]) (pos + 1)).
Proof.
  intros Hend Hpp Hpos Hread Hlen.
  rewrite at_end_leave; [|done..].
  destruct (section_read_end _ _ _ _ _ _ _ Hread)
    as (Hiv & _ & _ & Hfin).
  apply (loop_body_SUCCESS _
           (L.mk ip SECTION_END None false INVALID_INDEX INVALID_INDEX
              INVALID_INDEX acc (done ++ [s]) (pos + 1)) None);
    [done..|].
  unfold do_fsm. locals_simpl. rewrite Hiv.
  rewrite (bool_decide_eq_true_2 (@None char = None)) by done.
  assert ((len secs =? max_sections opts) = false) as -> by lia.
  cbn [negb andb orb assert bind]. rewrite orb_true_r.
  destruct (Hfin ip SECTION_END None acc (pos + 1))
    as (wo & l1 & -> & Happ).
  cbn [bind]. rewrite Happ. reflexivity.
Qed.

Lemma turn_marker (st : State) (rst : option State) (ip ss : bool)
    (iv rs re : Z) (acc : gset str) (done secs : list section)
    (s : section) (pos : Z) (g : char) :
  at_end st rst → past_prefix ip pos → 1 ≤ pos →
  section_read done s ss iv rs re secs →
  Forall hardened_section done →
  isdigit g = false → g ≠ ch "/" → [g] ∈ acc →
  loop_body isdigit opts (L.mk ip st rst ss iv rs re acc secs pos)
    (Some g)
  = Ok (Continue,
        L.mk ip NEXT_SECTION None false INVALID_INDEX INVALID_INDEX
          INVALID_INDEX {[ [g] ]} (done ++ [shift <$> s]) (pos + 1)).
Proof.
  intros Hend Hpp Hpos Hread Hdone Hg Hsl Hacc.
  rewrite at_end_leave; [|done..].
  destruct (section_read_end _ _ _ _ _ _ _ Hread)
    as (Hiv & _ & Hs & Hfin).
  remember ({[ [g] ]} : gset str) as acc' eqn:Hacc'.
  apply (loop_body_Next _
           (L.mk ip SECTION_END None false INVALID_INDEX INVALID_INDEX
              INVALID_INDEX acc' (done ++ [shift <$> s]) (pos + 1))
           _ NEXT_SECTION None);
    [done|by right|done| |done].
  unfold do_fsm. rewrite <- Hacc'. locals_simpl. rewrite Hiv, c_is_Some.
  rewrite (bool_decide_eq_false_2 (g = ch "/")) by done.
  rewrite (bool_decide_eq_false_2 (Some g = None)) by done.
  cbn [negb andb orb assert bind].
  rewrite bool_decide_eq_true_2 by done.
  destruct (Hfin ip SECTION_END None acc' (pos + 1))
    as (wo & l1 & -> & Happ).
  cbn [bind]. rewrite Happ. cbn [bind]. locals_simpl.
  assert ((if len (done ++ [s]) >? 1
           then
             let* prev := getitem_last2 (done ++ [s]) in
             let* h := is_section_hardened prev in Ok (negb h)
           else Ok false) = Ok false) as ->.
  { destruct done as [|u done' _] using rev_ind; [done|].
    rewrite !len_app, !len_cons, !len_nil.
    pose proof (len_nonneg done').
    assert ((len done' + (1 + 0) + (1 + 0) >? 1) = true) as -> by lia.
    rewrite <- app_assoc. cbn [app]. rewrite getitem_last2_snoc.
    cbn [bind]. rewrite Forall_app, Forall_singleton in Hdone.
    destruct Hdone as [_ Hu].
    by rewrite (is_section_hardened_canonical HARDENED_INDEX_START)
      by auto. }
  cbn [bind]. unfold harden_last_section. locals_simpl.
  rewrite getitem_last_snoc. cbn [bind].
  rewrite harden_ranges_unhardened by done. cbn [bind].
  rewrite setitem_last_snoc. reflexivity.
Qed.

Lemma turn_next_slash (ip ss : bool) (acc : gset str)
    (secs : list section) (pos : Z) :
  past_prefix ip pos → 1 ≤ pos →
  loop_body isdigit opts
    (L.mk ip NEXT_SECTION None ss INVALID_INDEX INVALID_INDEX
       INVALID_INDEX acc secs pos) (Some (ch "/"))
  = Ok (Continue,
        L.mk ip SECTION_START None ss INVALID_INDEX INVALID_INDEX
          INVALID_INDEX acc secs (pos + 1)).
Proof.
  intros Hpp Hpos.
  apply (loop_body_Next _
           (L.mk ip NEXT_SECTION None ss INVALID_INDEX INVALID_INDEX
              INVALID_INDEX acc secs (pos + 1))
           _ SECTION_START None);
    [done|by left|done| |done].
  unfold do_fsm. locals_simpl. char_tests. reflexivity.
Qed.

Lemma turn_next_end (ip ss : bool) (acc : gset str)
    (secs : list section) (pos : Z) :
  past_prefix ip pos → 1 ≤ pos → len secs ≤ max_sections opts →
  loop_body isdigit opts
    (L.mk ip NEXT_SECTION None ss INVALID_INDEX INVALID_INDEX
       INVALID_INDEX acc secs pos) None
  = Ok (Break,
        L.mk ip NEXT_SECTION None ss INVALID_INDEX INVALID_INDEX
          INVALID_INDEX acc secs (pos + 1)).
Proof.
  intros Hpp Hpos Hlen.
  apply (loop_body_SUCCESS _
           (L.mk ip NEXT_SECTION None ss INVALID_INDEX INVALID_INDEX
              INVALID_INDEX acc secs (pos + 1)) None);
    [done..|].
  unfold do_fsm. locals_simpl.
  assert ((len secs >? max_sections opts) = false) as -> by lia.
  reflexivity.
Qed.

End turns.

(** *** The text of a range and of a section *)

Lemma gaps_app (xs ys : section) :
  gaps (xs ++ ys)
  ↔ gaps xs ∧ gaps ys
    ∧ ∀ p r, last xs = Some p → head ys = Some r → p.2 + 1 < r.1.
Proof.
  induction xs as [|x [|x' xs] IH]; simpl in *.
  - naive_solver.
  - destruct ys; simpl; naive_solver.
  - rewrite IH. naive_solver.
Qed.

Lemma join_cons_cons (sep p q : str) (ps : list str) :
  join sep (p :: q :: ps) = p ++ sep ++ join sep (q :: ps).
Proof. done. Qed.

Section section_text.

Variable isdigit : char → bool.
Hypothesis isdigit_ok : isdigit_spec isdigit.
Variable opts : options.

Lemma past_prefix_nonneg (ip : bool) (pos : Z) :
  past_prefix ip pos → 0 ≤ pos.
Proof. unfold past_prefix. destruct ip; lia. Qed.

Lemma len_str_int_pos (n : Z) : 0 ≤ n ≤ MAX_INDEX_VALUE → 1 ≤ len (str_int n).
Proof.
  intros Hn. destruct (run_str_int isdigit isdigit_ok opts n Hn)
    as (Hne & _).
  destruct (str_int n); [done|]. rewrite len_cons.
  pose proof (len_nonneg l). lia.
Qed.

Lemma run_range (ip ss : bool) (acc : gset str) (secs : list section)
    (pos a b : Z) :
  past_prefix ip pos → 1 ≤ pos → is_format_onlypath opts = false →
  0 ≤ a → a ≤ b → b ≤ MAX_INDEX_VALUE →
  ¬ (a = 0 ∧ b = MAX_INDEX_VALUE) →
  run isdigit opts
    (L.mk ip VALUE (Some RANGE_WITHIN_SECTION) ss INVALID_INDEX
       INVALID_INDEX INVALID_INDEX acc secs pos)
    (render_range (a, b))
  = Ok (L.mk ip VALUE (Some RANGE_WITHIN_SECTION) ss b (start_read a b)
          INVALID_INDEX acc secs (pos + len (render_range (a, b)))).
Proof.
  intros Hpp Hpos Hop Ha Hab Hb Hnw. unfold render_range, start_read.
  cbn [fst snd].
  destruct (Z.eqb_spec a b) as [->|Hne].
  { destruct (run_str_int isdigit isdigit_ok opts b) as (_ & _ & ->);
      [lia|done..]. }
  assert ((a =? 0) && (b =? MAX_INDEX_VALUE) = false) as -> by lia.
  destruct (run_str_int isdigit isdigit_ok opts a) as (_ & _ & Hra); [lia|].
  destruct (run_str_int isdigit isdigit_ok opts b) as (_ & _ & Hrb); [lia|].
  pose proof (len_str_int_pos a ltac:(lia)).
  pose proof (len_str_int_pos b ltac:(lia)).
  rewrite run_app, Hra by done. cbn [bind].
  change (text "-") with [ch "-"]. cbn [app run].
  rewrite (turn_dash isdigit isdigit_ok opts);
    [|apply past_prefix_add; [done|lia]|lia|done|lia].
  cbn [bind]. rewrite Hrb; [|do 2 (apply past_prefix_add; [|lia]); done|done].
  do 2 f_equal. rewrite len_app, len_cons. lia.
Qed.

Lemma started_snoc (open : section) (r : range) :
  started (open ++ [r]) = false.
Proof. by destruct open. Qed.

Lemma stored_snoc (done : list section) (open : section) (r : range) :
  stored done (open ++ [r]) = done ++ [open ++ [r]].
Proof. by destruct open. Qed.

(** The ranges between the brackets, after the ranges [open] of the
    section that are stored already. *)
Lemma run_ranges (ip : bool) (acc : gset str) (done : list section)
    (rest open : section) (pos : Z) :
  past_prefix ip pos → 1 ≤ pos → is_format_onlypath opts = false →
  rest ≠ [] →
  Forall (range_in 0) (open ++ rest) → gaps (open ++ rest) →
  ranges_limit opts (len (open ++ rest)) →
  (open = [] → ∀ r, rest = [r] → is_open_range r = true) →
  ∃ open' a b,
    open ++ rest = open' ++ [(a, b)] ∧
    run isdigit opts
      (L.mk ip VALUE (Some RANGE_WITHIN_SECTION) (started open)
         INVALID_INDEX INVALID_INDEX INVALID_INDEX acc (stored done open)
         pos)
      (join (text ",") (render_range <$> rest) ++ text "]")
    = Ok (L.mk ip SECTION_END None (started open') b a b acc
            (stored done open')
            (pos + len (join (text ",") (render_range <$> rest)
                        ++ text "]"))).
Proof.
  revert open pos.
  induction rest as [|[a b] rest IH];
    intros open pos Hpp Hpos Hop Hne Hall Hgaps Hlim Hone; [done|].
  pose proof Hall as Hall'. pose proof Hgaps as Hgaps'.
  rewrite Forall_app, Forall_cons in Hall'.
  destruct Hall' as (Hopen & Hab & Hrest).
  unfold range_in in Hab. cbn [fst snd] in Hab.
  apply gaps_app in Hgaps' as (Hgopen & Hgrest & Hgap).
  assert (0 < a ∨ open = []) as Hfirst.
  { destruct open as [|p open' _] using rev_ind; [by right|left].
    specialize (Hgap p (a, b)). rewrite last_snoc in Hgap.
    specialize (Hgap eq_refl eq_refl).
    rewrite Forall_app, Forall_singleton in Hopen.
    destruct Hopen as [_ Hp]. unfold range_in in Hp. simpl in Hgap. lia. }
  assert (canonical 0 (open ++ [(a, b)])) as Hcan.
  { split_and!.
    - by destruct open.
    - rewrite Forall_app, Forall_singleton. done.
    - apply gaps_app. split_and!; [done|done|].
      intros p r Hp [= <-]. by apply Hgap. }
  destruct rest as [|[a' b'] rest].
  - exists open, a, b. split; [done|].
    assert (¬ (a = 0 ∧ b = MAX_INDEX_VALUE) ∧ ¬ (a = b ∧ open = []))
      as [Hnw Hns].
    { destruct open as [|p open'].
      - specialize (Hone eq_refl _ eq_refl). unfold is_open_range in Hone.
        cbn [fst snd] in Hone. split; lia.
      - destruct Hfirst as [? | ?]; [|done]. split; [lia|].
        by intros [_ ?]. }
    cbn [fmap list_fmap join]. rewrite run_app.
    rewrite run_range by (done || lia). cbn [bind].
    change (text "]") with [ch "]"]. cbn [run].
    pose proof (len_nonneg (render_range (a, b))).
    rewrite (turn_close isdigit isdigit_ok opts);
      [|by apply past_prefix_add|lia|done..].
    cbn [bind]. do 2 f_equal. rewrite len_app, len_cons, len_nil. lia.
  - assert (b + 1 < a' ∧ a' ≤ MAX_INDEX_VALUE) as [Hnext Ha'].
    { simpl in Hgrest. rewrite !Forall_cons in Hrest.
      destruct Hrest as [Hr' _]. unfold range_in in Hr'. simpl in Hr'.
      lia. }
    destruct (IH (open ++ [(a, b)])
                (pos + len (render_range (a, b)) + 1))
      as (open' & a1 & b1 & Heq & Hrun).
    { pose proof (len_nonneg (render_range (a, b))).
      apply past_prefix_add; [|lia]. by apply past_prefix_add. }
    { pose proof (len_nonneg (render_range (a, b))). lia. }
    { done. }
    { done. }
    { by rewrite <- app_assoc. }
    { by rewrite <- app_assoc. }
    { by rewrite <- app_assoc. }
    { intros Hnil. by destruct open. }
    exists open', a1, b1. split; [by rewrite <- Heq, <- app_assoc|].
    cbn [fmap list_fmap]. rewrite join_cons_cons, <- !app_assoc.
    rewrite run_app, run_range by (done || lia). cbn [bind].
    change (text ",") with [ch ","]. cbn [app run].
    pose proof (len_nonneg (render_range (a, b))).
    rewrite (turn_comma isdigit isdigit_ok opts);
      [|by apply past_prefix_add|lia|done|done|lia|].
    2:{ intros Heq'. apply (Hlim (len open)); [|done].
        rewrite len_app, !len_cons. pose proof (len_nonneg open).
        pose proof (len_nonneg rest). lia. }
    cbn [bind].
    rewrite started_snoc, stored_snoc in Hrun.
    cbn [fmap list_fmap] in Hrun. change (text ",") with [ch ","] in Hrun.
    rewrite Hrun.
    do 2 f_equal. rewrite !len_app, !len_cons, !len_app. lia.
Qed.

(** The text of a section without its marker, read from the start of a
    section. *)
Lemma run_section_body (ip ss0 : bool) (acc : gset str)
    (done : list section) (pos : Z) (s : section) :
  past_prefix ip pos →
  canonical 0 s → ranges_limit opts (len s) → onlypath_ok opts s →
  len done ≠ max_sections opts →
  ∃ st rst ss iv rs re secs,
    at_end st rst ∧ section_read done s ss iv rs re secs
    ∧ 1 ≤ len (render_section [] s)
    ∧ run isdigit opts
        (L.mk ip SECTION_START None ss0 INVALID_INDEX INVALID_INDEX
           INVALID_INDEX acc done pos)
        (render_section [] s)
      = Ok (L.mk ip st rst ss iv rs re acc secs
              (pos + len (render_section [] s))).
Proof.
  intros Hpp (Hne & Hall & Hgaps) Hlim Honly Hlen.
  pose proof (past_prefix_nonneg _ _ Hpp) as Hpos0.
  unfold render_section.
  destruct ((1 <? length s)%nat || existsb is_open_range s) eqn:Hmany.
  - assert (is_format_onlypath opts = false) as Hop.
    { destruct (is_format_onlypath opts) eqn:Hop; [|done].
      destruct (Honly Hop) as [v ->]. simpl in Hmany.
      unfold is_open_range in Hmany. simpl in Hmany. lia. }
    destruct (run_ranges ip acc done s [] (pos + 1))
      as (open' & a & b & Heq & Hrun); try done.
    { by apply past_prefix_add. }
    { lia. }
    { intros _ r ->. simpl in Hmany. by rewrite orb_false_r in Hmany. }
    cbn [app] in Heq. subst s.
    eexists _, _, _, _, _, _, _. split_and!.
    + by left.
    + by apply read_closed.
    + change (text "[") with [ch "["]. cbn [app]. rewrite len_cons.
      pose proof (len_nonneg
                    (join (text ",") (render_range <$> open' ++ [(a, b)])
                     ++ text "]" ++ [])). lia.
    + change (text "[") with [ch "["]. cbn [app run].
      rewrite (turn_start_bracket isdigit opts) by done. cbn [bind].
      rewrite app_nil_r. cbn [started stored] in Hrun. rewrite Hrun.
      do 2 f_equal. rewrite len_cons. lia.
  - apply orb_false_iff in Hmany as [Hone Hopen].
    destruct s as [|[a b] [|r s]]; [done| |simpl in Hone; lia].
    simpl in Hopen. rewrite orb_false_r in Hopen.
    rewrite Forall_singleton in Hall. unfold range_in in Hall.
    cbn [fst snd] in Hall.
    cbn [fmap list_fmap join app]. rewrite app_nil_r.
    unfold render_range, is_open_range in *. cbn [fst snd] in *.
    destruct (Z.eqb_spec a b) as [->|Hab].
    + exists VALUE, (Some SECTION_END), true, b, INVALID_INDEX,
        INVALID_INDEX, done.
      split_and!.
      * by right.
      * apply read_plain. lia.
      * apply len_str_int_pos. lia.
      * apply run_start_digits; [done..|lia|done].
    + assert (a = 0 ∧ b = MAX_INDEX_VALUE) as [-> ->] by lia.
      assert (is_format_onlypath opts = false) as Hop.
      { destruct (is_format_onlypath opts) eqn:Hop; [|done].
        destruct (Honly Hop) as [v Hv]. injection Hv as Hv1 Hv2.
        revert Hv1 Hv2. unfold_consts. lia. }
      change ((0 =? 0) && (MAX_INDEX_VALUE =? MAX_INDEX_VALUE)) with true.
      cbv iota.
      exists SECTION_END, None, true, MAX_INDEX_VALUE, 0, INVALID_INDEX,
        done.
      split_and!.
      * by left.
      * apply read_wildcard.
      * done.
      * change (text "*") with [ch "*"]. cbn [run].
        by rewrite (turn_start_star isdigit opts).
Qed.

End section_text.

(** *** The text of a template *)

Lemma render_section_marker (hm : str) (rs : list range) :
  render_section hm rs = render_section [] rs ++ hm.
Proof. unfold render_section. by rewrite !app_nil_r, <- !app_assoc. Qed.

Lemma unharden_0 (s : section) : unharden 0 <$> s = s.
Proof.
  induction s as [|[a b] s IH]; [done|]. cbn [fmap list_fmap] in *.
  rewrite IH. unfold unharden. simpl. by rewrite !Z.sub_0_r.
Qed.

Lemma shift_unharden (s : section) :
  shift <$> (unharden HARDENED_INDEX_START <$> s) = s.
Proof.
  induction s as [|[a b] s IH]; [done|]. cbn [fmap list_fmap] in *.
  rewrite IH. unfold shift, unharden. simpl. f_equal. f_equal; lia.
Qed.

Lemma canonical_unharden (s : section) :
  canonical HARDENED_INDEX_START s →
  canonical 0 (unharden HARDENED_INDEX_START <$> s).
Proof.
  unfold canonical. intros (Hne & Hall & Hg). split_and!.
  - by destruct s.
  - apply Forall_fmap. eapply Forall_impl; [done|].
    unfold range_in, unharden. simpl. lia.
  - clear Hne Hall. induction s as [|r1 [|r2 s] IH]; simpl in *; try done.
    split; [|naive_solver]. lia.
Qed.

Lemma join_app (sep : str) (xs ys : list str) :
  xs ≠ [] → ys ≠ [] →
  join sep (xs ++ ys) = join sep xs ++ sep ++ join sep ys.
Proof.
  intros Hxs Hys. induction xs as [|x [|x' xs] IH]; [done| |].
  - destruct ys; [done|]. done.
  - cbn [app] in *. rewrite !join_cons_cons, IH by done.
    by rewrite <- !app_assoc.
Qed.

Section template_text.

Variable isdigit : char → bool.
Hypothesis isdigit_ok : isdigit_spec isdigit.
Variable opts : options.

(** The locals once the text of the sections [all] is read, the last of
    them hardened ([h]) or not. *)
Inductive after (ip : bool) (acc : gset str) (all : list section)
    (pos : Z) : bool → locals → Prop :=
  | after_unhardened st rst ss iv rs re secs done s :
      at_end st rst → section_read done s ss iv rs re secs →
      all = done ++ [s] →
      after ip acc all pos false
        (L.mk ip st rst ss iv rs re acc secs pos)
  | after_hardened :
      after ip acc all pos true
        (L.mk ip NEXT_SECTION None false INVALID_INDEX INVALID_INDEX
           INVALID_INDEX acc all pos).

Lemma after_pos (ip : bool) (acc : gset str) (all : list section)
    (pos pos' : Z) (h : bool) (l : locals) :
  after ip acc all pos h l → L.position l = pos.
Proof. by intros []. Qed.

Lemma after_slash (ip : bool) (acc : gset str) (all : list section)
    (pos : Z) (h : bool) (l : locals) :
  after ip acc all pos h l → past_prefix ip pos → 1 ≤ pos →
  loop_body isdigit opts l (Some (ch "/"))
  = Ok (Continue,
        L.mk ip SECTION_START None false INVALID_INDEX INVALID_INDEX
          INVALID_INDEX acc all (pos + 1)).
Proof.
  intros [st rst ss iv rs re secs done s Hend Hread ->|] Hpp Hpos.
  - by eapply turn_slash.
  - by apply turn_next_slash.
Qed.

Lemma after_end (ip : bool) (acc : gset str) (all : list section)
    (pos : Z) (h : bool) (l : locals) :
  after ip acc all pos h l → past_prefix ip pos → 1 ≤ pos →
  (h = false →
   len all - 1 ≠ max_sections opts
   ∧ ∀ s, last all = Some s → 2 ≤ len s → len all ≠ max_sections opts) →
  (h = true → len all ≤ max_sections opts) →
  ∃ l', loop_body isdigit opts l None = Ok (Break, l')
        ∧ L.sections l' = all ∧ L.is_partial l' = ip
        ∧ L.accepted_hardened_markers l' = acc.
Proof.
  intros [st rst ss iv rs re secs done s Hend Hread ->|] Hpp Hpos Hu Hh.
  - destruct (Hu eq_refl) as [Hlim Hlast].
    assert (len secs ≠ max_sections opts) as Hsecs.
    { destruct (section_read_end _ _ _ _ _ _ _ Hread) as (_ & -> & _).
      rewrite len_app, len_cons, len_nil in Hlim, Hlast.
      destruct Hread as [v Hv| |open a b Hcan]; [lia..|].
      destruct open as [|p open]; cbn [started]; [lia|].
      specialize (Hlast ((p :: open) ++ [(a, b)])).
      rewrite last_snoc in Hlast. specialize (Hlast eq_refl).
      rewrite len_app, !len_cons, len_nil in Hlast.
      pose proof (len_nonneg open). lia. }
    eexists. split; [by eapply turn_end|]. done.
  - eexists. split; [apply turn_next_end; auto|]. done.
Qed.

Lemma run_item_u (ip ss0 : bool) (acc : gset str) (done : list section)
    (pos : Z) (s : section) :
  past_prefix ip pos → section_ok opts 0 s →
  len done ≠ max_sections opts →
  ∃ l',
    run isdigit opts
      (L.mk ip SECTION_START None ss0 INVALID_INDEX INVALID_INDEX
         INVALID_INDEX acc done pos)
      (render_section [] (unharden 0 <$> s)) = Ok l'
    ∧ after ip acc (done ++ [s])
        (pos + len (render_section [] (unharden 0 <$> s))) false l'
    ∧ 1 ≤ len (render_section [] (unharden 0 <$> s)).
Proof.
  intros Hpp (Hcan & Hlim & Honly) Hlen. rewrite unharden_0.
  destruct (run_section_body isdigit isdigit_ok opts ip ss0 acc done pos s)
    as (st & rst & ss & iv & rs & re & secs & Hend & Hread & Hlen' & ->);
    [done..|].
  eexists. split; [done|]. split; [|done]. by econstructor.
Qed.

Lemma run_item_h (ip ss0 : bool) (acc : gset str) (done : list section)
    (pos : Z) (s : section) (g : char) :
  past_prefix ip pos → section_ok opts HARDENED_INDEX_START s →
  len done ≠ max_sections opts →
  Forall hardened_section done →
  isdigit g = false → g ≠ ch "/" → [g] ∈ acc →
  ∃ l',
    run isdigit opts
      (L.mk ip SECTION_START None ss0 INVALID_INDEX INVALID_INDEX
         INVALID_INDEX acc done pos)
      (render_section [g] (unharden HARDENED_INDEX_START <$> s)) = Ok l'
    ∧ after ip {[ [g] ]} (done ++ [s])
        (pos + len (render_section [g]
                      (unharden HARDENED_INDEX_START <$> s))) true l'
    ∧ 1 ≤ len (render_section [g] (unharden HARDENED_INDEX_START <$> s)).
Proof.
  intros Hpp (Hcan & Hlim & Honly) Hlen Hdone Hg Hsl Hacc.
  rewrite render_section_marker.
  set (s' := unharden HARDENED_INDEX_START <$> s).
  destruct (run_section_body isdigit isdigit_ok opts ip ss0 acc done pos s')
    as (st & rst & ss & iv & rs & re & secs & Hend & Hread & Hlen' & Hrun);
    [done|by apply canonical_unharden| | |done|].
  { unfold s', len. by rewrite length_fmap. }
  { intros Ho. destruct (Honly Ho) as [v ->]. by eexists. }
  pose proof (past_prefix_nonneg _ _ Hpp).
  eexists. split_and!.
  - rewrite run_app, Hrun. cbn [bind run].
    rewrite (turn_marker isdigit opts _ _ _ _ _ _ _ _ done _ s');
      [|done|apply past_prefix_add; [done|lia]|lia|done..].
    cbn [bind]. unfold s'. rewrite shift_unharden. reflexivity.
  - rewrite len_app, len_cons, len_nil.
    replace (pos + (len (render_section [] s') + (1 + 0)))
      with (pos + len (render_section [] s') + 1) by lia.
    constructor.
  - rewrite len_app, len_cons, len_nil. lia.
Qed.

(** How [__str__] writes an unhardened and a hardened section. *)
Definition render_u : section → str :=
  render_section [] ∘ fmap (unharden 0).

Definition render_h (hm : str) : section → str :=
  render_section hm ∘ fmap (unharden HARDENED_INDEX_START).

Lemma run_join_u (ip : bool) (acc : gset str) (us dn : list section)
    (pos : Z) (ss0 : bool) :
  us ≠ [] → past_prefix ip pos →
  Forall (section_ok opts 0) us →
  sections_limit opts (len dn + len us) →
  ∃ l',
    run isdigit opts
      (L.mk ip SECTION_START None ss0 INVALID_INDEX INVALID_INDEX
         INVALID_INDEX acc dn pos)
      (join (text "/") (render_u <$> us)) = Ok l'
    ∧ after ip acc (dn ++ us)
        (pos + len (join (text "/") (render_u <$> us))) false l'
    ∧ 1 ≤ len (join (text "/") (render_u <$> us)).
Proof.
  revert dn pos ss0.
  induction us as [|s us IH]; intros dn pos ss0 Hne Hpp Hus Hlim; [done|].
  apply Forall_cons in Hus as [Hs Hus].
  assert (len dn ≠ max_sections opts) as Hdone.
  { apply Hlim. rewrite len_cons. pose proof (len_nonneg dn).
    pose proof (len_nonneg us). lia. }
  destruct (run_item_u ip ss0 acc dn pos s) as (l1 & Hrun1 & Haft1 & Hlen1);
    [done..|].
  destruct us as [|s' us]; [by exists l1|].
  cbn [fmap list_fmap]. rewrite join_cons_cons.
  pose proof (past_prefix_nonneg _ _ Hpp).
  destruct (IH (dn ++ [s]) (pos + len (render_u s) + 1) false)
    as (l2 & Hrun2 & Haft2 & Hlen2); [done| |done| |].
  { do 2 (apply past_prefix_add; [|unfold render_u, compose; lia]). done. }
  { rewrite len_app, len_cons, len_nil. rewrite !len_cons in Hlim.
    rewrite !len_cons.
    replace (len dn + (1 + 0) + (1 + len us))
      with (len dn + (1 + (1 + len us))) by lia. done. }
  exists l2. split_and!.
  - rewrite run_app. unfold render_u at 1. unfold compose. rewrite Hrun1.
    cbn [bind]. change (text "/") with [ch "/"] at 1. cbn [app run].
    rewrite (after_slash _ _ _ _ _ _ Haft1);
      [|apply past_prefix_add; [done|lia]|lia].
    cbn [bind]. exact Hrun2.
  - rewrite <- app_assoc in Haft2. cbn [app fmap list_fmap] in Haft2.
    rewrite !len_app. change (len (text "/")) with 1.
    rewrite !Z.add_assoc. exact Haft2.
  - rewrite !len_app. change (len (text "/")) with 1.
    cbn [fmap list_fmap] in Hlen2. unfold render_u at 1. unfold compose.
    lia.
Qed.

Lemma run_join_h (ip : bool) (g : char) (hs dn : list section)
    (acc : gset str) (pos : Z) (ss0 : bool) :
  hs ≠ [] → past_prefix ip pos →
  Forall (section_ok opts HARDENED_INDEX_START) hs →
  sections_limit opts (len dn + len hs) →
  Forall hardened_section dn →
  isdigit g = false → g ≠ ch "/" → [g] ∈ acc →
  ∃ l',
    run isdigit opts
      (L.mk ip SECTION_START None ss0 INVALID_INDEX INVALID_INDEX
         INVALID_INDEX acc dn pos)
      (join (text "/") (render_h [g] <$> hs)) = Ok l'
    ∧ after ip {[ [g] ]} (dn ++ hs)
        (pos + len (join (text "/") (render_h [g] <$> hs))) true l'
    ∧ 1 ≤ len (join (text "/") (render_h [g] <$> hs)).
Proof.
  intros Hne Hpp Hhs Hlim Hdone Hg Hsl. revert dn acc pos ss0 Hpp Hlim Hdone.
  induction hs as [|s hs IH]; intros dn acc pos ss0 Hpp Hlim Hdone Hacc;
    [done|].
  apply Forall_cons in Hhs as [Hs Hhs].
  assert (len dn ≠ max_sections opts) as Hlen.
  { apply Hlim. rewrite len_cons. pose proof (len_nonneg dn).
    pose proof (len_nonneg hs). lia. }
  destruct (run_item_h ip ss0 acc dn pos s g)
    as (l1 & Hrun1 & Haft1 & Hlen1); [done..|].
  destruct hs as [|s' hs]; [by exists l1|].
  cbn [fmap list_fmap]. rewrite join_cons_cons.
  pose proof (past_prefix_nonneg _ _ Hpp).
  destruct (IH ltac:(done) Hhs (dn ++ [s]) {[ [g] ]}
              (pos + len (render_h [g] s) + 1) false)
    as (l2 & Hrun2 & Haft2 & Hlen2).
  { do 2 (apply past_prefix_add; [|unfold render_h, compose; lia]). done. }
  { rewrite len_app, len_cons, len_nil. rewrite !len_cons in Hlim.
    rewrite !len_cons.
    replace (len dn + (1 + 0) + (1 + len hs))
      with (len dn + (1 + (1 + len hs))) by lia. done. }
  { apply Forall_app. split; [done|]. apply Forall_singleton. apply Hs. }
  { set_solver. }
  exists l2. split_and!.
  - rewrite run_app. unfold render_h at 1. unfold compose. rewrite Hrun1.
    cbn [bind]. change (text "/") with [ch "/"] at 1. cbn [app run].
    rewrite (after_slash _ _ _ _ _ _ Haft1);
      [|apply past_prefix_add; [done|lia]|lia].
    cbn [bind]. exact Hrun2.
  - rewrite <- app_assoc in Haft2. cbn [app fmap list_fmap] in Haft2.
    rewrite !len_app. change (len (text "/")) with 1.
    rewrite !Z.add_assoc. exact Haft2.
  - rewrite !len_app. change (len (text "/")) with 1.
    cbn [fmap list_fmap] in Hlen2. unfold render_h at 1. unfold compose.
    lia.
Qed.

Lemma run_render_sections (ip : bool) (g : char) (hs us : list section)
    (acc : gset str) (pos : Z) (ss0 : bool) :
  hs ++ us ≠ [] → past_prefix ip pos →
  Forall (section_ok opts HARDENED_INDEX_START) hs →
  Forall (section_ok opts 0) us →
  sections_limit opts (len (hs ++ us)) →
  (hs ≠ [] → isdigit g = false ∧ g ≠ ch "/" ∧ [g] ∈ acc) →
  ∃ l',
    run isdigit opts
      (L.mk ip SECTION_START None ss0 INVALID_INDEX INVALID_INDEX
         INVALID_INDEX acc [] pos)
      (join (text "/") ((render_h [g] <$> hs) ++ (render_u <$> us)))
    = Ok l'
    ∧ after ip (match hs with [] => acc | _ => {[ [g] ]} end) (hs ++ us)
        (pos + len (join (text "/")
                      ((render_h [g] <$> hs) ++ (render_u <$> us))))
        (bool_decide (us = [])) l'
    ∧ 1 ≤ len (join (text "/")
                 ((render_h [g] <$> hs) ++ (render_u <$> us))).
Proof.
  intros Hne Hpp Hhs Hus Hlim Hg. rewrite len_app in Hlim.
  destruct (decide (hs = [])) as [->|Hhne].
  { cbn [app fmap list_fmap]. cbn [app] in Hne.
    rewrite bool_decide_eq_false_2 by done.
    by apply (run_join_u ip acc us [] pos ss0). }
  destruct (Hg Hhne) as (Hgd & Hgs & Hacc).
  assert ((match hs with [] => acc | _ => {[ [g] ]} end) = {[ [g] ]})
    as -> by by destruct hs.
  destruct (decide (us = [])) as [->|Hune].
  { cbn [fmap list_fmap]. rewrite !app_nil_r.
    rewrite bool_decide_eq_true_2 by done.
    apply (run_join_h ip g hs [] acc pos ss0); try done.
    rewrite len_nil, Z.add_0_r in Hlim. by rewrite len_nil, Z.add_0_l. }
  rewrite bool_decide_eq_false_2 by done.
  destruct (run_join_h ip g hs [] acc pos ss0)
    as (l1 & Hrun1 & Haft1 & Hlen1); try done.
  { cbn [app]. rewrite len_nil. intros j Hj. apply Hlim.
    pose proof (len_nonneg us). lia. }
  cbn [app] in Haft1.
  pose proof (past_prefix_nonneg _ _ Hpp).
  destruct (run_join_u ip {[ [g] ]} us hs
              (pos + len (join (text "/") (render_h [g] <$> hs)) + 1) false)
    as (l2 & Hrun2 & Haft2 & Hlen2); try done.
  { do 2 (apply past_prefix_add; [|lia]). done. }
  exists l2.
  assert (render_h [g] <$> hs ≠ [] ∧ render_u <$> us ≠ []) as [? ?].
  { by destruct hs, us. }
  rewrite join_app by done. split_and!.
  - rewrite run_app, Hrun1. cbn [bind].
    change (text "/") with [ch "/"] at 1. cbn [app run].
    rewrite (after_slash _ _ _ _ _ _ Haft1);
      [|apply past_prefix_add; [done|lia]|lia].
    cbn [bind]. exact Hrun2.
  - rewrite !len_app. change (len (text "/")) with 1.
    rewrite !Z.add_assoc. exact Haft2.
  - rewrite !len_app. change (len (text "/")) with 1. lia.
Qed.

Lemma run_prefix (acc : gset str) (tpl : str) :
  run isdigit opts
    (L.mk true SECTION_START None true INVALID_INDEX INVALID_INDEX
       INVALID_INDEX acc [] 0)
    (text "m" ++ text "/" ++ tpl)
  = run isdigit opts
      (L.mk false SECTION_START None true INVALID_INDEX INVALID_INDEX
         INVALID_INDEX acc [] 2) tpl.
Proof.
  change (text "m") with [ch "m"]. change (text "/") with [ch "/"].
  cbn [app run]. unfold loop_body at 1. locals_simpl. char_tests.
  cbn [andb bind]. change (0 + 1 =? 1) with true. cbv iota. cbn [bind].
  unfold loop_body at 1. locals_simpl. char_tests.
  change (0 + 1 + 1 =? 1) with false. change (0 + 1 + 1 =? 2) with true.
  cbn [andb negb bind]. done.
Qed.

End template_text.

(** *** The round trip *)

(** The hardened markers of the options are no digits and not the
    separator. *)
Definition ordinary_markers (isdigit : char → bool) (opts : options)
    : Prop :=
  ∀ g, [g] ∈ set_of_pair (hardened_markers opts) →
       isdigit g = false ∧ g ≠ ch "/".

Lemma ordinary_markers_default (isdigit : char → bool) :
  isdigit_spec isdigit → ordinary_markers isdigit default_options.
Proof.
  intros Hd g Hg. unfold set_of_pair in Hg.
  cbn [hardened_markers default_options HARDENED_MARKERS fst snd] in Hg.
  apply elem_of_union in Hg as [Hg|Hg]; apply elem_of_singleton in Hg.
  - change (text "h") with [ch "h"] in Hg. injection Hg as ->.
    split; [|done]. apply isdigit_ascii_false; [done|by right|done].
  - change (text "'") with [ch "'"] in Hg. injection Hg as ->.
    split; [|done]. apply isdigit_ascii_false; [done|by left|done].
Qed.

(** X10. Parsing the text that [__str__] writes for a parsed template,
    with the options of the first parse, gives the template back. *)
Theorem parse_str (isdigit : char → bool) (opts : options) (tpl : str)
    (t : BIP32Template) :
  isdigit_spec isdigit →
  ordinary_markers isdigit opts →
  parse isdigit opts tpl = Ok t →
  ∃ s, __str__ t = Ok s ∧ parse isdigit opts s = Ok t.
Proof.
  intros Hd Hord Hparse.
  destruct (parse_Ok isdigit Hd opts tpl t Hparse)
    as (l & Hloop & HF & Ht & _).
  destruct HF as (hs & us & Hsec & Hne & Hhs & Hus & Hm & Hlim & Hh & Hu).
  assert (∃ g, (hs ≠ [] → L.accepted_hardened_markers l = {[ [g] ]}
                          ∧ isdigit g = false ∧ g ≠ ch "/"
                          ∧ [g] ∈ set_of_pair (hardened_markers opts))
               ∧ (hs = [] → L.accepted_hardened_markers l
                            = set_of_pair (hardened_markers opts)))
    as (g & Hg & Hg0).
  { destruct Hm as [[Hacc ->]|(g & Hacc & Hin & Hhne)].
    - exists (ch "h"). done.
    - exists g. destruct (Hord g Hin). by split. }
  exists (render (is_partial t) (hardened_marker t) hs us).
  split.
  { apply str_render; subst t; cbn [sections hardened_marker]; try done.
    - eapply Forall_impl; [done|]. by intros s [? _].
    - eapply Forall_impl; [done|]. by intros s [? _].
    - intros Hhne. destruct (Hg Hhne) as (-> & _).
      by rewrite marker_of_singleton. }
  assert (render (is_partial t) (hardened_marker t) hs us
          = join (text "/")
              ((if L.is_partial l then [] else [text "m"]) ++
               (render_h [g] <$> hs) ++ (render_u <$> us))) as ->.
  { unfold render. subst t. cbn [is_partial hardened_marker].
    do 3 f_equal. destruct (decide (hs = [])) as [->|Hhne]; [done|].
    destruct (Hg Hhne) as (-> & _). by rewrite marker_of_singleton. }
  rewrite <- Hparse. unfold parse. rewrite Hloop, loop_run. cbn [bind].
  destruct (run_render_sections isdigit Hd opts (L.is_partial l) g hs us
              (set_of_pair (hardened_markers opts))
              (if L.is_partial l then 0 else 2) true)
    as (l1 & Hrun & Haft & Hlen); try done.
  { by destruct (L.is_partial l). }
  { intros Hhne. by destruct (Hg Hhne) as (_ & ? & ? & ?). }
  assert (run isdigit opts (initial_locals opts)
            (join (text "/")
               ((if L.is_partial l then [] else [text "m"]) ++
                (render_h [g] <$> hs) ++ (render_u <$> us))) = Ok l1)
    as ->.
  { unfold initial_locals. destruct (L.is_partial l); [done|].
    cbn [app].
    destruct ((render_h [g] <$> hs) ++ (render_u <$> us)) as [|p ps] eqn:E.
    { by destruct hs, us. }
    rewrite join_cons_cons, run_prefix. done. }
  cbn [bind]. unfold finish.
  assert (past_prefix (L.is_partial l)
            ((if L.is_partial l then 0 else 2)
             + len (join (text "/")
                      ((render_h [g] <$> hs) ++ (render_u <$> us)))))
    as Hpp.
  { apply past_prefix_add; [by destruct (L.is_partial l)|lia]. }
  destruct (after_end isdigit opts _ _ _ _ _ _ Haft Hpp)
    as (l2 & -> & Hsec2 & Hip2 & Hacc2).
  { destruct (L.is_partial l); lia. }
  { intros Hb. apply bool_decide_eq_false in Hb. split.
    - apply Hlim.
      assert (1 ≤ len (hs ++ us)); [|lia]. clear -Hne.
      destruct (hs ++ us) as [|x xs]; [done|]. rewrite len_cons.
      pose proof (len_nonneg xs). lia.
    - intros s Hs. apply Hu. rewrite last_app in Hs.
      destruct (last us) eqn:E; [done|].
      by apply last_None in E. }
  { intros Hb. apply bool_decide_eq_true in Hb. subst us.
    rewrite app_nil_r. by apply Hh. }
  cbn [bind]. rewrite Hsec2, Hip2, Hacc2, Hsec.
  destruct (decide (hs = [])) as [->|Hhne].
  - by rewrite Hg0.
  - destruct (Hg Hhne) as (-> & _). by destruct hs.
Qed.

Lemma parse_str_witness :
  isdigit_spec isdigit_ascii
  ∧ ordinary_markers isdigit_ascii default_options
  ∧ parse isdigit_ascii default_options example_text = Ok example_template
  ∧ ∃ s, __str__ example_template = Ok s
         ∧ parse isdigit_ascii default_options s = Ok example_template.
Proof.
  split_and!;
    [exact isdigit_ascii_spec
    |exact (ordinary_markers_default _ isdigit_ascii_spec)
    |exact parse_example|].
  exact (parse_str isdigit_ascii default_options example_text
           example_template isdigit_ascii_spec
           (ordinary_markers_default _ isdigit_ascii_spec) parse_example).
Defined.

(** ** Extending a parsed text by one more section *)

Section extension.

Variable isdigit : char → bool.
Hypothesis isdigit_ok : isdigit_spec isdigit.
Variable opts : options.

(** Where [do_fsm] reports success on the end of the input, it goes to
    the start of a section on a separator. *)
Lemma do_fsm_None_slash (l l2 : locals) :
  do_fsm isdigit opts l None = Ok (SUCCESS, None, l2) →
  do_fsm isdigit opts l (Some (ch "/")) = Ok (Next SECTION_START, None, l2).
Proof.
  unfold do_fsm. destruct (L.state l); intros H.
  - inv_split.
  - apply bind_Ok in H as ([] & -> & H). apply bind_Ok in H as ([] & -> & H).
    cbn [bind]. char_tests. destruct (_ >? _); [done|].
    by injection H as <-.
  - apply bind_Ok in H as ([] & _ & H). done.
  - apply bind_Ok in H as ([] & -> & H). cbn [bind].
    rewrite bool_decide_eq_true_2 in H by done.
    rewrite (bool_decide_eq_false_2 (Some (ch "/") = None)) by done.
    char_tests. cbn [andb orb].
    destruct (true && _); [done|]. rewrite orb_true_r in H.
    apply bind_Ok in H as ([wo l1] & -> & H). cbn [bind].
    apply bind_Ok in H as (l3 & -> & H). cbn [bind].
    by injection H as <-.
  - done.
Qed.

Lemma loop_body_None_slash (l l' : locals) :
  loop_body isdigit opts l None = Ok (Break, l') →
  loop_body isdigit opts l (Some (ch "/"))
  = Ok (Continue, L.set_state SECTION_START l').
Proof.
  unfold loop_body.
  generalize (L.set_position (L.position l + 1) l). clear l. intros l.
  change (c_is None (ch "m")) with false. char_tests. cbn [andb].
  destruct (negb (L.is_partial l) && _).
  { unfold raise_unexpected_char_error, err. done. }
  rewrite (isdigit_ascii_false isdigit isdigit_ok (ch "/"))
    by (done || by left).
  cbn [negb]. intros H. apply bind_Ok in H as (l1 & -> & H). cbn [bind].
  apply bind_Ok in H as ([[ns r] l2] & Hfsm & H).
  destruct (do_fsm_None _ _ _ _ _ _ Hfsm) as [-> ->].
  rewrite (do_fsm_None_slash _ _ Hfsm). cbn [bind].
  apply bind_Ok in H as ([] & -> & H). cbn [bind].
  by injection H as <-.
Qed.

Lemma apply_new_range_clean (l l' : locals) :
  apply_new_range l = Ok l' →
  L.range_start l' = INVALID_INDEX ∧ L.range_end l' = INVALID_INDEX.
Proof. unfold apply_new_range. intros H. inv_split; by subst. Qed.

Lemma finish_clean (l l' : locals) :
  Inv opts l →
  loop_body isdigit opts l None = Ok (Break, l') →
  clean l' ∧ L.ret_state l' = None.
Proof.
  intros HI. unfold loop_body.
  apply (Inv_set_position _ _ (L.position l + 1)) in HI. revert HI.
  generalize (L.set_position (L.position l + 1) l). clear l. intros l HI.
  change (c_is None (ch "m")) with false. cbn [andb].
  destruct (negb (L.is_partial l) && _).
  { unfold raise_unexpected_char_error, err. done. }
  intros H. apply bind_Ok in H as (l1 & Hl1 & H).
  assert (Inv opts l1) as HI1.
  { destruct (bool_decide (L.state l = VALUE) && _) eqn:Hv;
      [|by injection Hl1 as <-].
    destruct (L.ret_state l) eqn:Hr; [|done]. injection Hl1 as <-.
    apply andb_prop in Hv as [Hv%bool_decide_eq_true _].
    by apply Inv_leave_VALUE. }
  clear Hl1 HI.
  apply bind_Ok in H as ([[ns r] l2] & Hfsm & H).
  destruct (do_fsm_None _ _ _ _ _ _ Hfsm) as [-> ->].
  apply bind_Ok in H as ([] & _ & H). injection H as <-.
  split; [|done]. unfold clean. cbn [L.set_ret_state L.index_value
    L.range_start L.range_end].
  destruct HI1 as (hs & us & _ & _ & _ & Hph). unfold phase in Hph.
  unfold do_fsm in Hfsm. destruct (L.state l1).
  - inv_split.
  - destruct (L.ret_state l1); [done|]. destruct Hph as (_ & Hcl & _).
    apply bind_Ok in Hfsm as ([] & _ & Hfsm).
    apply bind_Ok in Hfsm as ([] & _ & Hfsm).
    destruct (_ >? _); [done|]. by injection Hfsm as <-.
  - apply bind_Ok in Hfsm as ([] & _ & Hfsm). done.
  - apply bind_Ok in Hfsm as ([] & _ & Hfsm).
    destruct (_ && _); [done|].
    rewrite (bool_decide_eq_true_2 (None = None)), orb_true_r in Hfsm
      by done.
    apply bind_Ok in Hfsm as ([wo l3] & _ & Hfsm).
    apply bind_Ok in Hfsm as (l4 & Happ & Hfsm).
    injection Hfsm as <-. apply apply_new_range_clean in Happ as [? ?].
    done.
  - done.
Qed.

Lemma run_position (l l' : locals) (tpl : str) :
  run isdigit opts l tpl = Ok l' →
  L.position l' = L.position l + len tpl.
Proof.
  revert l. induction tpl as [|c tpl IH]; intros l H; simpl in H.
  { injection H as <-. rewrite len_nil. lia. }
  apply bind_Ok in H as ([ctl l1] & Hc & H).
  apply loop_body_position in Hc. apply IH in H.
  rewrite len_cons. lia.
Qed.

(** The locals after a text that parses and a separator: the start of a
    section, with the sections of the parsed template stored. *)
Lemma run_parsed_slash (tpl : str) (t : BIP32Template) :
  parse isdigit opts tpl = Ok t →
  ∃ ss acc,
    run isdigit opts (initial_locals opts) (tpl ++ text "/")
    = Ok (L.mk (is_partial t) SECTION_START None ss INVALID_INDEX
            INVALID_INDEX INVALID_INDEX acc (sections t) (len tpl + 1))
    ∧ past_prefix (is_partial t) (len tpl + 1)
    ∧ hardened_marker t = marker_of acc
    ∧ Final opts
        (L.mk (is_partial t) SECTION_START None ss INVALID_INDEX
           INVALID_INDEX INVALID_INDEX acc (sections t) (len tpl + 1)).
Proof.
  intros Hparse.
  destruct (parse_Ok isdigit isdigit_ok opts tpl t Hparse)
    as (l' & Hloop & HF & -> & _).
  rewrite loop_run in Hloop. apply bind_Ok in Hloop as (l & Hrun & Hfin).
  unfold finish in Hfin. apply bind_Ok in Hfin as ([ctl l''] & Hbody & Hfin).
  injection Hfin as ->.
  pose proof (loop_body_None_Break _ _ _ _ _ Hbody). subst ctl.
  pose proof (run_Inv _ isdigit_ok _ _ _ _ (Inv_initial opts) Hrun) as HI.
  destruct (finish_clean _ _ HI Hbody) as ((Hiv & Hrs & Hre) & Hret).
  pose proof (run_position _ _ _ Hrun) as Hpos.
  pose proof (loop_body_position _ _ _ _ _ _ Hbody) as Hpos'.
  cbn [initial_locals L.position] in Hpos. rewrite Hpos in Hpos'.
  apply loop_body_None_slash in Hbody as Hslash.
  assert (1 ≤ len tpl) as Hlen.
  { destruct tpl as [|c tpl]; [|rewrite len_cons; pose proof (len_nonneg tpl);
                                  lia].
    simpl in Hrun. injection Hrun as <-. unfold loop_body in Hbody.
    by destruct (bool_decide _) in Hbody. }
  destruct l' as [ip st rst ss iv rs re acc secs pos].
  cbn [L.index_value L.range_start L.range_end L.ret_state L.position
         L.sections L.is_partial L.accepted_hardened_markers
         sections is_partial] in *.
  subst iv rs re rst pos.
  exists ss, acc. split_and!.
  - rewrite run_app, Hrun. cbn [bind]. change (text "/") with [ch "/"].
    cbn [run]. rewrite Hslash. by cbn [bind L.set_state].
  - unfold past_prefix. destruct ip; lia.
  - done.
  - destruct HF as (hs & us & HF). exists hs, us. exact HF.
Qed.

Lemma loop_body_Raise (l : locals) (c : char) (e : exn) :
  past_prefix (L.is_partial l) (L.position l) → 1 ≤ L.position l →
  L.state l ≠ VALUE →
  do_fsm isdigit opts (L.set_position (L.position l + 1) l) (Some c)
    = Raise e →
  loop_body isdigit opts l (Some c) = Raise e.
Proof.
  intros Hpp Hpos Hst Hfsm. unfold loop_body.
  destruct (prefix_tests_later _ _ (Some c) Hpp Hpos) as [H1 H2].
  cbn [L.position L.set_position L.is_partial]. rewrite H1, H2.
  cbn [L.state]. rewrite (bool_decide_eq_false_2 (L.state l = VALUE))
    by done.
  cbn [andb bind]. by rewrite Hfsm.
Qed.

Lemma turn_marker_raise (st : State) (rst : option State) (ip ss : bool)
    (iv rs re : Z) (acc : gset str) (dn secs : list section)
    (s u : section) (pos : Z) (g : char) :
  at_end st rst → past_prefix ip pos → 1 ≤ pos →
  section_read (dn ++ [u]) s ss iv rs re secs →
  unhardened_section u →
  isdigit g = false → g ≠ ch "/" → [g] ∈ acc →
  loop_body isdigit opts (L.mk ip st rst ss iv rs re acc secs pos)
    (Some g)
  = Raise (BIP32TemplateException GotHardenedAfterUnhardened
             (Some (pos + 1))).
Proof.
  intros Hend Hpp Hpos Hread Hu Hg Hsl Hacc.
  rewrite at_end_leave; [|done..].
  destruct (section_read_end _ _ _ _ _ _ _ Hread)
    as (Hiv & _ & Hs & Hfin).
  apply loop_body_Raise; [done..|].
  unfold do_fsm. locals_simpl. rewrite Hiv, c_is_Some.
  rewrite (bool_decide_eq_false_2 (g = ch "/")) by done.
  rewrite (bool_decide_eq_false_2 (Some g = None)) by done.
  cbn [negb andb orb assert bind].
  rewrite bool_decide_eq_true_2 by done.
  remember ({[ [g] ]} : gset str) as acc' eqn:Hacc'.
  destruct (Hfin ip SECTION_END None acc' (pos + 1))
    as (wo & l1 & -> & Happ).
  cbn [bind]. rewrite Happ. cbn [bind]. locals_simpl.
  rewrite !len_app, !len_cons, !len_nil.
  pose proof (len_nonneg dn).
  assert ((len dn + (1 + 0) + (1 + 0) >? 1) = true) as -> by lia.
  rewrite <- app_assoc. cbn [app]. rewrite getitem_last2_snoc.
  cbn [bind]. rewrite (is_section_hardened_canonical 0) by auto.
  reflexivity.
Qed.

Lemma loop_raise (l l1 : locals) (s1 rest : str) (c : char) (e : exn) :
  run isdigit opts l s1 = Ok l1 →
  loop_body isdigit opts l1 (Some c) = Raise e →
  loop isdigit opts l (s1 ++ c :: rest) = Raise e.
Proof.
  intros Hrun Hc. rewrite loop_run, run_app, Hrun. cbn [bind run].
  by rewrite Hc.
Qed.

End extension.

Lemma marker_of_elem (acc : gset str) (m : str) :
  marker_of acc = m → m ≠ [] → m ∈ acc.
Proof.
  unfold marker_of. case_bool_decide as Hsz; [|congruence].
  apply size_1_elem_of in Hsz as [x Hx]. apply leibniz_equiv in Hx.
  subst acc. rewrite elements_singleton. simpl. intros -> _. set_solver.
Qed.

Lemma init_as_is (secs : list section) (ip : bool) (hm : str) :
  secs ≠ [] → hm = [] ∨ hm = text "h" ∨ hm = text "'" →
  __init__ secs ip hm true = Ok (mkTemplate secs ip hm).
Proof.
  intros Hne Hm. unfold __init__.
  rewrite bool_decide_eq_false_2 by done. cbn [bind].
  destruct Hm as [->|Hm]; [done|].
  apply in_HARDENED_MARKERS_spec in Hm. rewrite Hm.
  by rewrite andb_false_r.
Qed.

(** X11. A parsed text extended by a separator and one more index parses
    to the template extended by the section of that index, unless the
    limit on the number of sections is reached. *)
Theorem parse_append_index (isdigit : char → bool) (opts : options)
    (tpl : str) (t : BIP32Template) (n : Z) :
  isdigit_spec isdigit →
  parse isdigit opts tpl = Ok t →
  0 ≤ n ≤ MAX_INDEX_VALUE →
  len (sections t) ≠ max_sections opts →
  parse isdigit opts (tpl ++ text "/" ++ str_int n)
  = Ok (mkTemplate (sections t ++ [[(n, n)]]) (is_partial t)
          (hardened_marker t)).
Proof.
  intros Hd Hparse Hn Hlen.
  destruct (run_parsed_slash isdigit Hd opts tpl t Hparse)
    as (ss & acc & Hrun & Hpp & Hm & _).
  destruct (parse_Ok isdigit Hd opts tpl t Hparse) as (_ & _ & _ & _ & Hhm).
  unfold parse. rewrite app_assoc, loop_run, run_app, Hrun. cbn [bind].
  rewrite (run_start_digits isdigit Hd opts) by done. cbn [bind].
  unfold finish.
  pose proof (len_str_int_pos isdigit Hd opts n Hn).
  pose proof (len_nonneg tpl).
  rewrite (turn_end isdigit opts _ _ _ _ _ _ _ _ (sections t) _ [(n, n)]);
    [|by right|apply past_prefix_add; [done|lia]|lia
     |by apply read_plain|done].
  cbn [bind L.sections L.is_partial L.accepted_hardened_markers].
  fold (marker_of acc). rewrite <- Hm.
  apply init_as_is; [by destruct (sections t)|done].
Qed.

Lemma parse_append_index_witness :
  isdigit_spec isdigit_ascii
  ∧ parse isdigit_ascii default_options (text "m/44'/0")
    = Ok (mkTemplate [[(2147483692, 2147483692)]; [(0, 0)]] false
            (text "'"))
  ∧ parse isdigit_ascii default_options
      (text "m/44'/0" ++ text "/" ++ str_int 7)
    = Ok (mkTemplate [[(2147483692, 2147483692)]; [(0, 0)]; [(7, 7)]]
            false (text "'")).
Proof.
  split_and!; [exact isdigit_ascii_spec|by vm_compute|].
  apply (parse_append_index isdigit_ascii default_options (text "m/44'/0")
           (mkTemplate [[(2147483692, 2147483692)]; [(0, 0)]] false
              (text "'")) 7 isdigit_ascii_spec);
    [by vm_compute|by vm_compute|by vm_compute].
Defined.

(** X12. A parsed text whose sections are all hardened, extended by a
    separator, one more index and the hardened marker of the template,
    parses to the template extended by the hardened section of that
    index, while the limit on the number of sections is not reached. *)
Theorem parse_append_hardened_index (isdigit : char → bool)
    (opts : options) (tpl : str) (t : BIP32Template) (n : Z) (g : char) :
  isdigit_spec isdigit →
  parse isdigit opts tpl = Ok t →
  Forall hardened_section (sections t) →
  hardened_marker t = [g] → isdigit g = false → g ≠ ch "/" →
  0 ≤ n ≤ MAX_INDEX_VALUE →
  len (sections t) < max_sections opts →
  parse isdigit opts (tpl ++ text "/" ++ str_int n ++ [g])
  = Ok (mkTemplate
          (sections t
           ++ [[(n + HARDENED_INDEX_START, n + HARDENED_INDEX_START)]])
          (is_partial t) [g]).
Proof.
  intros Hd Hparse Hall Hg Hgd Hgs Hn Hlen.
  destruct (run_parsed_slash isdigit Hd opts tpl t Hparse)
    as (ss & acc & Hrun & Hpp & Hm & _).
  destruct (parse_Ok isdigit Hd opts tpl t Hparse) as (_ & _ & _ & _ & Hhm).
  assert ([g] ∈ acc) as Hacc.
  { apply marker_of_elem; [congruence|done]. }
  unfold parse. rewrite !app_assoc, loop_run.
  rewrite (run_app isdigit opts _ ((tpl ++ text "/") ++ str_int n) [g]).
  rewrite (run_app isdigit opts _ (tpl ++ text "/") (str_int n)), Hrun.
  cbn [bind].
  rewrite (run_start_digits isdigit Hd opts) by (done || lia).
  cbn [bind run].
  pose proof (len_str_int_pos isdigit Hd opts n Hn).
  pose proof (len_nonneg tpl).
  rewrite (turn_marker isdigit opts _ _ _ _ _ _ _ _ (sections t) _
             [(n, n)]);
    [|by right|apply past_prefix_add; [done|lia]|lia
     |by apply read_plain|done..].
  cbn [bind]. unfold finish.
  rewrite (turn_next_end isdigit opts);
    [|do 2 (apply past_prefix_add; [|lia]); done|lia|].
  2:{ rewrite len_app, len_cons, len_nil. lia. }
  cbn [bind L.sections L.is_partial L.accepted_hardened_markers].
  fold (marker_of ({[ [g] ]} : gset str)). rewrite marker_of_singleton.
  apply init_as_is; [by destruct (sections t)|by rewrite <- Hg].
Qed.

Lemma parse_append_hardened_index_witness :
  isdigit_spec isdigit_ascii
  ∧ parse isdigit_ascii default_options (text "m/44h")
    = Ok (mkTemplate [[(2147483692, 2147483692)]] false (text "h"))
  ∧ parse isdigit_ascii default_options
      (text "m/44h" ++ text "/" ++ str_int 7 ++ [ch "h"])
    = Ok (mkTemplate
            [[(2147483692, 2147483692)]; [(7 + 2147483648, 7 + 2147483648)]]
            false (text "h")).
Proof.
  split_and!; [exact isdigit_ascii_spec|by vm_compute|].
  apply (parse_append_hardened_index isdigit_ascii default_options
           (text "m/44h")
           (mkTemplate [[(2147483692, 2147483692)]] false (text "h"))
           7 (ch "h") isdigit_ascii_spec);
    [by vm_compute| |done|by vm_compute|done|by vm_compute|by vm_compute].
  apply Forall_singleton. split_and!; [done| |done].
  apply Forall_singleton. unfold range_in. unfold_consts. simpl. lia.
Defined.

(** X13. A hardened section after an unhardened one is refused: a parsed
    text whose last section is unhardened, extended by a separator, an
    index and an accepted hardened marker, raises
    [GotHardenedAfterUnhardened] at the position of the marker, whatever
    follows it. *)
Theorem parse_hardened_after_unhardened (isdigit : char → bool)
    (opts : options) (tpl rest : str) (t : BIP32Template) (n : Z)
    (g : char) (u : section) :
  isdigit_spec isdigit →
  parse isdigit opts tpl = Ok t →
  last (sections t) = Some u → unhardened_section u →
  [g] ∈ set_of_pair (hardened_markers opts) →
  (starts_hardened (sections t) = true → hardened_marker t = [g]) →
  isdigit g = false → g ≠ ch "/" →
  0 ≤ n ≤ MAX_INDEX_VALUE →
  len (sections t) ≠ max_sections opts →
  parse isdigit opts (tpl ++ text "/" ++ str_int n ++ g :: rest)
  = Raise (BIP32TemplateException GotHardenedAfterUnhardened
             (Some (len tpl + len (str_int n) + 2))).
Proof.
  intros Hd Hparse Hlast Hu Hgin Hgm Hgd Hgs Hn Hlen.
  destruct (run_parsed_slash isdigit Hd opts tpl t Hparse)
    as (ss & acc & Hrun & Hpp & Hm & HF).
  destruct HF as (hs & us & Hsec & _ & Hhs & Hus & Hmk & _).
  cbn [L.sections L.accepted_hardened_markers] in Hsec, Hmk.
  assert ([g] ∈ acc) as Hacc.
  { destruct Hmk as [[-> _]|(g0 & -> & _ & Hhne)]; [done|].
    rewrite marker_of_singleton in Hm. rewrite Hm in Hgm.
    rewrite Hsec, starts_hardened_app in Hgm.
    - rewrite bool_decide_eq_false_2 in Hgm by done.
      specialize (Hgm eq_refl). injection Hgm as ->. set_solver.
    - eapply Forall_impl; [done|]. by intros s [? _].
    - eapply Forall_impl; [done|]. by intros s [? _]. }
  apply last_Some in Hlast as [dn Hdn].
  unfold parse. rewrite !app_assoc.
  erewrite loop_raise; [done| |].
  - rewrite run_app, Hrun. cbn [bind].
    apply (run_start_digits isdigit Hd opts); done.
  - pose proof (len_str_int_pos isdigit Hd opts n Hn).
    pose proof (len_nonneg tpl).
    rewrite Hdn.
    rewrite (turn_marker_raise isdigit opts _ _ _ _ _ _ _ _ dn _
               [(n, n)] u);
      [|by right|apply past_prefix_add; [done|lia]|lia
       |by apply read_plain|done..].
    do 3 f_equal. lia.
Qed.

Lemma parse_hardened_after_unhardened_witness :
  isdigit_spec isdigit_ascii
  ∧ parse isdigit_ascii default_options (text "m/0")
    = Ok (mkTemplate [[(0, 0)]] false [])
  ∧ parse isdigit_ascii default_options
      (text "m/0" ++ text "/" ++ str_int 1 ++ ch "'" :: text "/2")
    = Raise (BIP32TemplateException GotHardenedAfterUnhardened
               (Some (len (text "m/0") + len (str_int 1) + 2))).
Proof.
  split_and!; [exact isdigit_ascii_spec|by vm_compute|].
  apply (parse_hardened_after_unhardened isdigit_ascii default_options
           (text "m/0") (text "/2") (mkTemplate [[(0, 0)]] false []) 1
           (ch "'") [(0, 0)] isdigit_ascii_spec);
    [by vm_compute|done| |by vm_compute|done|done|done|by vm_compute
    |by vm_compute].
  split_and!; [done| |done].
  apply Forall_singleton. unfold range_in. unfold_consts. simpl. lia.
Defined.

(** ** What the constructor accepts *)

Definition hardened_range (r : range) : bool :=
  r.1 >=? HARDENED_INDEX_START.

(** A range is in order and does not straddle the two halves of the index
    space. *)
Definition range_ok (r : range) : Prop :=
  r.1 ≤ r.2 ∧ (r.1 < HARDENED_INDEX_START → r.2 < HARDENED_INDEX_START).

(** Each range of a section starts after the end of the one before. *)
Fixpoint ascending (s : section) : Prop :=
  match s with
  | [] => True
  | r1 :: s' =>
      match s' with
      | [] => True
      | r2 :: _ => r1.2 < r2.1
      end ∧ ascending s'
  end.

(** No hardened range comes after an unhardened one. *)
Definition hardened_first (rs : list range) : Prop :=
  ∀ i j r r', (i < j)%nat → rs !! i = Some r → rs !! j = Some r' →
              hardened_range r' = true → hardened_range r = true.

Definition init_accepts (ss : list section) : Prop :=
  ss ≠ [] ∧ concat ss ≠ []
  ∧ Forall (Forall range_ok) ss ∧ Forall ascending ss
  ∧ hardened_first (concat ss).

(** The marker that the constructor keeps. *)
Definition init_marker (ss : list section) (hm : str) : str :=
  if existsb hardened_range (concat ss) then hm else [].

Section init_spec.

Implicit Types (s : section) (ss : list section) (f : init_flags).

(** The test on [got_unhardened] passes at each hardened range of [s]. *)
Fixpoint order_ok (u : bool) (s : list range) : Prop :=
  match s with
  | [] => True
  | r :: s' =>
      if hardened_range r then u = false ∧ order_ok u s'
      else order_ok true s'
  end.

Definition flags_over (f : init_flags) (s : list range) : init_flags :=
  mkFlags (got_hardened f || existsb hardened_range s)
          (got_unhardened f || existsb (negb ∘ hardened_range) s).

Definition ascending_from (prev : option range) (s : section) : Prop :=
  match prev, s with
  | Some p, r :: _ => p.2 < r.1
  | _, _ => True
  end ∧ ascending s.

Lemma flags_eq f f' :
  got_hardened f = got_hardened f' → got_unhardened f = got_unhardened f' →
  f = f'.
Proof. destruct f, f'. simpl. by intros -> ->. Qed.

Lemma init_ranges_spec s (prev : option range) f (acc : list range)
    (res : list range * init_flags) :
  init_ranges s prev f acc = Ok res
  ↔ res = (acc ++ s, flags_over f s)
    ∧ ascending_from prev s ∧ Forall range_ok s
    ∧ order_ok (got_unhardened f) s.
Proof.
  revert prev f acc.
  induction s as [|[a b] s IH]; intros prev f acc.
  { cbn [init_ranges]. unfold ascending_from, flags_over.
    cbn [existsb ascending order_ok]. rewrite app_nil_r, !orb_false_r.
    destruct f; simpl. split.
    - intros H. injection H as <-. split_and!; try done. by destruct prev.
    - by intros (-> & _). }
  cbn [init_ranges]. unfold ascending_from, range_ok, hardened_range in *.
  cbn [ascending order_ok fst snd]. rewrite Forall_cons. cbn [fst snd].
  destruct (a >? b) eqn:Hab.
  { split; [done|]. lia. }
  destruct (match prev with Some p => p.2 >=? a | None => false end)
    eqn:Hprev.
  { split; [done|]. destruct prev; [lia|done]. }
  assert (match prev with Some p => p.2 < a | None => True end) as Hprev'.
  { destruct prev; [lia|done]. }
  unfold hardened_range. cbn [fst].
  destruct (a >=? HARDENED_INDEX_START) eqn:Hh.
  - destruct (got_unhardened f) eqn:Hu.
    { cbn [bind]. split; [done|]. naive_solver. }
    assert ((b <? HARDENED_INDEX_START) = false) as -> by lia.
    cbn [bind]. rewrite IH. unfold ascending_from.
    rewrite <- app_assoc. cbn [app].
    assert (flags_over (mkFlags true false) s = flags_over f ((a, b) :: s))
      as ->.
    { apply flags_eq; unfold flags_over, hardened_range, compose;
        simpl; rewrite Hh, ?Hu; simpl; by rewrite ?orb_true_r. }
    change (got_unhardened (mkFlags true false)) with false.
    destruct s as [|[a' b'] s]; cbn [ascending fst snd]; split.
    all: intros (? & ? & ? & ?); split_and!; try done; try lia;
      naive_solver lia.
  - destruct (b >=? HARDENED_INDEX_START) eqn:Hb.
    { cbn [bind]. split; [done|]. lia. }
    cbn [bind]. rewrite IH. unfold ascending_from.
    rewrite <- app_assoc. cbn [app].
    assert (flags_over (mkFlags (got_hardened f) true) s
            = flags_over f ((a, b) :: s)) as ->.
    { apply flags_eq; unfold flags_over, hardened_range, compose;
        simpl; rewrite Hh; simpl; by rewrite ?orb_true_r. }
    change (got_unhardened (mkFlags (got_hardened f) true)) with true.
    destruct s as [|[a' b'] s]; cbn [ascending fst snd]; split.
    all: intros (? & ? & ? & ?); split_and!; try done; try lia;
      naive_solver lia.
Qed.

Lemma flags_over_app f (s1 s2 : list range) :
  flags_over (flags_over f s1) s2 = flags_over f (s1 ++ s2).
Proof.
  apply flags_eq; unfold flags_over; simpl; rewrite existsb_app;
    by rewrite orb_assoc.
Qed.

Lemma order_ok_app (u : bool) (s1 s2 : list range) :
  order_ok u (s1 ++ s2)
  ↔ order_ok u s1
    ∧ order_ok (u || existsb (negb ∘ hardened_range) s1) s2.
Proof.
  revert u. induction s1 as [|r s1 IH]; intros u; cbn [app order_ok existsb].
  { rewrite orb_false_r. naive_solver. }
  unfold compose at 1. destruct (hardened_range r); cbn [negb orb].
  - rewrite IH. naive_solver.
  - rewrite IH, orb_true_r. cbn [orb]. done.
Qed.

Lemma init_sections_spec ss f (acc : list section)
    (res : list section * init_flags) :
  init_sections ss f acc = Ok res
  ↔ res = (acc ++ ss, flags_over f (concat ss))
    ∧ Forall ascending ss ∧ Forall (Forall range_ok) ss
    ∧ order_ok (got_unhardened f) (concat ss).
Proof.
  revert f acc. induction ss as [|s ss IH]; intros f acc.
  { cbn [init_sections concat order_ok]. rewrite app_nil_r.
    assert (flags_over f [] = f) as ->.
    { apply flags_eq; unfold flags_over; simpl; by rewrite orb_false_r. }
    split; [intros [= <-]; by split_and!|by intros (-> & _)]. }
  cbn [init_sections concat]. rewrite bind_Ok, !Forall_cons, order_ok_app.
  split.
  - intros ([nr f'] & Hr & Hss). apply init_ranges_spec in Hr.
    destruct Hr as ([= -> ->] & (_ & Hasc) & Hok & Hord).
    cbn [app] in Hss. apply IH in Hss as (-> & Hasc' & Hok' & Hord').
    rewrite flags_over_app, <- app_assoc. cbn [app]. split_and!; try done.
  - intros (-> & [Hasc Hasc'] & [Hok Hok'] & Hord & Hord').
    exists (s, flags_over f s). split.
    + apply init_ranges_spec. by split_and!.
    + apply IH. rewrite flags_over_app, <- app_assoc. by split_and!.
Qed.

Lemma hardened_first_cons (r : range) (rs : list range) :
  hardened_first (r :: rs)
  ↔ (hardened_range r = true
     ∨ Forall (λ x, hardened_range x = false) rs)
    ∧ hardened_first rs.
Proof.
  unfold hardened_first. split.
  - intros H. split.
    + destruct (hardened_range r) eqn:Hr; [by left|right].
      apply Forall_lookup. intros j x Hj.
      destruct (hardened_range x) eqn:Hx; [|done].
      rewrite <- Hr. symmetry. apply (H 0%nat (S j) r x); [lia|done..].
    + intros i j r1 r2 Hij H1 H2. apply (H (S i) (S j)); [lia|done..].
  - intros [Hr H] i j r1 r2 Hij H1 H2 Hh.
    destruct i as [|i], j as [|j]; try lia; simpl in *.
    + injection H1 as <-. destruct Hr as [?|Hall]; [done|].
      eapply Forall_lookup in Hall; [|done]. congruence.
    + apply (H i j r1 r2); [lia|done..].
Qed.

Lemma order_ok_hardened_first (u : bool) (rs : list range) :
  order_ok u rs
  ↔ (u = true → Forall (λ r, hardened_range r = false) rs)
    ∧ hardened_first rs.
Proof.
  revert u. induction rs as [|r rs IH]; intros u.
  { split; [|done]. intros _. split; [done|]. by intros i j r x _ ?. }
  cbn [order_ok]. rewrite hardened_first_cons, Forall_cons.
  destruct (hardened_range r) eqn:Hr.
  - rewrite IH. destruct u; naive_solver.
  - rewrite IH. naive_solver.
Qed.

End init_spec.

(** X14. The constructor, called without [_accept_params_as_is], returns
    a template exactly when there is at least one section and one range,
    every range is in order and within one half of the index space, the
    ranges of each section are in ascending order without touching ends,
    no hardened range follows an unhardened one, and the marker it keeps
    is empty or one of [HARDENED_MARKERS]; the template holds the
    sections as given. *)
Theorem init_spec (ss : list section) (p : bool) (hm : str)
    (t : BIP32Template) :
  __init__ ss p hm false = Ok t
  ↔ init_accepts ss
    ∧ (init_marker ss hm = []
       ∨ in_HARDENED_MARKERS (init_marker ss hm) = true)
    ∧ t = mkTemplate ss p (init_marker ss hm).
Proof.
  unfold __init__, init_accepts, init_marker.
  case_bool_decide as Hne.
  { split; [done|]. by intros ((? & _) & _). }
  rewrite bind_Ok. setoid_rewrite bind_Ok.
  assert (got_hardened (flags_over (mkFlags false false) (concat ss))
          || got_unhardened
               (flags_over (mkFlags false false) (concat ss)) = true
          ↔ concat ss ≠ []) as Hflags.
  { unfold flags_over, compose. simpl.
    destruct (concat ss) as [|r rs]; [done|]. simpl.
    split; [done|]. intros _. destruct (hardened_range r); simpl; [done|].
    by rewrite orb_true_r. }
  assert (∀ b : bool, (if negb b then [] else hm) = if b then hm else [])
    as Hif by by intros [].
  split.
  - intros ([secs hm'] & ([secs' f] & Hss & Hret) & Hm).
    apply bind_Ok in Hret as ([] & Has & Hret).
    apply init_sections_spec in Hss.
    destruct Hss as ([= -> ->] & Hasc & Hok & Hord).
    apply assert_Ok in Has. cbn [app] in *. injection Hret as <- <-.
    apply order_ok_hardened_first in Hord as [_ Hord].
    simpl in Hm. rewrite !Hif in Hm.
    destruct (negb (bool_decide _) && negb _) eqn:Htest; [done|].
    injection Hm as <-. split_and!; try done.
    + by apply Hflags.
    + apply andb_false_iff in Htest as [Ht|Ht].
      * left. by apply negb_false_iff, bool_decide_eq_true in Ht.
      * right. by apply negb_false_iff in Ht.
  - intros ((_ & Hcat & Hok & Hasc & Hord) & Hm & ->).
    eexists (ss, _). split.
    + exists (ss, flags_over (mkFlags false false) (concat ss)). split.
      * apply init_sections_spec. split_and!; try done.
        apply order_ok_hardened_first. by split.
      * apply bind_Ok. exists tt. split; [|done]. apply assert_Ok.
        by apply Hflags.
    + simpl. rewrite !Hif. destruct Hm as [-> | ->]; [done|].
      by rewrite andb_false_r.
Qed.

Lemma init_spec_witness :
  ∃ t, __init__ [[(2147483648, 2147483650)]; [(0, 3); (5, 7)]] true
         (text "h") false = Ok t
       ∧ init_accepts [[(2147483648, 2147483650)]; [(0, 3); (5, 7)]].
Proof.
  eexists. split; [reflexivity|].
  eapply (proj1 (init_spec _ true (text "h") _)). reflexivity.
Defined.

(** ** The [m/] prefix and [is_partial] *)

Section partial.

Variable isdigit : char → bool.
Variable opts : options.

Lemma finalize_range_is_partial (l l' : locals) (wo : bool) :
  finalize_range l = Ok (wo, l') → L.is_partial l' = L.is_partial l.
Proof. unfold finalize_range. intros H. inv_split; by subst. Qed.

Lemma apply_new_range_is_partial (l l' : locals) :
  apply_new_range l = Ok l' → L.is_partial l' = L.is_partial l.
Proof. unfold apply_new_range. intros H. inv_split; by subst. Qed.

Lemma harden_last_section_is_partial (l l' : locals) :
  harden_last_section l = Ok l' → L.is_partial l' = L.is_partial l.
Proof. unfold harden_last_section. intros H. inv_split; by subst. Qed.

Lemma do_fsm_is_partial (l l' : locals) (c : option char) (ns : next_state)
    (r : option State) :
  do_fsm isdigit opts l c = Ok (ns, r, l') → L.is_partial l' = L.is_partial l.
Proof.
  unfold do_fsm. intros H.
  destruct (L.state l).
  - destruct c; inv_split; by subst.
  - destruct c; inv_split; by subst.
  - destruct c; [|inv_split].
    repeat match goal with
    | H : (if ?b then _ else _) = Ok _ |- _ => destruct b
    | H : bind (assert _) _ = Ok _ |- _ => apply bind_Ok in H as ([] & _ & H)
    | H : err _ _ = Ok _ |- _ => discriminate H
    | H : raise_unexpected_char_error _ _ _ = Ok _ |- _ =>
        exfalso; revert H; unfold raise_unexpected_char_error, err;
        repeat case_match; discriminate
    | H : Ok _ = Ok _ |- _ => injection H as <- <- <-
    | H : bind (finalize_range _) _ = Ok _ |- _ =>
        let Hf := fresh "Hf" in
        apply bind_Ok in H as ([? ?] & Hf & H);
        apply finalize_range_is_partial in Hf
    | H : bind (apply_new_range _) _ = Ok _ |- _ =>
        let Hf := fresh "Hf" in
        apply bind_Ok in H as (? & Hf & H);
        apply apply_new_range_is_partial in Hf
    | H : bind (harden_last_section _) _ = Ok _ |- _ =>
        let Hf := fresh "Hf" in
        apply bind_Ok in H as (? & Hf & H);
        apply harden_last_section_is_partial in Hf
    | H : bind _ _ = Ok _ |- _ => apply bind_Ok in H as (? & _ & H)
    end; simpl; congruence.
  - repeat match goal with
    | H : (if ?b then _ else _) = Ok _ |- _ => destruct b
    | H : match ?c with Some _ => _ | None => _ end = Ok _ |- _ => destruct c
    | H : bind (assert _) _ = Ok _ |- _ => apply bind_Ok in H as ([] & _ & H)
    | H : err _ _ = Ok _ |- _ => discriminate H
    | H : raise_unexpected_char_error _ _ _ = Ok _ |- _ =>
        exfalso; revert H; unfold raise_unexpected_char_error, err;
        repeat case_match; discriminate
    | H : Ok _ = Ok _ |- _ => injection H as <- <- <-
    | H : bind (finalize_range _) _ = Ok _ |- _ =>
        let Hf := fresh "Hf" in
        apply bind_Ok in H as ([? ?] & Hf & H);
        apply finalize_range_is_partial in Hf
    | H : bind (apply_new_range _) _ = Ok _ |- _ =>
        let Hf := fresh "Hf" in
        apply bind_Ok in H as (? & Hf & H);
        apply apply_new_range_is_partial in Hf
    | H : bind (harden_last_section _) _ = Ok _ |- _ =>
        let Hf := fresh "Hf" in
        apply bind_Ok in H as (? & Hf & H);
        apply harden_last_section_is_partial in Hf
    | H : bind _ _ = Ok _ |- _ => apply bind_Ok in H as (? & _ & H)
    end; simpl in *; congruence.
  - destruct c; inv_split; by subst.
Qed.

Lemma loop_body_is_partial (l l' : locals) (c : option char)
    (ctl : control) :
  loop_body isdigit opts l c = Ok (ctl, l') →
  L.is_partial l'
  = if c_is c (ch "m") && (L.position l + 1 =? 1) then false
    else L.is_partial l.
Proof.
  unfold loop_body. intros H.
  remember (L.set_position (L.position l + 1) l) as l0 eqn:Hl0.
  assert (L.is_partial l0 = L.is_partial l
          ∧ L.position l0 = L.position l + 1) as [Hip Hpos] by by subst.
  clear Hl0. rewrite Hpos in H.
  destruct (c_is c (ch "m") && _).
  { by injection H as <- <-. }
  destruct (negb (L.is_partial l0) && _).
  { destruct (c_is c (ch "/")); inv_split. by subst. }
  apply bind_Ok in H as (l1 & Hl1 & H).
  assert (L.is_partial l1 = L.is_partial l0) as Hip1.
  { destruct (bool_decide (L.state l0 = VALUE) && _); [|by injection Hl1 as <-].
    destruct (L.ret_state l0); [|done]. by injection Hl1 as <-. }
  apply bind_Ok in H as ([[ns r] l2] & Hfsm & H).
  apply do_fsm_is_partial in Hfsm.
  apply bind_Ok in H as ([] & _ & H).
  destruct c, ns; inv_split; subst; simpl; congruence.
Qed.

Lemma loop_is_partial (l l' : locals) (tpl : str) :
  1 ≤ L.position l →
  loop isdigit opts l tpl = Ok l' → L.is_partial l' = L.is_partial l.
Proof.
  revert l. induction tpl as [|c tpl IH]; intros l Hpos H; simpl in H.
  - apply bind_Ok in H as ([ctl l1] & Hc & H). injection H as <-.
    apply loop_body_is_partial in Hc. rewrite Hc.
    assert ((L.position l + 1 =? 1) = false) as -> by lia.
    by rewrite andb_false_r.
  - apply bind_Ok in H as ([ctl l1] & Hc & H).
    pose proof (loop_body_position _ _ _ _ _ _ Hc) as Hpos1.
    apply loop_body_is_partial in Hc as Hip.
    assert ((L.position l + 1 =? 1) = false) as Hne by lia.
    rewrite Hne, andb_false_r in Hip. rewrite <- Hip.
    destruct ctl; [|by injection H as <-].
    apply IH; [lia|done].
Qed.

End partial.

(** X15. A parsed template is full ([is_partial] false) exactly when the
    text starts with [m]. *)
Theorem parse_is_partial (isdigit : char → bool) (opts : options)
    (tpl : str) (t : BIP32Template) :
  parse isdigit opts tpl = Ok t →
  is_partial t = negb (bool_decide (head tpl = Some (ch "m"))).
Proof.
  unfold parse. intros H. apply bind_Ok in H as (l & Hloop & H).
  assert (is_partial t = L.is_partial l) as ->.
  { unfold __init__ in H. destruct (bool_decide _); [done|].
    cbn [bind] in H. destruct (_ && _); [done|]. by injection H as <-. }
  clear H. destruct tpl as [|c tpl]; [done|]. cbn [loop] in Hloop.
  apply bind_Ok in Hloop as ([ctl l1] & Hc & H).
  pose proof (loop_body_position _ _ _ _ _ _ Hc) as Hpos.
  apply loop_body_is_partial in Hc as Hip.
  cbn [initial_locals L.position L.is_partial] in Hpos, Hip.
  change (0 + 1 =? 1) with true in Hip. rewrite andb_true_r in Hip.
  assert (L.is_partial l = L.is_partial l1) as ->.
  { destruct ctl; [|by injection H as <-].
    apply (loop_is_partial isdigit opts l1 l tpl); [lia|done]. }
  rewrite Hip. cbn [head]. unfold c_is. by destruct (bool_decide _).
Qed.

Lemma parse_is_partial_witness :
  parse isdigit_ascii default_options example_text = Ok example_template
  ∧ is_partial example_template
    = negb (bool_decide (head example_text = Some (ch "m"))).
Proof.
  split; [exact parse_example|].
  exact (parse_is_partial isdigit_ascii default_options example_text
           example_template parse_example).
Defined.

(** ** The characters of an accepted text *)

Section alphabet.

Variable isdigit : char → bool.
Hypothesis isdigit_ok : isdigit_spec isdigit.
Variable opts : options.

(** The characters that can occur in a text that [parse] accepts. *)
Definition in_alphabet (c : char) : Prop :=
  isdigit c = true ∨ c ∈ text "m/[]-,*"
  ∨ [c] ∈ set_of_pair (hardened_markers opts).

Lemma in_alphabet_is (c : char) (a : ascii) :
  c_is (Some c) (ch a) = true → ch a ∈ text "m/[]-,*" → in_alphabet c.
Proof.
  intros Hc Ha. apply bool_decide_eq_true in Hc. injection Hc as ->.
  right. by left.
Qed.

Lemma do_fsm_alphabet (l l' : locals) (c : char) (ns : next_state)
    (r : option State) :
  Inv opts l →
  do_fsm isdigit opts l (Some c) = Ok (ns, r, l') → in_alphabet c.
Proof.
  intros (hs & us & _ & _ & Hm & _). unfold do_fsm.
  destruct (L.state l); intros H.
  - cbn zeta in H.
    destruct (c_is (Some c) (ch "[")) eqn:E1.
    { eapply in_alphabet_is; [done|]. set_solver. }
    destruct (c_is (Some c) (ch "*")) eqn:E2.
    { eapply in_alphabet_is; [done|]. set_solver. }
    destruct (isdigit c) eqn:E3; [by left|].
    exfalso. revert H.
    destruct (negb (is_format_onlypath opts));
      repeat (case_match; try done);
      unfold raise_unexpected_char_error, err; repeat case_match; done.
  - apply bind_Ok in H as ([] & _ & H). apply bind_Ok in H as ([] & _ & H).
    destruct (c_is (Some c) (ch "/")) eqn:E1.
    { eapply in_alphabet_is; [done|]. set_solver. }
    exfalso. revert H.
    unfold raise_unexpected_char_error, err; repeat case_match; done.
  - apply bind_Ok in H as ([] & _ & H).
    destruct (L.index_value l =? INVALID_INDEX).
    { by destruct (c_is (Some c) (ch " ")). }
    destruct (c_is (Some c) (ch "-")) eqn:E1.
    { eapply in_alphabet_is; [done|]. set_solver. }
    destruct (c_is (Some c) (ch ",")) eqn:E2.
    { eapply in_alphabet_is; [done|]. set_solver. }
    destruct (c_is (Some c) (ch "]")) eqn:E3.
    { eapply in_alphabet_is; [done|]. set_solver. }
    exfalso. revert H.
    unfold raise_unexpected_char_error, err; repeat case_match; done.
  - apply bind_Ok in H as ([] & _ & H).
    destruct (bool_decide (Some c = None) && _); [done|].
    destruct (c_is (Some c) (ch "/")) eqn:E1.
    { eapply in_alphabet_is; [done|]. set_solver. }
    rewrite (bool_decide_eq_false_2 (Some c = None)) in H by done.
    cbn [orb] in H.
    destruct (bool_decide ([c] ∈ L.accepted_hardened_markers l)) eqn:E2.
    { apply bool_decide_eq_true in E2. right; right.
      destruct Hm as [[Hacc _]|(g & Hacc & Hg & _)]; rewrite Hacc in E2;
        [done|]. by apply elem_of_singleton in E2 as ->. }
    exfalso. revert H. destruct (_ || _); [done|].
    unfold raise_unexpected_char_error, err; repeat case_match; done.
  - apply bind_Ok in H as (v & Hv & _). unfold process_digit in Hv.
    apply bind_Ok in Hv as ([] & Hd%assert_Ok & _). by left.
Qed.

Lemma loop_body_alphabet (l l' : locals) (c : char) (ctl : control) :
  Inv opts l →
  loop_body isdigit opts l (Some c) = Ok (ctl, l') → in_alphabet c.
Proof.
  intros HI. unfold loop_body.
  apply (Inv_set_position _ _ (L.position l + 1)) in HI. revert HI.
  generalize (L.set_position (L.position l + 1) l). clear l. intros l HI.
  destruct (c_is (Some c) (ch "m") && _) eqn:E1.
  { intros _. apply andb_prop in E1 as [E1 _].
    eapply in_alphabet_is; [done|]. set_solver. }
  destruct (negb (L.is_partial l) && _).
  { destruct (c_is (Some c) (ch "/")) eqn:E2.
    - intros _. eapply in_alphabet_is; [done|]. set_solver.
    - unfold raise_unexpected_char_error, err. by repeat case_match. }
  intros H. apply bind_Ok in H as (l1 & Hl1 & H).
  assert (Inv opts l1) as HI1.
  { destruct (bool_decide (L.state l = VALUE) && _) eqn:Hv;
      [|by injection Hl1 as <-].
    destruct (L.ret_state l) eqn:Hr; [|done]. injection Hl1 as <-.
    apply andb_prop in Hv as [Hv%bool_decide_eq_true _].
    by apply Inv_leave_VALUE. }
  apply bind_Ok in H as ([[ns r] l2] & Hfsm & _).
  by eapply do_fsm_alphabet.
Qed.

Lemma run_alphabet (l l' : locals) (tpl : str) :
  Inv opts l → run isdigit opts l tpl = Ok l' → Forall in_alphabet tpl.
Proof.
  revert l. induction tpl as [|c tpl IH]; intros l HI H; [done|].
  simpl in H. apply bind_Ok in H as ([ctl l1] & Hc & H).
  constructor; [by eapply loop_body_alphabet|].
  pose proof (loop_body_Some_Continue _ _ _ _ _ _ Hc). subst ctl.
  apply (loop_body_Inv _ isdigit_ok _ _ _ _ _ HI) in Hc.
  by apply (IH l1).
Qed.

End alphabet.

(** X16. A text that [parse] accepts holds nothing but digits, the
    characters [m / [ ] - , *] and the hardened markers of the options:
    in particular no space. *)
Theorem parse_alphabet (isdigit : char → bool) (opts : options)
    (tpl : str) (t : BIP32Template) :
  isdigit_spec isdigit →
  parse isdigit opts tpl = Ok t →
  Forall (in_alphabet isdigit opts) tpl.
Proof.
  intros Hd H. unfold parse in H. apply bind_Ok in H as (l & Hloop & _).
  rewrite loop_run in Hloop. apply bind_Ok in Hloop as (l1 & Hrun & _).
  eapply run_alphabet; [done|apply Inv_initial|done].
Qed.

Lemma parse_alphabet_witness :
  isdigit_spec isdigit_ascii
  ∧ parse isdigit_ascii default_options example_text = Ok example_template
  ∧ Forall (in_alphabet isdigit_ascii default_options) example_text.
Proof.
  split_and!; [exact isdigit_ascii_spec|exact parse_example|].
  exact (parse_alphabet isdigit_ascii default_options example_text
           example_template isdigit_ascii_spec parse_example).
Defined.
